(** * A custom Buildkite scheduler on the Stacks API: the job index and its
      claim protocol

    A shallow embedding of the Go packages [types] (the query-rule
    normaliser), [storage] (the Redis-backed job index), [server] (the HTTP
    handlers of the matching API) and [worker] (the tag merge of the poll
    loop), followed by the properties the specification states about them.

    Conventions.  A Go [string] is a sequence of bytes: Rocq's [string], whose
    characters are the 256 values of [ascii].  A slice is a [list]; the code
    never tells a nil slice from an empty one ([len(rules) == 0]).  Go's
    [string] comparison is byte-wise lexicographic, which is [String.le]. *)

From Stdlib Require Import ZArith Ascii String List Lia.
From stdpp Require Import base option list sorting strings gmap.

Local Open Scope string_scope.
Local Open Scope list_scope.

(** ** Package [strings] of the Go library: the functions the code calls *)

Module GoStrings.

(** [strings.Join(elems, sep)]. *)
Fixpoint Join (elems : list string) (sep : string) : string :=
  match elems with
  | [] => ""
  | [x] => x
  | x :: rest => x +:+ sep +:+ Join rest sep
  end.

(** [strings.Split(s, sep)] for a one-byte separator (every call site passes
    [","]): the pieces between the occurrences of [sep]; a string with [n]
    separators has [n + 1] pieces, so the empty string has the single piece
    [""]. *)
Fixpoint Split (s : string) (sep : ascii) : list string :=
  match s with
  | "" => [""]
  | String c s' =>
      if Ascii.eqb c sep then "" :: Split s' sep
      else match Split s' sep with
           | h :: t => String c h :: t
           | [] => [String c ""]
           end
  end.

(** [strings.SplitN(s, sep, 2)] for a one-byte separator: [s] cut at its first
    [sep], or [s] alone when it has none. *)
Fixpoint SplitN2 (s : string) (sep : ascii) : list string :=
  match s with
  | "" => [""]
  | String c s' =>
      if Ascii.eqb c sep then [""; s']
      else match SplitN2 s' sep with
           | h :: t => String c h :: t
           | [] => [String c ""]
           end
  end.

(** [strings.IndexByte(s, c) >= 0]: the byte [c] occurs in [s]. *)
Fixpoint ContainsByte (s : string) (c : ascii) : bool :=
  match s with
  | "" => false
  | String c' s' => Ascii.eqb c' c || ContainsByte s' c
  end.

(** The bytes [asciiSpace] marks: tab, line feed, vertical tab, form feed,
    carriage return and space. *)
Definition asciiSpace (c : ascii) : bool :=
  match c with
  | "009" | "010" | "011" | "012" | "013" | " " => true
  | _ => false
  end%char.

(** The code points of [unicode.IsSpace] above U+007F, by their UTF-8
    encodings: U+0085, U+00A0, U+1680, U+2000 to U+200A, U+2028, U+2029,
    U+202F, U+205F and U+3000.  [leadingSpace s] is the rest of [s] after one
    leading white-space rune, when it starts with one. *)
Definition leadingSpace (s : string) : option string :=
  match s with
  | String c1 r1 =>
      if asciiSpace c1 then Some r1
      else match r1 with
      | String c2 r2 =>
          if (Ascii.eqb c1 "194" && (Ascii.eqb c2 "133" || Ascii.eqb c2 "160"))%char%bool
          then Some r2
          else match r2 with
          | String c3 r3 =>
              let n3 := N_of_ascii c3 in
              if ((Ascii.eqb c1 "225" && Ascii.eqb c2 "154" && Ascii.eqb c3 "128")
                  || (Ascii.eqb c1 "226" && Ascii.eqb c2 "128"
                      && ((128 <=? n3)%N && (n3 <=? 138)%N
                          || Ascii.eqb c3 "168" || Ascii.eqb c3 "169" || Ascii.eqb c3 "175"))
                  || (Ascii.eqb c1 "226" && Ascii.eqb c2 "129" && Ascii.eqb c3 "159")
                  || (Ascii.eqb c1 "227" && Ascii.eqb c2 "128" && Ascii.eqb c3 "128"))%char%bool
              then Some r3 else None
          | "" => None
          end
      | "" => None
      end
  | "" => None
  end.

(** [strings.TrimLeftFunc(s, unicode.IsSpace)]; the fuel is the length of [s],
    one rune going at each step. *)
Fixpoint trimLeft (fuel : nat) (s : string) : string :=
  match fuel with
  | O => s
  | S fuel' =>
      match leadingSpace s with
      | Some rest => trimLeft fuel' rest
      | None => s
      end
  end.

(** The trailing white-space rune of [s], read on the reversed bytes: the
    same encodings, last byte first. *)
Definition trailingSpace (r : string) : option string :=
  match r with
  | String c1 r1 =>
      if asciiSpace c1 then Some r1
      else match r1 with
      | String c2 r2 =>
          if (Ascii.eqb c2 "194" && (Ascii.eqb c1 "133" || Ascii.eqb c1 "160"))%char%bool
          then Some r2
          else match r2 with
          | String c3 r3 =>
              let n1 := N_of_ascii c1 in
              if ((Ascii.eqb c3 "225" && Ascii.eqb c2 "154" && Ascii.eqb c1 "128")
                  || (Ascii.eqb c3 "226" && Ascii.eqb c2 "128"
                      && ((128 <=? n1)%N && (n1 <=? 138)%N
                          || Ascii.eqb c1 "168" || Ascii.eqb c1 "169" || Ascii.eqb c1 "175"))
                  || (Ascii.eqb c3 "226" && Ascii.eqb c2 "129" && Ascii.eqb c1 "159")
                  || (Ascii.eqb c3 "227" && Ascii.eqb c2 "128" && Ascii.eqb c1 "128"))%char%bool
              then Some r3 else None
          | "" => None
          end
      | "" => None
      end
  | "" => None
  end.

Fixpoint trimLeftRev (fuel : nat) (r : string) : string :=
  match fuel with
  | O => r
  | S fuel' =>
      match trailingSpace r with
      | Some rest => trimLeftRev fuel' rest
      | None => r
      end
  end.

(** [strings.TrimSpace(s)]: leading white space goes first, then trailing
    white space of what is left. *)
Definition TrimSpace (s : string) : string :=
  let l := trimLeft (String.length s) s in
  String.rev (trimLeftRev (String.length l) (String.rev l)).

End GoStrings.

(** ** Package [types]: jobs and the query-rule normaliser *)

Module types.

(** A [time.Time], as an instant in Unix nanoseconds. *)
Definition Time := Z.

Record Job := mkJob {
  UUID : string;
  QueueKey : string;
  AgentQueryRules : list string;
  Priority : Z;
  ScheduledAt : Time;
  ReservedAt : Time
}.

(** [sort.Strings]: the ascending rearrangement of the slice.  Equal strings
    are indistinguishable, so every sorting algorithm returns this list
    ([sort_Strings_unique] below); merge sort computes it. *)
Definition sort_Strings (l : list string) : list string :=
  merge_sort String.le l.

Definition NormalizeQueryRules (rules : list string) : string :=
  if decide (length rules = 0%nat) then ""
  else
    let sorted := sort_Strings rules in
    GoStrings.Join sorted ",".

Definition ParseQueryRules (normalized : string) : list string :=
  if decide (normalized = "") then []
  else GoStrings.Split normalized ","%char.

End types.

(** ** Go errors and the effect of a store call *)

(** The [error] values the code handles: the client's sentinel [redis.Nil],
    a transport failure, the server's WRONGTYPE reply, a failure of
    [encoding/json], and [fmt.Errorf("msg: %w", err)]. *)
Inductive error :=
| redis_Nil
| redis_Unreachable
| redis_WrongType
| json_Error
| Errorf (msg : string) (cause : error).

Inductive result (A : Type) :=
| Ok (a : A)
| Err (e : error).
Arguments Ok {A} a.
Arguments Err {A} e.

(** ** The Redis server, as far as the store uses it *)

Module redis.

(** A key holds a list of strings or a hash of string fields. *)
Inductive value :=
| VList (elems : list string)
| VHash (fields : gmap string string).

(** A key's value and its time to live: the nanoseconds left, or [None] for
    a key that does not expire. *)
Record entry := mkEntry {
  val : value;
  ttl : option Z
}.

(** The commands the client sends. *)
Inductive command :=
| CmdRPush (key data : string)
| CmdExpire (key : string) (expiration : Z)
| CmdHSet (key : string) (values : list (string * string))
| CmdLPop (key : string).

(** The client's view of the server: the key space, whether the server can
    be reached, and the commands issued so far (oldest first). *)
Record state := mkState {
  db : gmap string entry;
  up : bool;
  issued : list command
}.

(** A computation that talks to the server. *)
Definition M (A : Type) : Type := state -> result A * state.

Definition ret {A} (a : A) : M A := fun s => (Ok a, s).

Definition bind {A B} (m : M A) (k : A -> M B) : M B :=
  fun s =>
    match m s with
    | (Ok a, s') => k a s'
    | (Err e, s') => (Err e, s')
    end.

Definition fail {A} (e : error) : M A := fun s => (Err e, s).

(** [if err != nil { return fmt.Errorf("msg: %w", err) }] around a call. *)
Definition wrap {A} (msg : string) (m : M A) : M A :=
  fun s =>
    match m s with
    | (Ok a, s') => (Ok a, s')
    | (Err e, s') => (Err (Errorf msg e), s')
    end.

(** One round trip: the command is recorded; an unreachable server leaves
    the key space alone and the call fails, a reachable one runs [run]
    atomically. *)
Definition call {A} (c : command)
    (run : gmap string entry -> result A * gmap string entry) : M A :=
  fun s =>
    if up s then
      let '(r, d') := run (db s) in
      (r, mkState d' (up s) (issued s ++ [c]))
    else (Err redis_Unreachable, mkState (db s) (up s) (issued s ++ [c])).

(** RPUSH key data: append at the tail, creating the list; the time to live
    of an existing list stays. *)
Definition rpush (key data : string) (d : gmap string entry)
    : result unit * gmap string entry :=
  match d !! key with
  | None => (Ok tt, <[key := mkEntry (VList [data]) None]> d)
  | Some (mkEntry (VList l) t) =>
      (Ok tt, <[key := mkEntry (VList (l ++ [data])) t]> d)
  | Some (mkEntry (VHash _) _) => (Err redis_WrongType, d)
  end.

(** LPOP key: remove and return the head; a list that becomes empty is
    deleted, and a missing key answers nil. *)
Definition lpop (key : string) (d : gmap string entry)
    : result string * gmap string entry :=
  match d !! key with
  | None => (Err redis_Nil, d)
  | Some (mkEntry (VList []) _) => (Err redis_Nil, d)
  | Some (mkEntry (VList (x :: rest)) t) =>
      (Ok x,
       match rest with
       | [] => delete key d
       | _ :: _ => <[key := mkEntry (VList rest) t]> d
       end)
  | Some (mkEntry (VHash _) _) => (Err redis_WrongType, d)
  end.

(** The fields of HSET, written in order. *)
Definition hset_fields (values : list (string * string))
    (h : gmap string string) : gmap string string :=
  foldl (fun acc fv => <[fv.1 := fv.2]> acc) h values.

(** HSET key field value ...: set the fields, creating the hash (with no
    time to live); the time to live of an existing hash stays. *)
Definition hset (key : string) (values : list (string * string))
    (d : gmap string entry) : result unit * gmap string entry :=
  match d !! key with
  | None => (Ok tt, <[key := mkEntry (VHash (hset_fields values ∅)) None]> d)
  | Some (mkEntry (VHash h) t) =>
      (Ok tt, <[key := mkEntry (VHash (hset_fields values h)) t]> d)
  | Some (mkEntry (VList _) _) => (Err redis_WrongType, d)
  end.

(** EXPIRE key ttl: (re)set the time to live of an existing key; a time to
    live that is not positive deletes the key; a missing key is not an
    error. *)
Definition expire (key : string) (expiration : Z) (d : gmap string entry)
    : result unit * gmap string entry :=
  match d !! key with
  | None => (Ok tt, d)
  | Some e =>
      if (0 <? expiration)%Z
      then (Ok tt, <[key := mkEntry (val e) (Some expiration)]> d)
      else (Ok tt, delete key d)
  end.

Definition RPush (key data : string) : M unit :=
  call (CmdRPush key data) (rpush key data).
Definition LPop (key : string) : M string :=
  call (CmdLPop key) (lpop key).
Definition HSet (key : string) (values : list (string * string)) : M unit :=
  call (CmdHSet key values) (hset key values).
Definition Expire (key : string) (expiration : Z) : M unit :=
  call (CmdExpire key expiration) (expire key expiration).

(** The passing of [dt] nanoseconds: a key whose time to live runs out is
    gone, the others have that much less left. *)
Definition age (dt : Z) (e : entry) : option entry :=
  match ttl e with
  | None => Some e
  | Some t => if (dt <? t)%Z then Some (mkEntry (val e) (Some (t - dt)%Z)) else None
  end.

Definition elapse (dt : Z) (s : state) : state :=
  mkState (omap (age dt) (db s)) (up s) (issued s).

(** A fresh server. *)
Definition empty : state := mkState ∅ true [].

(** What a key holds, read as a list, as a hash, and its time to live. *)
Definition queue_at (key : string) (d : gmap string entry) : list string :=
  match d !! key with
  | Some (mkEntry (VList l) _) => l
  | _ => []
  end.

Definition hash_at (key : string) (d : gmap string entry) : gmap string string :=
  match d !! key with
  | Some (mkEntry (VHash h) _) => h
  | _ => ∅
  end.

Definition ttl_at (key : string) (d : gmap string entry) : option Z :=
  match d !! key with
  | Some e => ttl e
  | None => None
  end.

(** The key space after the head of a list is popped. *)
Definition popped (key : string) (d : gmap string entry) : gmap string entry :=
  match queue_at key d with
  | _ :: (_ :: _) as rest => <[key := mkEntry (VList rest) (ttl_at key d)]> d
  | _ => delete key d
  end.

Definition holds_list (key : string) (d : gmap string entry) : Prop :=
  exists l t, d !! key = Some (mkEntry (VList l) t).

Definition holds_hash (key : string) (d : gmap string entry) : Prop :=
  exists h t, d !! key = Some (mkEntry (VHash h) t).

(** A key with no queued job: absent, or an empty list. *)
Definition no_jobs (key : string) (d : gmap string entry) : Prop :=
  d !! key = None \/ exists t, d !! key = Some (mkEntry (VList []) t).

(** The storage layout of the job index: lists live under [jobs:<key>],
    hashes under [job:<id>]. *)
Definition layout (d : gmap string entry) : Prop :=
  forall key e, d !! key = Some e ->
    match val e with
    | VList _ => exists normalized, key = "jobs:" +:+ normalized
    | VHash _ => exists uuid, key = "job:" +:+ uuid
    end.

End redis.

(** Sequencing of store calls: the first error ends the operation. *)
Notation "m ;; k" := (redis.bind m (fun _ => k))
  (at level 100, right associativity).

(** [time.Hour], a [time.Duration] in nanoseconds. *)
Definition time_Hour : Z := 3600 * 1000000000.

(** ** Package [storage]: the job index on Redis *)

Module storage.
Import types redis.

Section RedisStore.

(** [encoding/json] on a [Job], and [Time.Format(time.RFC3339)]: library
    code, taken as given. *)
Variable json_Marshal : Job -> option string.
Variable json_Unmarshal : string -> option Job.
Variable Format_RFC3339 : Time -> string.

Definition AddJob (job : Job) : M unit :=
  match json_Marshal job with
  | None => fail (Errorf "marshaling job" json_Error)
  | Some data =>
      let normalizedRules := NormalizeQueryRules (AgentQueryRules job) in
      let key := "jobs:" +:+ normalizedRules in
      wrap "adding job to redis" (RPush key data) ;;
      wrap "setting expiry" (Expire key (1 * time_Hour)) ;;
      let metaKey := "job:" +:+ UUID job in
      wrap "setting job metadata"
        (HSet metaKey
           [("queue_key", QueueKey job);
            ("query_rules", normalizedRules);
            ("reserved_at", Format_RFC3339 (ReservedAt job));
            ("status", "reserved")]) ;;
      wrap "setting metadata expiry" (Expire metaKey (1 * time_Hour)) ;;
      ret tt
  end.

(** The result [Ok None] is Go's [(nil, nil)]: no job. *)
Definition ClaimJob (queryRules : list string) : M (option Job) :=
  let normalizedRules := NormalizeQueryRules queryRules in
  let key := "jobs:" +:+ normalizedRules in
  fun s =>
  match LPop key s with
  | (Err redis_Nil, s1) => (Ok None, s1)
  | (Err e, s1) => (Err (Errorf "popping job from redis" e), s1)
  | (Ok data, s1) =>
      match json_Unmarshal data with
      | None => (Err (Errorf "unmarshaling job" json_Error), s1)
      | Some job =>
          let metaKey := "job:" +:+ UUID job in
          (wrap "updating job status" (HSet metaKey [("status", "claimed")]) ;;
           ret (Some job)) s1
      end
  end.

Definition CompleteJob (uuid : string) : M unit :=
  let metaKey := "job:" +:+ uuid in
  wrap "updating job status" (HSet metaKey [("status", "complete")]) ;;
  ret tt.

(** The metadata [AddJob] writes. *)
Definition reserved_fields (job : Job) : list (string * string) :=
  [("queue_key", QueueKey job);
   ("query_rules", NormalizeQueryRules (AgentQueryRules job));
   ("reserved_at", Format_RFC3339 (ReservedAt job));
   ("status", "reserved")].

(** The key space after [AddJob job], whose encoding is [data]. *)
Definition added (job : Job) (data : string) (d : gmap string entry)
    : gmap string entry :=
  let key := "jobs:" +:+ NormalizeQueryRules (AgentQueryRules job) in
  let metaKey := "job:" +:+ UUID job in
  <[metaKey := mkEntry (VHash (hset_fields (reserved_fields job) (hash_at metaKey d)))
                       (Some (1 * time_Hour)%Z)]>
    (<[key := mkEntry (VList (queue_at key d ++ [data])) (Some (1 * time_Hour)%Z)]> d).

(** The key space after [ClaimJob] popped [job]. *)
Definition claimed (key : string) (job : Job) (d : gmap string entry)
    : gmap string entry :=
  let metaKey := "job:" +:+ UUID job in
  <[metaKey := mkEntry (VHash (<["status" := "claimed"]> (hash_at metaKey (popped key d))))
                       (ttl_at metaKey (popped key d))]> (popped key d).

(** The key space after [CompleteJob uuid]. *)
Definition completed (uuid : string) (d : gmap string entry)
    : gmap string entry :=
  let metaKey := "job:" +:+ uuid in
  <[metaKey := mkEntry (VHash (<["status" := "complete"]> (hash_at metaKey d)))
                       (ttl_at metaKey d)]> d.

End RedisStore.

End storage.

(** ** Package [server]: the handlers of the matching API *)

Module server.
Import types redis storage.

(** What a handler writes: the status code and the body. *)
Inductive body :=
| NoBody
| Text (msg : string)
| JobJSON (job : Job).

Record response := mkResponse {
  code : Z;
  content : body
}.

Definition StatusOK : Z := 200.
Definition StatusNoContent : Z := 204.
Definition StatusBadRequest : Z := 400.
Definition StatusInternalServerError : Z := 500.

Section API.

Variable json_Marshal : Job -> option string.
Variable json_Unmarshal : string -> option Job.
Variable Format_RFC3339 : Time -> string.

(** [queryParam] is [r.URL.Query().Get("query")]: the empty string when the
    parameter is missing. *)
Definition handleGetJob (queryParam : string) : state -> response * state :=
  fun s =>
  if decide (queryParam = "") then
    (mkResponse StatusBadRequest (Text "query parameter is required"), s)
  else
    let queryRules := map GoStrings.TrimSpace (GoStrings.Split queryParam ",") in
    match ClaimJob json_Unmarshal queryRules s with
    | (Err _, s') =>
        (mkResponse StatusInternalServerError (Text "internal server error"), s')
    | (Ok None, s') => (mkResponse StatusNoContent NoBody, s')
    | (Ok (Some job), s') => (mkResponse StatusOK (JobJSON job), s')
    end.

(** [uuid] is [r.PathValue("uuid")]. *)
Definition handleCompleteJob (uuid : string) : state -> response * state :=
  fun s =>
  if decide (uuid = "") then
    (mkResponse StatusBadRequest (Text "job uuid is required"), s)
  else
    match CompleteJob uuid s with
    | (Err _, s') =>
        (mkResponse StatusInternalServerError (Text "internal server error"), s')
    | (Ok _, s') => (mkResponse StatusOK NoBody, s')
    end.

End API.

End server.

(** ** Package [worker]: the tags handed to the agent *)

Module worker.

(** The body of the loop of [normalizeTags] on the pair
    [(result, lastQueue)]. *)
Definition normalizeTags_step (acc : list string * string) (tag : string)
    : list string * string :=
  let '(result, lastQueue) := acc in
  match GoStrings.SplitN2 tag "=" with
  | [key; value] =>
      if decide (key = "queue") then (result, value)
      else (result ++ [tag], lastQueue)
  | _ => (result, lastQueue)
  end.

(** The slice [result] as [strings.Join] receives it. *)
Definition normalizeTags_result (tags : list string) : list string :=
  let '(result, lastQueue) := foldl normalizeTags_step ([], "") tags in
  if decide (lastQueue ≠ "") then result ++ ["queue=" +:+ lastQueue]
  else result.

Definition normalizeTags (tags : list string) : string :=
  GoStrings.Join (normalizeTags_result tags) ",".

(** The tag merge in the words of the specification.  An entry [key=value]
    is cut at its first [=]. *)
Definition tag_entry (tag : string) : option (string * string) :=
  match GoStrings.SplitN2 tag "=" with
  | [key; value] => Some (key, value)
  | _ => None
  end.

(** The value of an entry whose key is [queue]. *)
Definition queue_value (tag : string) : option string :=
  match tag_entry tag with
  | Some (key, value) => if decide (key = "queue") then Some value else None
  | None => None
  end.

(** An entry with a key other than [queue]. *)
Definition other_key (tag : string) : bool :=
  match tag_entry tag with
  | Some (key, _) => bool_decide (key <> "queue")
  | None => false
  end.

Definition has_queue_key (tag : string) : bool :=
  match queue_value tag with
  | Some _ => true
  | None => false
  end.

(** "If multiple entries share key [queue], the last one wins and is emitted
    once; all other keys pass through verbatim, duplicates allowed." *)
Definition merged_tags_spec (tags : list string) : list string :=
  List.filter other_key tags
  ++ match last (omap queue_value tags) with
     | Some value => ["queue=" +:+ value]
     | None => []
     end.

(** The same, with what the code does on an empty last value: no [queue]
    entry is emitted. *)
Definition merged_tags (tags : list string) : list string :=
  List.filter other_key tags
  ++ match last (omap queue_value tags) with
     | Some value => if decide (value = "") then [] else ["queue=" +:+ value]
     | None => []
     end.

(** [runAgent] merges the query rules and the extra tags in this order. *)
Definition runAgent_tags (agentQueryRules tags : list string) : string :=
  let allTags := agentQueryRules ++ tags in
  normalizeTags allTags.

End worker.

(** ** Concurrent claims

    [ClaimJob] sends two commands, LPOP and then HSET; the server runs each
    command atomically and callers interleave between them.  A caller is
    about to send LPOP, holds the job it popped and is about to send HSET,
    or has returned. *)

Module concurrent.
Import types redis storage.

Inductive caller :=
| Calling (queryRules : list string)
| Popped (job : Job)
| Returned (r : result (option Job)).

Section Claims.

Variable json_Unmarshal : string -> option Job.

(** The next command of one caller of [ClaimJob]. *)
Definition caller_step (c : caller) (s : state) : caller * state :=
  match c with
  | Calling queryRules =>
      let normalizedRules := NormalizeQueryRules queryRules in
      let key := "jobs:" +:+ normalizedRules in
      match LPop key s with
      | (Err redis_Nil, s1) => (Returned (Ok None), s1)
      | (Err e, s1) => (Returned (Err (Errorf "popping job from redis" e)), s1)
      | (Ok data, s1) =>
          match json_Unmarshal data with
          | None => (Returned (Err (Errorf "unmarshaling job" json_Error)), s1)
          | Some job => (Popped job, s1)
          end
      end
  | Popped job =>
      let metaKey := "job:" +:+ UUID job in
      match wrap "updating job status" (HSet metaKey [("status", "claimed")]) s with
      | (Err e, s2) => (Returned (Err e), s2)
      | (Ok _, s2) => (Returned (Ok (Some job)), s2)
      end
  | Returned r => (Returned r, s)
  end.

(** The scheduler lets caller [i] send its next command. *)
Definition sched_step (cfg : list caller * state) (i : nat)
    : list caller * state :=
  match cfg.1 !! i with
  | None => cfg
  | Some c =>
      let '(c', s') := caller_step c cfg.2 in
      (<[i := c']> cfg.1, s')
  end.

Definition run_schedule (sched : list nat) (cfg : list caller * state)
    : list caller * state :=
  foldl sched_step cfg sched.

(** Callers that came back with a job, and callers that came back with
    "no job". *)
Definition got_job (c : caller) : bool :=
  match c with
  | Returned (Ok (Some _)) => true
  | _ => false
  end.

Definition got_no_job (c : caller) : bool :=
  match c with
  | Returned (Ok None) => true
  | _ => false
  end.

End Claims.

(** A caller that has the job in hand: popped, or returned with it. *)
Definition holds_job (c : caller) : bool :=
  match c with
  | Popped _ => true
  | Returned (Ok (Some _)) => true
  | _ => false
  end.

(** How far a caller is: 0 before LPOP, 1 between LPOP and HSET, 2 once it
    has returned. *)
Definition progress (c : caller) : nat :=
  match c with
  | Calling _ => 0
  | Popped _ => 1
  | Returned _ => 2
  end.

Definition progress_at (j : nat) (cs : list caller) : nat :=
  match cs !! j with
  | Some c => progress c
  | None => 0
  end.

(** A caller that has not sent its LPOP yet, and claims on the key. *)
Definition waiting (key_rules : list string) (c : caller) : Prop :=
  exists queryRules,
    c = Calling queryRules
    /\ NormalizeQueryRules queryRules = NormalizeQueryRules key_rules.

(** The caller that popped the job, before or after its HSET. *)
Definition winner (job : Job) (c : caller) : Prop :=
  c = Popped job \/ c = Returned (Ok (Some job)).

(** Any other caller: still waiting, or back with "no job". *)
Definition loser (key_rules : list string) (c : caller) : Prop :=
  waiting key_rules c \/ c = Returned (Ok None).

(** The invariant of the interleavings: either the job is still queued and
    every caller waits, or the queue is empty and exactly one caller has the
    job. *)
Definition claim_inv (key_rules : list string) (data : string) (job : Job)
    (cfg : list caller * state) : Prop :=
  let key := "jobs:" +:+ NormalizeQueryRules key_rules in
  up cfg.2 = true /\ layout (db cfg.2)
  /\ ((queue_at key (db cfg.2) = [data] /\ Forall (waiting key_rules) cfg.1)
      \/ (queue_at key (db cfg.2) = []
          /\ exists w,
               (exists c, cfg.1 !! w = Some c /\ winner job c)
               /\ forall i c, i <> w -> cfg.1 !! i = Some c -> loser key_rules c)).

End concurrent.

(** ** Sequences of store operations, and a job's status *)

Module lifecycle.
Import types redis storage.

Inductive op :=
| OpAddJob (job : Job)
| OpClaimJob (queryRules : list string)
| OpCompleteJob (uuid : string).

(** The field [status] of the metadata record of [uuid]. *)
Definition status_of (uuid : string) (d : gmap string entry) : option string :=
  match d !! ("job:" +:+ uuid) with
  | Some (mkEntry (VHash h) _) => h !! "status"
  | _ => None
  end.

(** The order reserved < claimed < complete. *)
Definition rank (status : string) : option nat :=
  if decide (status = "reserved") then Some 0%nat
  else if decide (status = "claimed") then Some 1%nat
  else if decide (status = "complete") then Some 2%nat
  else None.

(** "Never regresses", between an earlier and a later key space: a status of
    the closed set is still there later, and is not lower. *)
Definition never_regresses (uuid : string) (d d' : gmap string entry) : Prop :=
  forall status r,
    status_of uuid d = Some status -> rank status = Some r ->
    exists status' r',
      status_of uuid d' = Some status' /\ rank status' = Some r' /\ r <= r'.

Section Ops.

Variable json_Marshal : Job -> option string.
Variable json_Unmarshal : string -> option Job.
Variable Format_RFC3339 : Time -> string.

Definition run_op (o : op) (s : state) : state :=
  match o with
  | OpAddJob job => (AddJob json_Marshal Format_RFC3339 job s).2
  | OpClaimJob queryRules => (ClaimJob json_Unmarshal queryRules s).2
  | OpCompleteJob uuid => (CompleteJob uuid s).2
  end.

Definition run_ops (ops : list op) (s : state) : state :=
  foldl (fun s o => run_op o s) s ops.

(** The intended life of a job: it is inserted once, under an id that has
    no metadata yet and that its encoding keeps; it is claimed; and only
    then is its completion reported. *)
Definition allowed (o : op) (s : state) : Prop :=
  match o with
  | OpAddJob job =>
      status_of (UUID job) (db s) = None
      /\ forall data job',
           json_Marshal job = Some data -> json_Unmarshal data = Some job' ->
           UUID job' = UUID job
  | OpClaimJob _ => True
  | OpCompleteJob uuid => status_of uuid (db s) <> Some "reserved"
  end.

Fixpoint allowed_ops (ops : list op) (s : state) : Prop :=
  match ops with
  | [] => True
  | o :: ops' => allowed o s /\ allowed_ops ops' (run_op o s)
  end.

(** The payload at position [i] of the queue [key] decodes to a job with id
    [uuid]. *)
Definition queued (d : gmap string entry) (key : string) (i : nat)
    (uuid : string) : Prop :=
  exists data job,
    queue_at key d !! i = Some data
    /\ json_Unmarshal data = Some job /\ UUID job = uuid.

(** The state of an index that has only seen the intended life of its jobs:
    the layout holds, every status is one of the three, a queued job is
    reserved, and no job is queued twice. *)
Definition well_formed (d : gmap string entry) : Prop :=
  layout d
  /\ (forall uuid status, status_of uuid d = Some status -> is_Some (rank status))
  /\ (forall key i uuid, queued d key i uuid -> status_of uuid d = Some "reserved")
  /\ (forall key i key' i' uuid,
        queued d key i uuid -> queued d key' i' uuid -> key = key' /\ i = i').

(** The history of an index: operations, and time that passes between
    them. *)
Inductive step :=
| Do (o : op)
| Wait (dt : Z).

Definition run_step (st : step) (s : state) : state :=
  match st with
  | Do o => run_op o s
  | Wait dt => elapse dt s
  end.

Definition run_steps (steps : list step) (s : state) : state :=
  foldl (fun s st => run_step st s) s steps.

(** No record expires within [dt]: every time to live is longer. *)
Definition no_expiry (dt : Z) (d : gmap string entry) : Prop :=
  forall key e t, d !! key = Some e -> ttl e = Some t -> (dt < t)%Z.

(** The intended life of the jobs, in time: the operations are allowed, and
    no record expires while time passes. *)
Definition allowed_step (st : step) (s : state) : Prop :=
  match st with
  | Do o => allowed o s
  | Wait dt => no_expiry dt (db s)
  end.

Fixpoint allowed_steps (steps : list step) (s : state) : Prop :=
  match steps with
  | [] => True
  | st :: steps' => allowed_step st s /\ allowed_steps steps' (run_step st s)
  end.

End Ops.

End lifecycle.

(** ** A codec for the worked examples

    The examples below need some encoding of a job to run the store on; this
    one writes the id, the queue key and the rules on one line.  It stands
    for [encoding/json] only in that a job written by it reads back. *)

Module example.
Import types.

Definition Marshal (job : Job) : option string :=
  Some (UUID job +:+ "|" +:+ QueueKey job +:+ "|"
        +:+ GoStrings.Join (AgentQueryRules job) ",").

Definition Unmarshal (data : string) : option Job :=
  match GoStrings.Split data "|" with
  | [uuid; queueKey; rules] =>
      Some (mkJob uuid queueKey (ParseQueryRules rules) 0%Z 0%Z 0%Z)
  | _ => None
  end.

Definition Format (t : Time) : string := "1970-01-01T00:00:00Z".

Definition J1 : Job :=
  mkJob "j1" "default" ["queue=default"; "arch=amd64"] 0%Z 0%Z 0%Z.
Definition J2 : Job :=
  mkJob "j2" "default" ["arch=amd64"; "queue=default"] 0%Z 0%Z 0%Z.

End example.

(** ** Package [storage], continued: queue lengths *)

Module stats.
Import types redis storage.

(** A round trip that only reads: an unreachable server fails the call, a
    reachable one answers from the key space and leaves it as it is.
    ([issued] keeps the commands that can change the key space.) *)
Definition query {A} (run : gmap string entry -> result A) : M A :=
  fun s =>
    if up s then (run (db s), s) else (Err redis_Unreachable, s).

(** LLEN key: the length of the list; a missing key counts as empty. *)
Definition llen (key : string) (d : gmap string entry) : result Z :=
  match d !! key with
  | None => Ok 0%Z
  | Some (mkEntry (VList l) _) => Ok (Z.of_nat (length l))
  | Some (mkEntry (VHash _) _) => Err redis_WrongType
  end.

(** KEYS prefix*: the keys that start with [prefix], in the order the
    server happens to list them. *)
Definition keys (prefix : string) (d : gmap string entry) : result (list string) :=
  Ok (List.filter (String.prefix prefix) (map_to_list d).*1).

Definition LLen (key : string) : M Z := query (llen key).
Definition Keys (prefix : string) : M (list string) := query (keys prefix).

Definition GetQueueStats (queryRules : string) : M Z :=
  let key := "jobs:" +:+ queryRules in
  LLen key.

(** [s[n:]]: the string from byte [n] on; [None] is Go's panic on a string
    shorter than [n]. *)
Fixpoint slice_from (n : nat) (s : string) : option string :=
  match n, s with
  | O, _ => Some s
  | S n', String _ s' => slice_from n' s'
  | S _, "" => None
  end.

(** One turn of the loop of [GetAllStats]; the accumulator [None] is a
    panic. *)
Definition GetAllStats_step (acc : option (gmap string Z) * state) (key : string)
    : option (gmap string Z) * state :=
  match acc with
  | (None, s) => (None, s)
  | (Some stats, s) =>
      match LLen key s with
      | (Err _, s') => (Some stats, s')
      | (Ok len, s') =>
          match slice_from 5 key with
          | None => (None, s')
          | Some queryRules => (Some (<[queryRules := len]> stats), s')
          end
      end
  end.

(** The result is [None] when the call panics. *)
Definition GetAllStats (s : state)
    : option (result (gmap string Z)) * state :=
  match Keys "jobs:" s with
  | (Err e, s') => (Some (Err (Errorf "getting keys" e)), s')
  | (Ok keys, s') =>
      match foldl GetAllStats_step (Some ∅, s') keys with
      | (Some stats, s'') => (Some (Ok stats), s'')
      | (None, s'') => (None, s'')
      end
  end.

(** An [int64] after an addition: the sum modulo 2^64, signed. *)
Definition int64 (z : Z) : Z :=
  ((z + 2 ^ 63) mod 2 ^ 64 - 2 ^ 63)%Z.

(** [total += count] over the map. *)
Definition total_of (stats : gmap string Z) : Z :=
  map_fold (fun _ count total => int64 (total + count)) 0%Z stats.

(** What [handleStats] writes: the status code, and the error text or the
    object [{"queues": ..., "total": ...}]. *)
Inductive stats_body :=
| StatsError (msg : string)
| StatsJSON (queues : gmap string Z) (total : Z).

(** The result is [None] when the handler panics. *)
Definition handleStats (s : state) : option (Z * stats_body) * state :=
  match GetAllStats s with
  | (None, s') => (None, s')
  | (Some (Err _), s') =>
      (Some (server.StatusInternalServerError, StatsError "internal server error"), s')
  | (Some (Ok stats), s') =>
      let total := total_of stats in
      (Some (server.StatusOK, StatsJSON stats total), s')
  end.

(** The length of the queue of a capability key, when the key holds a
    list. *)
Definition queue_len (normalized : string) (d : gmap string entry) : option Z :=
  match d !! ("jobs:" +:+ normalized) with
  | Some (mkEntry (VList l) _) => Some (Z.of_nat (length l))
  | _ => None
  end.

(** The sum of the counts, in the integers. *)
Definition sum_of (stats : gmap string Z) : Z :=
  map_fold (fun _ count total => (total + count)%Z) 0%Z stats.

End stats.

(** ** The Stacks API, as the monitor uses it *)

Module stacksapi.

Record ScheduledJob := mkScheduledJob {
  ID : string;
  AgentQueryRules : list string;
  Priority : Z;
  ScheduledAt : types.Time
}.

Record ListScheduledJobsRequest := mkListRequest {
  List_StackKey : string;
  ClusterQueueKey : string;
  PageSize : Z;
  StartCursor : string
}.

Record ListScheduledJobsResponse := mkListResponse {
  Jobs : list ScheduledJob;
  Paused : bool;
  HasNextPage : bool;
  EndCursor : string
}.

Record BatchReserveJobsRequest := mkReserveRequest {
  Reserve_StackKey : string;
  JobUUIDs : list string;
  ReservationExpirySeconds : Z
}.

End stacksapi.

(** ** Package [server]: the reservation monitor *)

Module monitor.
Import types redis storage.

Section Monitor.

Variable json_Marshal : Job -> option string.
Variable Format_RFC3339 : Time -> string.

(** The world outside the process: the scheduling authority and the clock.
    Its state is [W]; a call answers and moves it on. *)
Variable W : Type.
Variable ListScheduledJobs :
  stacksapi.ListScheduledJobsRequest -> W ->
  result stacksapi.ListScheduledJobsResponse * W.
Variable BatchReserveJobs :
  stacksapi.BatchReserveJobsRequest -> W -> result (list string) * W.
Variable time_Now : W -> Time * W.

(** The job [reserveJobs] builds for a granted entry. *)
Definition ourJob (queueKey : string) (job : stacksapi.ScheduledJob)
    (now : Time) : Job :=
  mkJob (stacksapi.ID job) queueKey (stacksapi.AgentQueryRules job)
    (stacksapi.Priority job) (stacksapi.ScheduledAt job) now.

(** One turn of the second loop of [reserveJobs]: a job that was not
    granted is skipped; a failed insert is logged and the loop goes on. *)
Definition reserveJobs_step (queueKey : string) (reservedMap : gset string)
    (ws : W * state) (job : stacksapi.ScheduledJob) : W * state :=
  if decide (stacksapi.ID job ∈ reservedMap) then
    let '(now, w') := time_Now ws.1 in
    (w', (AddJob json_Marshal Format_RFC3339 (ourJob queueKey job now) ws.2).2)
  else ws.

Definition reserveJobs (stackKey queueKey : string)
    (jobs : list stacksapi.ScheduledJob) (ws : W * state)
    : result unit * (W * state) :=
  if decide (length jobs = 0%nat) then (Ok tt, ws)
  else
    let jobUUIDs := map stacksapi.ID jobs in
    match BatchReserveJobs (stacksapi.mkReserveRequest stackKey jobUUIDs 300) ws.1 with
    | (Err e, w') => (Err (Errorf "batch reserve jobs" e), (w', ws.2))
    | (Ok reserved, w') =>
        let reservedMap : gset string := list_to_set reserved in
        (Ok tt, foldl (reserveJobs_step queueKey reservedMap) (w', ws.2) jobs)
    end.

(** [pollQueue]: the loop over the pages, [fuel] pages at most; the result
    [None] is a loop that is still paging when the fuel runs out.  (The
    counter [jobsProcessed] only feeds a log line.) *)
Fixpoint pollQueue_pages (fuel : nat) (stackKey queueKey cursor : string)
    (ws : W * state) : option (result unit) * (W * state) :=
  match fuel with
  | O => (None, ws)
  | S fuel' =>
      match ListScheduledJobs
              (stacksapi.mkListRequest stackKey queueKey 50 cursor) ws.1 with
      | (Err e, w') => (Some (Err (Errorf "listing scheduled jobs" e)), (w', ws.2))
      | (Ok resp, w') =>
          if stacksapi.Paused resp then (Some (Ok tt), (w', ws.2))
          else
            let ws' :=
              if decide (0 < length (stacksapi.Jobs resp))%nat
              then (reserveJobs stackKey queueKey (stacksapi.Jobs resp) (w', ws.2)).2
              else (w', ws.2) in
            if negb (stacksapi.HasNextPage resp) then (Some (Ok tt), ws')
            else pollQueue_pages fuel' stackKey queueKey (stacksapi.EndCursor resp) ws'
      end
  end.

Definition pollQueue (fuel : nat) (stackKey queueKey : string) (ws : W * state)
    : option (result unit) * (W * state) :=
  pollQueue_pages fuel stackKey queueKey "" ws.

(** [pollQueues]: every queue in turn; an error of one queue is logged. *)
Fixpoint pollQueues (fuel : nat) (stackKey : string) (queues : list string)
    (ws : W * state) : option (result unit) * (W * state) :=
  match queues with
  | [] => (Some (Ok tt), ws)
  | queueKey :: queues' =>
      match pollQueue fuel stackKey queueKey ws with
      | (None, ws') => (None, ws')
      | (Some _, ws') => pollQueues fuel stackKey queues' ws'
      end
  end.

End Monitor.

End monitor.

(** ** Package [worker], continued: the poll loop *)

Module runner.
Import types.

Record Runner := mkRunner {
  apiServer : string;
  agentQueryRules : list string;
  tags : list string;
  queue : string;
  buildkiteAgentPath : string;
  buildkiteToken : string;
  workerID : string
}.

(** What the worker does to the outside: HTTP requests, each with its
    [X-Worker-ID] header, and the start of the agent. *)
Inductive event :=
| EvGet (url workerID : string)
| EvPost (url workerID : string)
| EvExec (path : string) (args : list string).

Record http_response := mkHttpResponse {
  StatusCode : Z;
  Body : string
}.

(** The errors of the worker, by the place that returns them. *)
Inductive failure :=
| ErrNoJobAvailable
| CreatingRequest
| GettingJob
| UnexpectedStatus (code : Z) (body : string)
| DecodingJob
| RunningAgent
| CompletingJob
| ContextErr.

(** How a call ends: with its result, with an error, or in a panic. *)
Inductive outcome (A : Type) :=
| Returns (a : A)
| Fails (e : failure)
| Panics.
Arguments Returns {A} a.
Arguments Fails {A} e.
Arguments Panics {A}.

(** The rules [getJob] sends, and its URL. *)
Definition getJob_queryRules (r : Runner) : list string :=
  if decide (queue r <> "") then ("queue=" +:+ queue r) :: agentQueryRules r
  else agentQueryRules r.

Definition getJob_queryParam (r : Runner) : string :=
  NormalizeQueryRules (getJob_queryRules r).

Definition getJob_url (r : Runner) : string :=
  apiServer r +:+ "/jobs?query=" +:+ getJob_queryParam r.

Definition completeJob_url (r : Runner) (jobUUID : string) : string :=
  apiServer r +:+ "/jobs/" +:+ jobUUID +:+ "/complete".

(** [s[:n]]: the first [n] bytes; [None] is Go's panic on a shorter
    string. *)
Fixpoint slice_to (n : nat) (s : string) : option string :=
  match n, s with
  | O, _ => Some ""
  | S n', String c s' =>
      match slice_to n' s' with
      | Some p => Some (String c p)
      | None => None
      end
  | S _, "" => None
  end.

(** The arguments [runAgent] starts the agent with. *)
Definition runAgent_args (r : Runner) (jobUUID hostname : string) : list string :=
  let allTags := agentQueryRules r ++ tags r in
  let tagsValue := worker.normalizeTags allTags in
  let args :=
    ["start";
     "--acquire-job"; jobUUID;
     "--token"; buildkiteToken r;
     "--tags"; tagsValue;
     "--name"; "worker-" +:+ hostname] in
  if decide (queue r <> "") then args ++ ["--queue"; queue r] else args.

(** [prefixedWriter.Write]: the lines it logs and the count it returns. *)
Definition prefixedWriter_Write (p : string) : list string * nat :=
  let lines := GoStrings.Split p "010" in
  (List.filter (fun line => negb (String.eqb line "")) lines, String.length p).

Section Loop.

(** The outside: [http.NewRequestWithContext] accepts a URL or not; the
    server's answer to a request and the end of an agent run may depend on
    what happened before; [os.Hostname] and the JSON decoder. *)
Variable http_NewRequest : string -> bool.
Variable http_Do : event -> list event -> option http_response.
Variable exec_Run : event -> list event -> bool.
Variable os_Hostname : option string.
Variable json_Decode : string -> option Job.

(** A step of the worker: from the events so far to an outcome and the
    events after it. *)
Definition getJob (r : Runner) (past : list event)
    : outcome (option Job) * list event :=
  let url := getJob_url r in
  if negb (http_NewRequest url) then (Fails CreatingRequest, past)
  else
    let req := EvGet url (workerID r) in
    match http_Do req past with
    | None => (Fails GettingJob, past ++ [req])
    | Some resp =>
        if decide (StatusCode resp = server.StatusNoContent)
        then (Returns None, past ++ [req])
        else if decide (StatusCode resp <> server.StatusOK)
        then (Fails (UnexpectedStatus (StatusCode resp) (Body resp)), past ++ [req])
        else match json_Decode (Body resp) with
             | None => (Fails DecodingJob, past ++ [req])
             | Some job => (Returns (Some job), past ++ [req])
             end
    end.

Definition runAgent (r : Runner) (jobUUID : string) (past : list event)
    : outcome unit * list event :=
  let hostname := default "unknown" os_Hostname in
  let args := runAgent_args r jobUUID hostname in
  let cmd := EvExec (buildkiteAgentPath r) args in
  match slice_to 8 jobUUID with
  | None => (Panics, past)
  | Some _ =>
      if exec_Run cmd past then (Returns tt, past ++ [cmd])
      else (Fails RunningAgent, past ++ [cmd])
  end.

Definition completeJob (r : Runner) (jobUUID : string) (past : list event)
    : outcome unit * list event :=
  let url := completeJob_url r jobUUID in
  if negb (http_NewRequest url) then (Fails CreatingRequest, past)
  else
    let req := EvPost url (workerID r) in
    match http_Do req past with
    | None => (Fails CompletingJob, past ++ [req])
    | Some resp =>
        if decide (StatusCode resp <> server.StatusOK)
        then (Fails (UnexpectedStatus (StatusCode resp) (Body resp)), past ++ [req])
        else (Returns tt, past ++ [req])
    end.

Definition processNextJob (r : Runner) (past : list event)
    : outcome unit * list event :=
  match getJob r past with
  | (Fails e, past1) => (Fails e, past1)
  | (Panics, past1) => (Panics, past1)
  | (Returns None, past1) => (Fails ErrNoJobAvailable, past1)
  | (Returns (Some job), past1) =>
      match runAgent r (UUID job) past1 with
      | (Fails e, past2) => (Fails e, past2)
      | (Panics, past2) => (Panics, past2)
      | (Returns _, past2) =>
          match completeJob r (UUID job) past2 with
          | (Panics, past3) => (Panics, past3)
          | (_, past3) => (Returns tt, past3)
          end
      end
  end.

(** [Start]: the loop takes one turn for each tick that arrives before the
    context is done, and then returns the context's error.  The errors of a
    turn are logged and the loop goes on; a panic ends it. *)
Fixpoint Start (r : Runner) (ticks : nat) (past : list event)
    : outcome unit * list event :=
  match ticks with
  | O => (Fails ContextErr, past)
  | S ticks' =>
      match processNextJob r past with
      | (Panics, past') => (Panics, past')
      | (_, past') => Start r ticks' past'
      end
  end.

End Loop.

End runner.

(** ** Package [net/url] of the Go library: the query on its way

    The worker writes its key into the URL as it is ([getJob] escapes
    nothing); [http.NewRequestWithContext] parses the URL, the request line
    carries the path and the raw query, and the handler reads
    [r.URL.Query().Get("query")], which decodes the raw query.  These are the
    functions on that way. *)

Module url.
Import GoStrings.

(** [ishex] and [unhex]. *)
Definition ishex (c : ascii) : bool :=
  let n := N_of_ascii c in
  ((48 <=? n) && (n <=? 57) || (97 <=? n) && (n <=? 102)
   || (65 <=? n) && (n <=? 70))%N.

Definition unhex (c : ascii) : N :=
  let n := N_of_ascii c in
  if ((48 <=? n) && (n <=? 57))%N then (n - 48)%N
  else if ((97 <=? n) && (n <=? 102))%N then (n - 97 + 10)%N
  else if ((65 <=? n) && (n <=? 70))%N then (n - 65 + 10)%N
  else 0%N.

(** [url.QueryUnescape(s)]: [%XX] is the byte with the hexadecimal code [XX],
    [+] is a space, every other byte is itself; [None] is the error for a
    [%] that is not followed by two hexadecimal digits. *)
Fixpoint QueryUnescape (s : string) : option string :=
  match s with
  | "" => Some ""
  | String "%" (String h (String l rest)) =>
      if ishex h && ishex l
      then option_map (String (ascii_of_N (unhex h * 16 + unhex l)))
             (QueryUnescape rest)
      else None
  | String "%" _ => None
  | String "+" rest => option_map (String " ") (QueryUnescape rest)
  | String c rest => option_map (String c) (QueryUnescape rest)
  end.

(** One turn of the loop of [url.ParseQuery] on a piece between two [&]: a
    piece that holds a semicolon, is empty or does not decode is left out;
    the others are cut at their first [=] into a key and a value. *)
Definition ParseQuery_pair (piece : string) : option (string * string) :=
  if ContainsByte piece ";" then None
  else if decide (piece = "") then None
  else
    let '(key, value) :=
      match SplitN2 piece "=" with
      | [key; value] => (key, value)
      | _ => (piece, "")
      end in
    match QueryUnescape key, QueryUnescape value with
    | Some key', Some value' => Some (key', value')
    | _, _ => None
    end.

(** [url.ParseQuery(query)], as the pairs in their order; [URL.Query]
    drops its error. *)
Definition ParseQuery (query : string) : list (string * string) :=
  omap ParseQuery_pair (Split query "&").

(** [Values.Get(key)]: the first value of [key], or the empty string. *)
Definition Get (key : string) (v : list (string * string)) : string :=
  match List.filter (fun kv => String.eqb kv.1 key) v with
  | kv :: _ => kv.2
  | [] => ""
  end.

(** The raw query of a URL as [url.Parse] reads it: the part before the first
    [#] is cut at its first [?]. *)
Definition RawQuery (rawURL : string) : string :=
  match SplitN2 rawURL "#" with
  | beforeFragment :: _ =>
      match SplitN2 beforeFragment "?" with
      | [_; query] => query
      | _ => ""
      end
  | [] => ""
  end.

(** [r.URL.Query().Get(key)] in the handler of a request that a client made
    from [rawURL]. *)
Definition Query_Get (rawURL key : string) : string :=
  Get key (ParseQuery (RawQuery rawURL)).

(** The bytes that pass unchanged: printable ASCII other than the space and
    the bytes [#], [%], [&], [+] and [;], which [url.Parse] and
    [url.ParseQuery] read. *)
Definition plain (c : ascii) : bool :=
  let n := N_of_ascii c in
  ((33 <=? n) && (n <=? 126))%N
  && negb (Ascii.eqb c "#") && negb (Ascii.eqb c "%") && negb (Ascii.eqb c "&")
  && negb (Ascii.eqb c "+") && negb (Ascii.eqb c ";").

Fixpoint all_plain (s : string) : bool :=
  match s with
  | "" => true
  | String c s' => plain c && all_plain s'
  end.

End url.

(** ** A small run *)

(** An authority that lists three scheduled jobs on one page and grants two
    of them, with the world's state the clock; and a worker whose server
    answers every request with status 200 and one job, and whose agent ends
    well. *)
Module scenario.
Import types.

Definition listed : list stacksapi.ScheduledJob :=
  [stacksapi.mkScheduledJob "a" ["queue=default"] 0%Z 0%Z;
   stacksapi.mkScheduledJob "b" ["queue=default"] 0%Z 0%Z;
   stacksapi.mkScheduledJob "c" ["queue=default"; "arch=amd64"] 0%Z 0%Z].

Definition ListScheduledJobs (req : stacksapi.ListScheduledJobsRequest) (w : Z)
    : result stacksapi.ListScheduledJobsResponse * Z :=
  (Ok (stacksapi.mkListResponse listed false false ""), w).

Definition BatchReserveJobs (req : stacksapi.BatchReserveJobsRequest) (w : Z)
    : result (list string) * Z :=
  (Ok ["a"; "c"], w).

Definition time_Now (w : Z) : Time * Z := (w, (w + 1)%Z).

Definition theRunner : runner.Runner :=
  runner.mkRunner "http://localhost:18888" ["arch=amd64"] [] "default"
    "/usr/local/bin/buildkite-agent" "token" "w1".

Definition http_NewRequest (url : string) : bool := true.

Definition http_Do (req : runner.event) (past : list runner.event)
    : option runner.http_response :=
  Some (runner.mkHttpResponse 200
          "01234567-89ab|default|arch=amd64,queue=default").

Definition exec_Run (cmd : runner.event) (past : list runner.event) : bool := true.

End scenario.

(** * Properties *)

(** ** The definitions on small inputs *)

Example Split_example : GoStrings.Split "a,,b" "," = ["a"; ""; "b"].
Proof. reflexivity. Qed.

Example SplitN2_example : GoStrings.SplitN2 "a=b=c" "=" = ["a"; "b=c"].
Proof. reflexivity. Qed.

Example TrimSpace_example :
  map GoStrings.TrimSpace (GoStrings.Split " queue=default , arch=amd64" ",")
  = ["queue=default"; "arch=amd64"].
Proof. reflexivity. Qed.

Example NormalizeQueryRules_example :
  types.NormalizeQueryRules ["queue=default"; "arch=amd64"]
  = "arch=amd64,queue=default".
Proof. reflexivity. Qed.

(** The example in the comment of [normalizeTags]. *)
Example normalizeTags_example :
  worker.normalizeTags ["queue=default"; "arch=amd64"; "queue=production"]
  = "arch=amd64,queue=production".
Proof. reflexivity. Qed.

(** The example codec reads back what it writes. *)
Example example_codec_J1 :
  example.Marshal example.J1 = Some "j1|default|queue=default,arch=amd64"
  /\ example.Unmarshal "j1|default|queue=default,arch=amd64" = Some example.J1.
Proof. split; reflexivity. Qed.

(** ** Strings *)

Section StringFacts.
Import GoStrings.

Lemma app_empty_l (s : string) : "" +:+ s = s.
Proof. reflexivity. Qed.

Lemma app_String (c : ascii) (s t : string) :
  String c s +:+ t = String c (s +:+ t).
Proof. reflexivity. Qed.

Lemma app_eq_empty (s t : string) : s +:+ t = "" -> s = "" /\ t = "".
Proof. destruct s; [rewrite app_empty_l; auto | rewrite app_String; discriminate]. Qed.

Lemma Split_not_nil (s : string) (sep : ascii) : Split s sep <> [].
Proof.
  destruct s as [|c s]; simpl; [discriminate|].
  destruct (Ascii.eqb c sep); [discriminate|].
  destruct (Split s sep); discriminate.
Qed.

(** A string without the separator is one piece. *)
Lemma Split_no_sep (s : string) (sep : ascii) :
  ContainsByte s sep = false -> Split s sep = [s].
Proof.
  induction s as [|c s IH]; simpl; [reflexivity|].
  intros [Hc Hs]%orb_false_elim. rewrite Hc, (IH Hs). reflexivity.
Qed.

(** The first piece ends at the first separator. *)
Lemma Split_app_sep (s t : string) (sep : ascii) :
  ContainsByte s sep = false ->
  Split (s +:+ String sep t) sep = s :: Split t sep.
Proof.
  induction s as [|c s IH]; intros H.
  - rewrite app_empty_l. simpl. rewrite Ascii.eqb_refl. reflexivity.
  - simpl in H. apply orb_false_elim in H as [Hc Hs].
    rewrite app_String. simpl. rewrite Hc, (IH Hs). reflexivity.
Qed.

(** [Split] undoes [Join] on pieces that do not hold the separator. *)
Lemma Split_Join (l : list string) (sep : ascii) :
  l <> [] ->
  Forall (fun s => ContainsByte s sep = false) l ->
  Split (Join l (String sep "")) sep = l.
Proof.
  induction l as [|x [|y rest] IH]; intros Hne Hall; [done| |].
  - simpl. apply Split_no_sep. by inversion Hall.
  - inversion Hall as [|? ? Hx Hrest]; subst.
    change (Join (x :: y :: rest) (String sep ""))
      with (x +:+ String sep "" +:+ Join (y :: rest) (String sep "")).
    rewrite app_String, app_empty_l, Split_app_sep by done.
    f_equal. by apply IH.
Qed.

(** Only the list [[""]] and the empty list join to the empty string. *)
Lemma Join_eq_empty (l : list string) (sep : ascii) :
  Join l (String sep "") = "" -> l = [] \/ l = [""].
Proof.
  destruct l as [|x [|y rest]]; [by left| |].
  - simpl. intros ->. by right.
  - change (Join (x :: y :: rest) (String sep ""))
      with (x +:+ String sep "" +:+ Join (y :: rest) (String sep "")).
    intros [_ H]%app_eq_empty. rewrite app_String in H. discriminate.
Qed.

End StringFacts.

(** ** The query-rule normaliser *)

Section Normaliser.
Import GoStrings types.

Lemma sort_Strings_Permutation (l : list string) : sort_Strings l ≡ₚ l.
Proof. apply merge_sort_Permutation. Qed.

Lemma sort_Strings_Sorted (l : list string) : Sorted String.le (sort_Strings l).
Proof. apply (Sorted_merge_sort String.le). Qed.

(** The result of [sort.Strings] does not depend on the algorithm: an
    ascending rearrangement of [l] is [sort_Strings l]. *)
Lemma sort_Strings_unique (l l' : list string) :
  Sorted String.le l' -> l' ≡ₚ l -> l' = sort_Strings l.
Proof.
  intros Hs Hp. apply (Sorted_unique String.le); [done | apply sort_Strings_Sorted |].
  by rewrite sort_Strings_Permutation.
Qed.

Lemma sort_Strings_perm_eq (l l' : list string) :
  l ≡ₚ l' -> sort_Strings l = sort_Strings l'.
Proof.
  intros Hp. apply sort_Strings_unique; [apply sort_Strings_Sorted|].
  by rewrite sort_Strings_Permutation.
Qed.

Lemma NormalizeQueryRules_perm (rules rules' : list string) :
  rules ≡ₚ rules' -> NormalizeQueryRules rules = NormalizeQueryRules rules'.
Proof.
  intros Hp. unfold NormalizeQueryRules.
  rewrite (Permutation_length Hp), (sort_Strings_perm_eq _ _ Hp). reflexivity.
Qed.

End Normaliser.

Section NormaliserClaims.
Import GoStrings types.

(** C4, as stated, fails for capability sets that are equal as sets but
    listed with different repetitions: the normaliser keeps repetitions.
    The worker with queue [default] and the rule [queue=default] asks with
    the rule twice, and its key is not the key of a job with that one
    rule. *)
Lemma C4_normalize_counterexample :
  (forall r, r ∈ ["queue=default"; "queue=default"] <-> r ∈ ["queue=default"])
  /\ NormalizeQueryRules ["queue=default"; "queue=default"]
     = "queue=default,queue=default"
  /\ NormalizeQueryRules ["queue=default"] = "queue=default"
  /\ NormalizeQueryRules ["queue=default"; "queue=default"]
     <> NormalizeQueryRules ["queue=default"].
Proof.
  split; [|split; [reflexivity|split; [reflexivity|discriminate]]].
  intros r. rewrite !elem_of_cons, elem_of_nil. tauto.
Qed.

(** C4, amended.  [NormalizeQueryRules] is order-independent: a list of
    rules and any permutation of it have the same normal form; and two
    capability sets with the same members have the same capability key when
    each is listed without repetition, in whatever order. *)
Theorem C4_normalize_order_independent (rules rules' : list string) :
  (rules ≡ₚ rules' ->
   NormalizeQueryRules rules = NormalizeQueryRules rules')
  /\ (NoDup rules -> NoDup rules' -> (forall r, r ∈ rules <-> r ∈ rules') ->
      NormalizeQueryRules rules = NormalizeQueryRules rules').
Proof.
  split.
  - apply NormalizeQueryRules_perm.
  - intros Hn Hn' Hmem. apply NormalizeQueryRules_perm.
    by apply NoDup_Permutation.
Qed.

Lemma C4_normalize_order_independent_witness :
  NormalizeQueryRules ["queue=default"; "arch=amd64"]
  = NormalizeQueryRules ["arch=amd64"; "queue=default"].
Proof.
  apply (proj1 (C4_normalize_order_independent
                  ["queue=default"; "arch=amd64"] ["arch=amd64"; "queue=default"])).
  apply perm_swap.
Defined.

(** C3, as stated, fails on a rule that holds the separator and on the list
    whose only rule is the empty string: the first reads back as two rules,
    the second as none. *)
Lemma C3_roundtrip_counterexample :
  ParseQueryRules (NormalizeQueryRules ["a,b"]) = ["a"; "b"]
  /\ ~ (ParseQueryRules (NormalizeQueryRules ["a,b"]) ≡ₚ ["a,b"])
  /\ ParseQueryRules (NormalizeQueryRules [""]) = []
  /\ ~ (ParseQueryRules (NormalizeQueryRules [""]) ≡ₚ [""]).
Proof.
  repeat split; try reflexivity.
  - intros H%Permutation_length. discriminate.
  - intros H%Permutation_length. discriminate.
Qed.

(** C3, amended.  For every list of rules none of which holds a comma, and
    which is not the one-element list of the empty rule,
    [ParseQueryRules (NormalizeQueryRules x)] is a permutation of [x] (it is
    [x] sorted); and the empty list normalises to the empty string. *)
Theorem C3_roundtrip (x : list string) :
  NormalizeQueryRules [] = ""
  /\ (Forall (fun r => ContainsByte r "," = false) x -> x <> [""] ->
      ParseQueryRules (NormalizeQueryRules x) = sort_Strings x
      /\ ParseQueryRules (NormalizeQueryRules x) ≡ₚ x).
Proof.
  split; [reflexivity|]. intros Hcomma Hne.
  assert (ParseQueryRules (NormalizeQueryRules x) = sort_Strings x) as ->;
    [|split; [reflexivity | apply sort_Strings_Permutation]].
  unfold NormalizeQueryRules, ParseQueryRules.
  destruct x as [|r x']; [reflexivity|].
  set (x := r :: x') in *.
  destruct (decide (length x = 0%nat)) as [Hlen|_]; [discriminate|].
  assert (Hperm := sort_Strings_Permutation x).
  destruct (decide (Join (sort_Strings x) "," = "")) as [Hj|_].
  - apply Join_eq_empty in Hj as [Hs|Hs]; rewrite Hs in Hperm.
    + apply Permutation_nil_l in Hperm. discriminate.
    + apply Permutation_singleton_l in Hperm. congruence.
  - apply Split_Join.
    + intros Hs. rewrite Hs in Hperm.
      apply Permutation_nil_l in Hperm. discriminate.
    + by rewrite Hperm.
Qed.

Lemma C3_roundtrip_witness :
  ParseQueryRules (NormalizeQueryRules ["queue=default"; "arch=amd64"])
    = sort_Strings ["queue=default"; "arch=amd64"]
  /\ ParseQueryRules (NormalizeQueryRules ["queue=default"; "arch=amd64"])
     ≡ₚ ["queue=default"; "arch=amd64"].
Proof.
  apply (proj2 (C3_roundtrip ["queue=default"; "arch=amd64"])).
  - repeat constructor.
  - discriminate.
Defined.

End NormaliserClaims.

(** ** The worker's tag merge *)

Section TagMerge.
Import GoStrings worker.

Lemma SplitN2_queue (value : string) :
  SplitN2 ("queue=" +:+ value) "=" = ["queue"; value].
Proof. reflexivity. Qed.

Lemma queue_value_queue (value : string) :
  queue_value ("queue=" +:+ value) = Some value.
Proof. reflexivity. Qed.

(** One turn of the loop, by the kind of the entry. *)
Lemma normalizeTags_step_spec (result : list string) (lastQueue tag : string) :
  normalizeTags_step (result, lastQueue) tag
  = (result ++ (if other_key tag then [tag] else []),
     default lastQueue (queue_value tag)).
Proof.
  unfold normalizeTags_step, other_key, queue_value, tag_entry.
  destruct (SplitN2 tag "=") as [|key [|value [|? ?]]]; simpl;
    rewrite ?app_nil_r; try reflexivity.
  destruct (decide (key = "queue")) as [->|Hne]; simpl.
  - by rewrite app_nil_r.
  - by rewrite bool_decide_eq_true_2.
Qed.

(** The loop: the other entries are collected in order, and [lastQueue] is
    the value of the last [queue] entry, if any. *)
Lemma normalizeTags_loop (tags result : list string) (lastQueue : string) :
  foldl normalizeTags_step (result, lastQueue) tags
  = (result ++ List.filter other_key tags,
     default lastQueue (last (omap queue_value tags))).
Proof.
  revert result lastQueue.
  induction tags as [|tag tags IH]; intros result lastQueue; cbn [foldl].
  - simpl. by rewrite app_nil_r.
  - rewrite normalizeTags_step_spec, IH. cbn [List.filter omap list_omap]. f_equal.
    + destruct (other_key tag); simpl; by rewrite <- ?app_assoc, ?app_nil_r.
    + destruct (queue_value tag) as [v|]; simpl; [|done].
      rewrite last_cons. by destruct (last (omap queue_value tags)).
Qed.

Lemma other_key_not_queue (tag : string) :
  other_key tag = true -> has_queue_key tag = false.
Proof.
  unfold other_key, has_queue_key, queue_value.
  destruct (tag_entry tag) as [[key value]|]; [|done].
  intros H%bool_decide_eq_true. by destruct (decide (key = "queue")).
Qed.

Lemma filter_queue_others (tags : list string) :
  List.filter has_queue_key (List.filter other_key tags) = [].
Proof.
  induction tags as [|tag tags IH]; simpl; [done|].
  destruct (other_key tag) eqn:Ho; [|done].
  simpl. by rewrite (other_key_not_queue _ Ho).
Qed.

(** C7, as stated, fails when the last [queue] entry has an empty value: the
    code emits no [queue] entry at all, where the stated rule emits the last
    one once. *)
Lemma C7_normalizeTags_counterexample :
  normalizeTags ["queue=default"; "arch=amd64"; "queue="] = "arch=amd64"
  /\ Join (merged_tags_spec ["queue=default"; "arch=amd64"; "queue="]) ","
     = "arch=amd64,queue="
  /\ normalizeTags_result ["queue=default"; "arch=amd64"; "queue="]
     <> merged_tags_spec ["queue=default"; "arch=amd64"; "queue="]
  /\ length (List.filter has_queue_key
               (normalizeTags_result ["queue=default"; "arch=amd64"; "queue="]))
     = 0%nat.
Proof. repeat split; try reflexivity. discriminate. Qed.

(** C7, amended.  For every list of tags, [normalizeTags] joins with commas:
    the entries that have a key other than [queue], verbatim, duplicates
    kept, in their order; then, when there is an entry with key [queue] and
    the last such entry has a value that is not empty, the one entry
    [queue=<that value>]; when that value is empty no [queue] entry is
    emitted.  So [queue] is emitted at most once. *)
Theorem C7_normalizeTags (tags : list string) :
  normalizeTags_result tags = merged_tags tags
  /\ normalizeTags tags = Join (merged_tags tags) ","
  /\ List.filter other_key (normalizeTags_result tags) = List.filter other_key tags
  /\ List.filter has_queue_key (normalizeTags_result tags)
     = match last (omap queue_value tags) with
       | Some value => if decide (value = "") then [] else ["queue=" +:+ value]
       | None => []
       end.
Proof.
  assert (Hres : normalizeTags_result tags = merged_tags tags).
  { unfold normalizeTags_result, merged_tags.
    rewrite normalizeTags_loop. simpl.
    destruct (last (omap queue_value tags)) as [v|]; simpl.
    - destruct (decide (v = "")) as [->|Hv].
      + rewrite decide_False by (intros H; by apply H). by rewrite app_nil_r.
      + by rewrite decide_True.
    - by rewrite app_nil_r. }
  split; [done|]. split; [unfold normalizeTags; by rewrite Hres|].
  rewrite Hres. unfold merged_tags.
  rewrite !List.filter_app, filter_queue_others.
  assert (Hidem : List.filter other_key (List.filter other_key tags)
                  = List.filter other_key tags).
  { clear Hres. induction tags as [|t ts IH]; simpl; [done|].
    destruct (other_key t) eqn:Ho; simpl; rewrite ?Ho, ?IH; done. }
  rewrite Hidem.
  destruct (last (omap queue_value tags)) as [v|].
  - destruct (decide (v = "")).
    + simpl. by rewrite app_nil_r.
    + cbn [List.filter]. unfold has_queue_key, other_key.
      rewrite queue_value_queue. unfold tag_entry. rewrite SplitN2_queue.
      simpl. by rewrite app_nil_r.
  - simpl. by rewrite app_nil_r.
Qed.

End TagMerge.

(** ** The Redis commands *)

Section RedisFacts.
Import redis.

(** A queue key is never a metadata key: the fourth byte differs. *)
Lemma queue_key_ne_meta_key (normalized uuid : string) :
  "jobs:" +:+ normalized <> "job:" +:+ uuid.
Proof. discriminate. Qed.

Lemma layout_empty : layout ∅.
Proof. intros key e H. by rewrite lookup_empty in H. Qed.

Lemma layout_no_hash_at_queue (d : gmap string entry) (normalized : string) :
  layout d -> ~ holds_hash ("jobs:" +:+ normalized) d.
Proof.
  intros Hl (h & t & H). apply Hl in H as [uuid H]. simpl in H.
  by apply queue_key_ne_meta_key in H.
Qed.

Lemma layout_no_list_at_meta (d : gmap string entry) (uuid : string) :
  layout d -> ~ holds_list ("job:" +:+ uuid) d.
Proof.
  intros Hl (l & t & H). apply Hl in H as [normalized H]. simpl in H.
  symmetry in H. by apply queue_key_ne_meta_key in H.
Qed.

Lemma layout_insert_list (d : gmap string entry) (normalized : string)
    (l : list string) (t : option Z) :
  layout d -> layout (<["jobs:" +:+ normalized := mkEntry (VList l) t]> d).
Proof.
  intros Hl key e. rewrite lookup_insert. case_decide; [|apply Hl].
  intros [= <-]. subst. simpl. eauto.
Qed.

Lemma layout_insert_hash (d : gmap string entry) (uuid : string)
    (h : gmap string string) (t : option Z) :
  layout d -> layout (<["job:" +:+ uuid := mkEntry (VHash h) t]> d).
Proof.
  intros Hl key e. rewrite lookup_insert. case_decide; [|apply Hl].
  intros [= <-]. subst. simpl. eauto.
Qed.

Lemma layout_delete (d : gmap string entry) (key : string) :
  layout d -> layout (delete key d).
Proof.
  intros Hl k e. rewrite lookup_delete. case_decide; [done|apply Hl].
Qed.

Lemma layout_elapse (dt : Z) (s : state) : layout (db s) -> layout (db (elapse dt s)).
Proof.
  intros Hl key e. simpl. rewrite lookup_omap.
  destruct (db s !! key) as [e0|] eqn:He0; simpl; [|done].
  specialize (Hl _ _ He0). unfold age. destruct (ttl e0) as [t|].
  - destruct (dt <? t)%Z; [|done]. intros [= <-]. exact Hl.
  - intros [= <-]. exact Hl.
Qed.

(** The commands on a key of the right kind. *)
Lemma rpush_ok (key data : string) (d : gmap string entry) :
  ~ holds_hash key d ->
  rpush key data d
  = (Ok tt, <[key := mkEntry (VList (queue_at key d ++ [data])) (ttl_at key d)]> d).
Proof.
  intros Hh. unfold rpush, queue_at, ttl_at.
  destruct (d !! key) as [[[l|h] t]|] eqn:Hk; simpl; try reflexivity.
  destruct Hh. by exists h, t.
Qed.

Lemma hset_ok (key : string) (values : list (string * string))
    (d : gmap string entry) :
  ~ holds_list key d ->
  hset key values d
  = (Ok tt, <[key := mkEntry (VHash (hset_fields values (hash_at key d)))
                             (ttl_at key d)]> d).
Proof.
  intros Hl. unfold hset, hash_at, ttl_at.
  destruct (d !! key) as [[[l|h] t]|] eqn:Hk; simpl; try reflexivity.
  destruct Hl. by exists l, t.
Qed.

Lemma expire_hour_present (key : string) (e : entry) (d : gmap string entry) :
  d !! key = Some e ->
  expire key (1 * time_Hour) d
  = (Ok tt, <[key := mkEntry (val e) (Some (1 * time_Hour)%Z)]> d).
Proof. intros H. unfold expire. rewrite H. reflexivity. Qed.

Lemma lpop_empty (key : string) (d : gmap string entry) :
  ~ holds_hash key d -> queue_at key d = [] ->
  lpop key d = (Err redis_Nil, d).
Proof.
  intros Hh Hq. unfold lpop, queue_at in *.
  destruct (d !! key) as [[[l|h] t]|] eqn:Hk; simpl in *; subst; try reflexivity.
  destruct Hh. by exists h, t.
Qed.

Lemma lpop_head (key data : string) (rest : list string) (d : gmap string entry) :
  queue_at key d = data :: rest ->
  lpop key d = (Ok data, popped key d).
Proof.
  intros Hq. unfold popped. rewrite Hq. unfold lpop, queue_at, ttl_at in *.
  destruct (d !! key) as [[[l|h] t]|] eqn:Hk; simpl in *; try discriminate.
  subst. by destruct rest.
Qed.

Lemma queue_at_popped (key data : string) (rest : list string)
    (d : gmap string entry) :
  queue_at key d = data :: rest -> queue_at key (popped key d) = rest.
Proof.
  intros Hq. unfold popped. rewrite Hq. unfold queue_at at 1.
  destruct rest as [|y rest].
  - by rewrite lookup_delete_eq.
  - by rewrite lookup_insert_eq.
Qed.

Lemma lookup_popped_ne (key key' : string) (d : gmap string entry) :
  key <> key' -> popped key d !! key' = d !! key'.
Proof.
  intros Hne. unfold popped.
  destruct (queue_at key d) as [|? [|? ?]];
    by rewrite ?lookup_delete_ne, ?lookup_insert_ne.
Qed.

Lemma call_up {A} (c : command)
    (run : gmap string entry -> result A * gmap string entry) (s : state) :
  up s = true ->
  call c run s = ((run (db s)).1, mkState (run (db s)).2 (up s) (issued s ++ [c])).
Proof. intros Hup. unfold call. rewrite Hup. by destruct (run (db s)). Qed.

Lemma call_down {A} (c : command)
    (run : gmap string entry -> result A * gmap string entry) (s : state) :
  up s = false ->
  call c run s = (Err redis_Unreachable, mkState (db s) (up s) (issued s ++ [c])).
Proof. intros Hup. unfold call. by rewrite Hup. Qed.

End RedisFacts.

(** ** The store operations, when the server is reachable *)

Section StoreFacts.
Import types redis storage.

Variable json_Marshal : Job -> option string.
Variable json_Unmarshal : string -> option Job.
Variable Format_RFC3339 : Time -> string.

Local Abbreviation reserved_fields := (storage.reserved_fields Format_RFC3339).
Local Abbreviation added := (storage.added Format_RFC3339).


Lemma AddJob_ok (job : Job) (data : string) (s : state) :
  up s = true -> layout (db s) -> json_Marshal job = Some data ->
  AddJob json_Marshal Format_RFC3339 job s
  = (Ok tt,
     mkState (added job data (db s)) (up s)
       (issued s ++
        [CmdRPush ("jobs:" +:+ NormalizeQueryRules (AgentQueryRules job)) data;
         CmdExpire ("jobs:" +:+ NormalizeQueryRules (AgentQueryRules job)) (1 * time_Hour);
         CmdHSet ("job:" +:+ UUID job) (reserved_fields job);
         CmdExpire ("job:" +:+ UUID job) (1 * time_Hour)])).
Proof.
  intros Hup Hl HM. unfold AddJob. rewrite HM.
  set (key := "jobs:" +:+ NormalizeQueryRules (AgentQueryRules job)).
  set (metaKey := "job:" +:+ UUID job).
  assert (Hne : key <> metaKey) by apply queue_key_ne_meta_key.
  unfold bind, wrap, ret, RPush, Expire, HSet.
  rewrite call_up by done.
  rewrite rpush_ok by (by apply layout_no_hash_at_queue). cbn [fst snd].
  rewrite call_up by done. cbn [db up issued].
  erewrite expire_hour_present by apply lookup_insert_eq. cbn [fst snd val].
  rewrite insert_insert_eq.
  rewrite call_up by done. cbn [db up issued].
  rewrite hset_ok.
  2:{ intros (l & t & H). rewrite lookup_insert_ne in H by done.
      eapply layout_no_list_at_meta; [exact Hl|]. by exists l, t. }
  cbn [fst snd].
  rewrite call_up by done. cbn [db up issued].
  erewrite expire_hour_present by apply lookup_insert_eq. cbn [fst snd val].
  rewrite insert_insert_eq.
  unfold added. fold key metaKey.
  assert (hash_at metaKey
            (<[key:={| val := VList (queue_at key (db s) ++ [data]);
                       ttl := Some (1 * time_Hour)%Z |}]> (db s))
          = hash_at metaKey (db s)) as ->.
  { unfold hash_at. by rewrite lookup_insert_ne. }
  rewrite <- !app_assoc. reflexivity.
Qed.


Lemma ClaimJob_no_job (queryRules : list string) (s : state) :
  up s = true ->
  ~ holds_hash ("jobs:" +:+ NormalizeQueryRules queryRules) (db s) ->
  queue_at ("jobs:" +:+ NormalizeQueryRules queryRules) (db s) = [] ->
  ClaimJob json_Unmarshal queryRules s
  = (Ok None,
     mkState (db s) (up s)
       (issued s ++ [CmdLPop ("jobs:" +:+ NormalizeQueryRules queryRules)])).
Proof.
  intros Hup Hl Hq. unfold ClaimJob, LPop.
  rewrite call_up by done.
  rewrite lpop_empty by done.
  reflexivity.
Qed.

Lemma layout_popped (key : string) (d : gmap string entry) :
  layout d -> layout (popped key d).
Proof.
  intros Hl. unfold popped.
  destruct (queue_at key d) as [|x [|y rest]] eqn:Hq;
    try by apply layout_delete.
  intros k e. rewrite lookup_insert. case_decide; [|apply Hl].
  intros [= <-]. subst k. simpl.
  unfold queue_at in Hq.
  destruct (d !! key) as [[[l|h] t]|] eqn:Hk; try discriminate.
  apply (Hl _ _ Hk).
Qed.

Lemma ClaimJob_head (queryRules : list string) (data : string)
    (rest : list string) (job : Job) (s : state) :
  up s = true -> layout (db s) ->
  queue_at ("jobs:" +:+ NormalizeQueryRules queryRules) (db s) = data :: rest ->
  json_Unmarshal data = Some job ->
  ClaimJob json_Unmarshal queryRules s
  = (Ok (Some job),
     mkState (claimed ("jobs:" +:+ NormalizeQueryRules queryRules) job (db s)) (up s)
       (issued s ++ [CmdLPop ("jobs:" +:+ NormalizeQueryRules queryRules);
                     CmdHSet ("job:" +:+ UUID job) [("status", "claimed")]])).
Proof.
  intros Hup Hl Hq HU. unfold ClaimJob, LPop.
  rewrite call_up by done.
  rewrite (lpop_head _ _ _ _ Hq). cbn [fst snd]. rewrite HU.
  unfold bind, wrap, ret, HSet.
  rewrite call_up by done. cbn [db up issued].
  rewrite hset_ok by (apply layout_no_list_at_meta; by apply layout_popped).
  cbn [fst snd]. unfold claimed. rewrite <- !app_assoc. reflexivity.
Qed.


Lemma CompleteJob_ok (uuid : string) (s : state) :
  up s = true -> ~ holds_list ("job:" +:+ uuid) (db s) ->
  CompleteJob uuid s
  = (Ok tt,
     mkState (completed uuid (db s)) (up s)
       (issued s ++ [CmdHSet ("job:" +:+ uuid) [("status", "complete")]])).
Proof.
  intros Hup Hl. unfold CompleteJob, bind, wrap, ret, HSet.
  rewrite call_up by done. rewrite hset_ok by done. reflexivity.
Qed.

Lemma layout_added (job : Job) (data : string) (d : gmap string entry) :
  layout d -> layout (added job data d).
Proof. intros Hl. unfold added. apply layout_insert_hash, layout_insert_list, Hl. Qed.

Lemma layout_claimed (key : string) (job : Job) (d : gmap string entry) :
  layout d -> layout (claimed key job d).
Proof. intros Hl. unfold claimed. apply layout_insert_hash, layout_popped, Hl. Qed.

Lemma layout_completed (uuid : string) (d : gmap string entry) :
  layout d -> layout (completed uuid d).
Proof. intros Hl. unfold completed. apply layout_insert_hash, Hl. Qed.

Lemma queue_at_meta_key (uuid : string) (d : gmap string entry) :
  layout d -> queue_at ("job:" +:+ uuid) d = [].
Proof.
  intros Hl. unfold queue_at.
  destruct (d !! ("job:" +:+ uuid)) as [[[l|h] t]|] eqn:Hk; try reflexivity.
  destruct (layout_no_list_at_meta d uuid Hl). by exists l, t.
Qed.

(** [AddJob] appends to the tail of the job's queue and leaves the other
    queues alone. *)
Lemma queue_at_added (job : Job) (data key : string) (d : gmap string entry) :
  layout d ->
  queue_at key (added job data d)
  = if decide (key = "jobs:" +:+ NormalizeQueryRules (AgentQueryRules job))
    then queue_at key d ++ [data] else queue_at key d.
Proof.
  intros Hl. unfold added. unfold queue_at at 1.
  case_decide as Hk.
  - subst key. rewrite lookup_insert_ne by (apply not_eq_sym, queue_key_ne_meta_key).
    by rewrite lookup_insert_eq.
  - rewrite lookup_insert. case_decide as Hm.
    + subst key. by rewrite queue_at_meta_key.
    + by rewrite lookup_insert_ne.
Qed.

(** [ClaimJob] removes the head of its queue and leaves the other queues
    alone. *)
Lemma queue_at_claimed (key key' : string) (job : Job) (d : gmap string entry) :
  layout d ->
  queue_at key' (claimed key job d) = queue_at key' (popped key d).
Proof.
  intros Hl. unfold claimed. unfold queue_at at 1.
  rewrite lookup_insert. case_decide as Hk; [|done].
  subst key'. rewrite queue_at_meta_key; [done|by apply layout_popped].
Qed.

End StoreFacts.

(** ** The job index: completion, empty claims, FIFO order *)

Section StoreClaims.
Import types redis storage server.

Variable json_Marshal : Job -> option string.
Variable json_Unmarshal : string -> option Job.
Variable Format_RFC3339 : Time -> string.

(** A record with no time to live outlasts any delay. *)
Lemma elapse_persistent (dt : Z) (key : string) (v : value) (s : state) :
  db s !! key = Some (mkEntry v None) ->
  db (elapse dt s) !! key = Some (mkEntry v None).
Proof. intros H. simpl. rewrite lookup_omap, H. reflexivity. Qed.

(** A record is gone once its time to live has passed. *)
Lemma elapse_expired (dt t : Z) (key : string) (v : value) (s : state) :
  db s !! key = Some (mkEntry v (Some t)) -> (t <= dt)%Z ->
  db (elapse dt s) !! key = None.
Proof.
  intros H Hle. simpl. rewrite lookup_omap, H. simpl. unfold age. simpl.
  destruct (Z.ltb_spec dt t); [lia|done].
Qed.

Lemma completed_fresh (uuid : string) (d : gmap string entry) :
  d !! ("job:" +:+ uuid) = None ->
  completed uuid d
  = <["job:" +:+ uuid := mkEntry (VHash {["status" := "complete"]}) None]> d.
Proof.
  intros H. unfold completed, hash_at, ttl_at. rewrite H.
  by rewrite insert_empty.
Qed.

(** C6, as stated, fails: completing a job whose metadata record has expired
    is error-free but not a no-op, it writes a record for that id.  Here the
    job is inserted, its records expire after an hour, and the completion
    puts a record back. *)
Lemma C6_complete_expired_counterexample :
  let s := elapse time_Hour
             (AddJob example.Marshal example.Format example.J1 redis.empty).2 in
  db s !! "job:j1" = None
  /\ (CompleteJob "j1" s).1 = Ok tt
  /\ db (CompleteJob "j1" s).2 !! "job:j1"
     = Some (mkEntry (VHash {["status" := "complete"]}) None)
  /\ db (CompleteJob "j1" s).2 <> db s.
Proof.
  cbv zeta. repeat split; try (vm_compute; reflexivity).
  intros H. apply (f_equal (fun d => d !! "job:j1")) in H.
  vm_compute in H. discriminate.
Qed.

(** C6, amended.  When the metadata record of the job has expired (its key
    is absent) and the store is reachable, [CompleteJob] returns success and
    creates a record for that id that holds the single field
    [status = complete]; every other key is left as it was. *)
Theorem C6_complete_expired (s : state) (uuid : string) :
  up s = true ->
  db s !! ("job:" +:+ uuid) = None ->
  (CompleteJob uuid s).1 = Ok tt
  /\ db (CompleteJob uuid s).2
     = <["job:" +:+ uuid := mkEntry (VHash {["status" := "complete"]}) None]> (db s)
  /\ (forall key, key <> "job:" +:+ uuid ->
        db (CompleteJob uuid s).2 !! key = db s !! key).
Proof.
  intros Hup Habs.
  rewrite CompleteJob_ok; [|done|].
  2:{ intros (l & t & H). rewrite Habs in H. discriminate. }
  cbn [fst snd db]. rewrite completed_fresh by done.
  repeat split. intros key Hne. by rewrite lookup_insert_ne.
Qed.

(** C10.  On a reachable store with the index's layout, [CompleteJob]
    succeeds for every job id; for an id with no metadata record (never
    inserted, or expired) it creates a record that holds only
    [status = complete] and has no time to live, so no delay removes it. *)
Theorem C10_complete_always_succeeds (s : state) (uuid : string) :
  up s = true -> layout (db s) ->
  (CompleteJob uuid s).1 = Ok tt
  /\ (db s !! ("job:" +:+ uuid) = None ->
      db (CompleteJob uuid s).2 !! ("job:" +:+ uuid)
        = Some (mkEntry (VHash {["status" := "complete"]}) None)
      /\ forall dt,
           db (elapse dt (CompleteJob uuid s).2) !! ("job:" +:+ uuid)
           = Some (mkEntry (VHash {["status" := "complete"]}) None)).
Proof.
  intros Hup Hl.
  rewrite CompleteJob_ok by (done || by apply layout_no_list_at_meta).
  split; [reflexivity|]. intros Habs. cbn [fst snd].
  assert (H : db (mkState (completed uuid (db s)) (up s)
                    (issued s ++ [CmdHSet ("job:" +:+ uuid) [("status", "complete")]]))
              !! ("job:" +:+ uuid)
              = Some (mkEntry (VHash {["status" := "complete"]}) None)).
  { cbn [db]. rewrite completed_fresh by done. apply lookup_insert_eq. }
  split; [exact H|]. intros dt. by apply elapse_persistent.
Qed.


Lemma no_jobs_queue_at (key : string) (d : gmap string entry) :
  no_jobs key d -> ~ holds_hash key d /\ queue_at key d = [].
Proof.
  unfold queue_at. intros [H|[t H]]; rewrite H; (split; [|done]);
    intros (h & t' & H'); congruence.
Qed.

(** C9.  On a reachable store, a claim on a capability key that is absent or
    empty returns "no job" and no error, whatever else the index holds, and
    the key space is left as it was; the handler answers such a claim with
    204.  (A request with no query never claims: see C8.) *)
Theorem C9_claim_empty_is_no_job (s : state) :
  up s = true ->
  (forall queryRules,
     no_jobs ("jobs:" +:+ NormalizeQueryRules queryRules) (db s) ->
     (ClaimJob json_Unmarshal queryRules s).1 = Ok None
     /\ db (ClaimJob json_Unmarshal queryRules s).2 = db s)
  /\ (forall queryParam,
        queryParam <> "" ->
        no_jobs ("jobs:" +:+ NormalizeQueryRules
                   (map GoStrings.TrimSpace (GoStrings.Split queryParam ","))) (db s) ->
        (handleGetJob json_Unmarshal queryParam s).1
          = mkResponse StatusNoContent NoBody
        /\ db (handleGetJob json_Unmarshal queryParam s).2 = db s).
Proof.
  intros Hup. split.
  - intros queryRules [Hh Hq]%no_jobs_queue_at.
    by rewrite ClaimJob_no_job.
  - intros queryParam Hne [Hh Hq]%no_jobs_queue_at.
    unfold handleGetJob. rewrite decide_False by done.
    by rewrite ClaimJob_no_job.
Qed.

(** [ClaimJob] always starts with an LPOP on the queue of its key. *)
Lemma ClaimJob_issued (queryRules : list string) (s : state) :
  exists rest,
    issued (ClaimJob json_Unmarshal queryRules s).2
    = issued s ++ CmdLPop ("jobs:" +:+ NormalizeQueryRules queryRules) :: rest.
Proof.
  unfold ClaimJob, LPop, call.
  destruct (up s) eqn:Hup; [|by exists []].
  destruct (lpop _ (db s)) as [[data|e] d'].
  - destruct (json_Unmarshal data) as [job|]; [|by exists []].
    unfold bind, wrap, ret, HSet, call. cbn [up db issued].
    destruct (hset _ _ d') as [[?|?] ?]; cbn [snd issued];
      rewrite <- app_assoc; by eexists.
  - destruct e; by exists [].
Qed.

Lemma CompleteJob_issued (uuid : string) (s : state) :
  issued (CompleteJob uuid s).2
  = issued s ++ [CmdHSet ("job:" +:+ uuid) [("status", "complete")]].
Proof.
  unfold CompleteJob, bind, wrap, ret, HSet, call.
  destruct (up s); [|reflexivity].
  by destruct (hset _ _ (db s)) as [[?|?] ?].
Qed.

Lemma handleGetJob_code (queryParam : string) (s : state) :
  queryParam <> "" ->
  code (handleGetJob json_Unmarshal queryParam s).1 <> StatusBadRequest.
Proof.
  intros Hne. unfold handleGetJob. rewrite decide_False by done.
  destruct (ClaimJob _ _ s) as [[[job|]|e] s']; discriminate.
Qed.

Lemma handleCompleteJob_code (uuid : string) (s : state) :
  uuid <> "" -> code (handleCompleteJob uuid s).1 <> StatusBadRequest.
Proof.
  intros Hne. unfold handleCompleteJob. rewrite decide_False by done.
  destruct (CompleteJob uuid s) as [[?|e] s']; discriminate.
Qed.

(** The records [AddJob] writes live one hour: after that long with no
    further insert, a claim on the key finds no job. *)
Lemma ClaimJob_after_expiry (s : state) (job : Job) (data : string) (dt : Z) :
  up s = true -> layout (db s) -> json_Marshal job = Some data ->
  (1 * time_Hour <= dt)%Z ->
  (ClaimJob json_Unmarshal (AgentQueryRules job)
     (elapse dt (AddJob json_Marshal Format_RFC3339 job s).2)).1
  = Ok None.
Proof.
  intros Hup Hl HM Hdt.
  rewrite (AddJob_ok _ _ job data s) by done. cbn [snd].
  set (key := "jobs:" +:+ NormalizeQueryRules (AgentQueryRules job)).
  set (s1 := mkState (added Format_RFC3339 job data (db s)) _ _).
  assert (Hgone : db (elapse dt s1) !! key = None).
  { apply (elapse_expired dt (1 * time_Hour) key
             (VList (queue_at key (db s) ++ [data])) s1); [|exact Hdt].
    unfold s1. cbn [db]. unfold added.
    rewrite lookup_insert_ne by (apply not_eq_sym, queue_key_ne_meta_key).
    apply lookup_insert_eq. }
  rewrite ClaimJob_no_job.
  - reflexivity.
  - exact Hup.
  - intros (h & t & H). fold key in H. rewrite Hgone in H. discriminate.
  - fold key. unfold queue_at. by rewrite Hgone.
Qed.

End StoreClaims.

(** ** The matching API: validation *)

Section APIClaims.
Import types redis storage server.

Variable json_Unmarshal : string -> option Job.

(** C8, as stated, fails for claims: a query made of separators or blanks
    carries no non-empty rule, yet it is not rejected and the claim reaches
    the store. *)
Lemma C8_validation_counterexample :
  Forall (fun rule => rule = "")
    (map GoStrings.TrimSpace (GoStrings.Split "," ","))
  /\ (handleGetJob example.Unmarshal "," redis.empty).1
     = mkResponse StatusNoContent NoBody
  /\ issued (handleGetJob example.Unmarshal "," redis.empty).2
     = [CmdLPop "jobs:,"].
Proof. repeat split; vm_compute; repeat constructor. Qed.

(** C8, amended.  The handlers validate before touching the store: a claim
    request is answered 400 exactly when its [query] parameter is empty or
    missing, a completion request exactly when the job id is empty; a
    request answered 400 leaves the store as it was and sends it no command,
    and every other request does send one. *)
Theorem C8_validation (s : state) (queryParam uuid : string) :
  (code (handleGetJob json_Unmarshal queryParam s).1 = StatusBadRequest
   <-> queryParam = "")
  /\ (queryParam = "" -> (handleGetJob json_Unmarshal queryParam s).2 = s)
  /\ (queryParam <> "" ->
      issued (handleGetJob json_Unmarshal queryParam s).2 <> issued s)
  /\ (code (handleCompleteJob uuid s).1 = StatusBadRequest <-> uuid = "")
  /\ (uuid = "" -> (handleCompleteJob uuid s).2 = s)
  /\ (uuid <> "" -> issued (handleCompleteJob uuid s).2 <> issued s).
Proof.
  repeat split.
  - intros Hc. destruct (decide (queryParam = "")) as [|Hne]; [done|].
    by apply (handleGetJob_code json_Unmarshal _ s) in Hne.
  - intros ->. reflexivity.
  - intros ->. reflexivity.
  - intros Hne. unfold handleGetJob. rewrite decide_False by done.
    destruct (ClaimJob_issued json_Unmarshal
                (map GoStrings.TrimSpace (GoStrings.Split queryParam ",")) s)
      as [rest Hi].
    destruct (ClaimJob _ _ s) as [[[job|]|e] s']; cbn [snd] in *;
      rewrite Hi; intros H; apply (f_equal length) in H;
      rewrite length_app in H; simpl in H; lia.
  - intros Hc. destruct (decide (uuid = "")) as [|Hne]; [done|].
    by apply (handleCompleteJob_code _ s) in Hne.
  - intros ->. reflexivity.
  - intros ->. reflexivity.
  - intros Hne. unfold handleCompleteJob. rewrite decide_False by done.
    assert (Hi := CompleteJob_issued uuid s).
    destruct (CompleteJob uuid s) as [[?|e] s']; cbn [snd] in *;
      rewrite Hi; intros H; apply (f_equal length) in H;
      rewrite length_app in H; simpl in H; lia.
Qed.

End APIClaims.

Lemma C8_validation_witness :
  (server.handleGetJob example.Unmarshal "" redis.empty).2 = redis.empty
  /\ (server.handleCompleteJob "" redis.empty).2 = redis.empty.
Proof.
  pose proof (C8_validation example.Unmarshal redis.empty "" "") as H.
  split; [apply H | apply H]; reflexivity.
Defined.

(** ** FIFO order *)

Section FIFO.
Import types redis storage.

Variable json_Marshal : Job -> option string.
Variable json_Unmarshal : string -> option Job.
Variable Format_RFC3339 : Time -> string.

(** C2.  Jobs come back in insertion order: on a reachable store in which
    the capability key holds no job, after [AddJob A] and then [AddJob B]
    under that key (both of which succeed) two successive claims on the key
    return [A] and then [B].  The jobs are taken to read back from their
    encodings. *)
Theorem C2_fifo (s : state) (A B : Job) (queryRules : list string)
    (dataA dataB : string) :
  up s = true -> layout (db s) ->
  NormalizeQueryRules (AgentQueryRules A) = NormalizeQueryRules queryRules ->
  NormalizeQueryRules (AgentQueryRules B) = NormalizeQueryRules queryRules ->
  queue_at ("jobs:" +:+ NormalizeQueryRules queryRules) (db s) = [] ->
  json_Marshal A = Some dataA -> json_Unmarshal dataA = Some A ->
  json_Marshal B = Some dataB -> json_Unmarshal dataB = Some B ->
  let s1 := (AddJob json_Marshal Format_RFC3339 A s).2 in
  let s2 := (AddJob json_Marshal Format_RFC3339 B s1).2 in
  let s3 := (ClaimJob json_Unmarshal queryRules s2).2 in
  (AddJob json_Marshal Format_RFC3339 A s).1 = Ok tt
  /\ (AddJob json_Marshal Format_RFC3339 B s1).1 = Ok tt
  /\ (ClaimJob json_Unmarshal queryRules s2).1 = Ok (Some A)
  /\ (ClaimJob json_Unmarshal queryRules s3).1 = Ok (Some B)
  /\ queue_at ("jobs:" +:+ NormalizeQueryRules queryRules)
       (db (ClaimJob json_Unmarshal queryRules s3).2) = [].
Proof.
  intros Hup Hl HkA HkB Hq HMA HUA HMB HUB. cbv zeta.
  set (key := "jobs:" +:+ NormalizeQueryRules queryRules) in *.
  rewrite (AddJob_ok _ _ A dataA s) by done. cbn [fst snd].
  set (s1 := mkState (added Format_RFC3339 A dataA (db s)) _ _).
  assert (Hl1 : layout (db s1)) by (by apply layout_added).
  assert (Hq1 : queue_at key (db s1) = [dataA]).
  { unfold s1. cbn [db]. rewrite queue_at_added by done.
    rewrite HkA. fold key. rewrite decide_True by done. by rewrite Hq. }
  rewrite (AddJob_ok _ _ B dataB s1) by done. cbn [fst snd].
  set (s2 := mkState (added Format_RFC3339 B dataB (db s1)) _ _).
  assert (Hl2 : layout (db s2)) by (by apply layout_added).
  assert (Hq2 : queue_at key (db s2) = [dataA; dataB]).
  { unfold s2. cbn [db]. rewrite queue_at_added by done.
    rewrite HkB. fold key. rewrite decide_True by done. by rewrite Hq1. }
  rewrite (ClaimJob_head _ queryRules dataA [dataB] A s2) by done. cbn [fst snd].
  fold key.
  set (s3 := mkState (claimed key A (db s2)) _ _).
  assert (Hl3 : layout (db s3)) by (by apply layout_claimed).
  assert (Hq3 : queue_at key (db s3) = [dataB]).
  { unfold s3. cbn [db]. rewrite queue_at_claimed by done.
    by rewrite (queue_at_popped _ _ _ _ Hq2). }
  rewrite (ClaimJob_head _ queryRules dataB [] B s3) by done. cbn [fst snd db].
  fold key. repeat split.
  rewrite queue_at_claimed by done.
  by rewrite (queue_at_popped _ _ _ _ Hq3).
Qed.

End FIFO.

(** The scenario of the specification: J1 and J2 are reserved with the same
    rules in different orders, and a worker that asks with the rules in
    either order claims J1 and then J2. *)
Lemma C2_fifo_witness :
  let s1 := (storage.AddJob example.Marshal example.Format example.J1 redis.empty).2 in
  let s2 := (storage.AddJob example.Marshal example.Format example.J2 s1).2 in
  let s3 := (storage.ClaimJob example.Unmarshal ["queue=default"; "arch=amd64"] s2).2 in
  (storage.AddJob example.Marshal example.Format example.J1 redis.empty).1 = Ok tt
  /\ (storage.AddJob example.Marshal example.Format example.J2 s1).1 = Ok tt
  /\ (storage.ClaimJob example.Unmarshal ["queue=default"; "arch=amd64"] s2).1
     = Ok (Some example.J1)
  /\ (storage.ClaimJob example.Unmarshal ["queue=default"; "arch=amd64"] s3).1
     = Ok (Some example.J2)
  /\ redis.queue_at
       ("jobs:" +:+ types.NormalizeQueryRules ["queue=default"; "arch=amd64"])
       (redis.db (storage.ClaimJob example.Unmarshal
                    ["queue=default"; "arch=amd64"] s3).2) = [].
Proof.
  apply (C2_fifo example.Marshal example.Unmarshal example.Format redis.empty
           example.J1 example.J2 ["queue=default"; "arch=amd64"]
           "j1|default|queue=default,arch=amd64"
           "j2|default|arch=amd64,queue=default");
    first [ apply layout_empty | reflexivity ].
Defined.

Lemma C6_complete_expired_witness :
  (storage.CompleteJob "j1" redis.empty).1 = Ok tt
  /\ redis.db (storage.CompleteJob "j1" redis.empty).2
     = <["job:" +:+ "j1" :=
           redis.mkEntry (redis.VHash {["status" := "complete"]}) None]>
         (redis.db redis.empty)
  /\ (forall key, key <> "job:" +:+ "j1" ->
        redis.db (storage.CompleteJob "j1" redis.empty).2 !! key
        = redis.db redis.empty !! key).
Proof. apply (C6_complete_expired redis.empty "j1"); reflexivity. Defined.

(** A job is inserted, an hour passes, and its completion is reported. *)
Lemma C10_complete_always_succeeds_witness :
  let s := redis.elapse time_Hour
             (storage.AddJob example.Marshal example.Format example.J1 redis.empty).2 in
  (storage.CompleteJob "j1" s).1 = Ok tt
  /\ (redis.db s !! ("job:" +:+ "j1") = None ->
      redis.db (storage.CompleteJob "j1" s).2 !! ("job:" +:+ "j1")
        = Some (redis.mkEntry (redis.VHash {["status" := "complete"]}) None)
      /\ forall dt,
           redis.db (redis.elapse dt (storage.CompleteJob "j1" s).2)
             !! ("job:" +:+ "j1")
           = Some (redis.mkEntry (redis.VHash {["status" := "complete"]}) None)).
Proof.
  cbv zeta.
  apply (C10_complete_always_succeeds
           (redis.elapse time_Hour
              (storage.AddJob example.Marshal example.Format example.J1 redis.empty).2)
           "j1").
  - reflexivity.
  - apply layout_elapse.
    rewrite (AddJob_ok example.Marshal example.Format example.J1
               "j1|default|queue=default,arch=amd64" redis.empty);
      [ apply layout_added, layout_empty | reflexivity | apply layout_empty | reflexivity ].
Defined.

(** The scenario of the specification: a claim with [nonexistent=rule] on a
    populated index. *)
Lemma C9_claim_empty_is_no_job_witness :
  let s := (storage.AddJob example.Marshal example.Format example.J1 redis.empty).2 in
  (storage.ClaimJob example.Unmarshal ["nonexistent=rule"] s).1 = Ok None
  /\ (server.handleGetJob example.Unmarshal "nonexistent=rule" s).1
     = server.mkResponse server.StatusNoContent server.NoBody.
Proof.
  cbv zeta.
  pose proof (C9_claim_empty_is_no_job example.Unmarshal
    (storage.AddJob example.Marshal example.Format example.J1 redis.empty).2
    eq_refl) as [Hstore Hapi].
  split.
  - apply (Hstore ["nonexistent=rule"]). left. reflexivity.
  - apply (Hapi "nonexistent=rule"); [discriminate|]. left. reflexivity.
Defined.

(** ** Concurrent claims on one key *)

Section ClaimAtomicity.
Import types redis storage concurrent.

Variable json_Unmarshal : string -> option Job.

(** The key under contention, the one payload queued on it, and the job it
    decodes to. *)
Variable key_rules : list string.
Variable data : string.
Variable job : Job.
Hypothesis data_decodes : json_Unmarshal data = Some job.

Local Abbreviation key := ("jobs:" +:+ NormalizeQueryRules key_rules).
Local Abbreviation waiting := (concurrent.waiting key_rules).
Local Abbreviation winner := (concurrent.winner job).
Local Abbreviation loser := (concurrent.loser key_rules).
Local Abbreviation claim_inv := (concurrent.claim_inv key_rules data job).


Lemma caller_step_pops (c : caller) (s : state) :
  up s = true -> queue_at key (db s) = [data] -> waiting c ->
  caller_step json_Unmarshal c s
  = (Popped job, mkState (popped key (db s)) (up s) (issued s ++ [CmdLPop key])).
Proof.
  intros Hup Hq (queryRules & -> & Hk). unfold caller_step, LPop.
  rewrite Hk. rewrite call_up by done.
  rewrite (lpop_head _ _ _ _ Hq). cbn [fst snd]. by rewrite data_decodes.
Qed.

Lemma caller_step_finds_nothing (c : caller) (s : state) :
  up s = true -> layout (db s) -> queue_at key (db s) = [] -> waiting c ->
  caller_step json_Unmarshal c s
  = (Returned (Ok None), mkState (db s) (up s) (issued s ++ [CmdLPop key])).
Proof.
  intros Hup Hl Hq (queryRules & -> & Hk). unfold caller_step, LPop.
  rewrite Hk. rewrite call_up by done.
  rewrite lpop_empty by (done || apply layout_no_hash_at_queue, Hl).
  reflexivity.
Qed.

Lemma caller_step_marks (s : state) :
  up s = true -> layout (db s) ->
  caller_step json_Unmarshal (Popped job) s
  = (Returned (Ok (Some job)),
     mkState (<["job:" +:+ UUID job :=
                  mkEntry (VHash (hset_fields [("status", "claimed")]
                                    (hash_at ("job:" +:+ UUID job) (db s))))
                          (ttl_at ("job:" +:+ UUID job) (db s))]> (db s))
       (up s)
       (issued s ++ [CmdHSet ("job:" +:+ UUID job) [("status", "claimed")]])).
Proof.
  intros Hup Hl. unfold caller_step, wrap, HSet.
  rewrite call_up by done.
  rewrite hset_ok by (apply layout_no_list_at_meta, Hl). reflexivity.
Qed.

Lemma queue_at_insert_hash (k uuid : string) (h : gmap string string)
    (t : option Z) (d : gmap string entry) :
  layout d ->
  queue_at k (<["job:" +:+ uuid := mkEntry (VHash h) t]> d) = queue_at k d.
Proof.
  intros Hl. unfold queue_at at 1. rewrite lookup_insert.
  case_decide as Hk; [|done]. subst k. by rewrite queue_at_meta_key.
Qed.

(** One scheduling step keeps the invariant. *)
Lemma claim_inv_step (cfg : list caller * state) (i : nat) :
  claim_inv cfg -> claim_inv (sched_step json_Unmarshal cfg i).
Proof.
  destruct cfg as [cs s]. intros (Hup & Hl & Hphase). unfold sched_step.
  cbn [fst snd] in *.
  destruct (cs !! i) as [c|] eqn:Hi; [|by repeat split].
  unfold claim_inv.
  destruct Hphase as [[Hq Hall]|[Hq (w & (cw & Hw & Hwin) & Hothers)]].
  - (* the job is queued: caller [i] pops it *)
    assert (Hc : waiting c).
    { rewrite Forall_forall in Hall. apply Hall. by eapply list_elem_of_lookup_2. }
    rewrite (caller_step_pops c s Hup Hq Hc). cbn [fst snd db up].
    split; [done|]. split; [by apply layout_popped|]. right.
    split; [by rewrite (queue_at_popped _ _ _ _ Hq)|].
    exists i. split.
    + exists (Popped job). split; [|by left].
      apply list_lookup_insert_eq. by eapply lookup_lt_Some.
    + intros j c' Hne. rewrite list_lookup_insert_ne by done.
      intros Hj. left. rewrite Forall_forall in Hall. apply Hall.
      by eapply list_elem_of_lookup_2.
  - destruct (decide (i = w)) as [->|Hne].
    + (* the winner moves *)
      assert (c = cw) as -> by congruence.
      destruct Hwin as [->| ->].
      * rewrite (caller_step_marks s Hup Hl). cbn [fst snd db up].
        split; [done|]. split; [by apply layout_insert_hash|]. right.
        split; [by rewrite queue_at_insert_hash|].
        exists w. split.
        -- exists (Returned (Ok (Some job))). split; [|by right].
           apply list_lookup_insert_eq. by eapply lookup_lt_Some.
        -- intros j c' Hj. rewrite list_lookup_insert_ne by done. by apply Hothers.
      * cbn [caller_step fst snd]. rewrite list_insert_id by done.
        repeat split; try done. right. split; [done|].
        exists w. split; [|done]. exists (Returned (Ok (Some job))). split; [done|by right].
    + (* a loser moves *)
      destruct (Hothers i c Hne Hi) as [Hc| ->].
      * rewrite (caller_step_finds_nothing c s Hup Hl Hq Hc). cbn [fst snd db up].
        repeat split; try done. right. split; [done|].
        exists w. split.
        -- exists cw. split; [|done]. by rewrite list_lookup_insert_ne.
        -- intros j c' Hj. destruct (decide (j = i)) as [->|Hji].
           ++ rewrite list_lookup_insert_eq by (by eapply lookup_lt_Some).
              intros [= <-]. by right.
           ++ rewrite list_lookup_insert_ne by done. by apply Hothers.
      * cbn [caller_step fst snd]. rewrite list_insert_id by done.
        repeat split; try done. right. split; [done|].
        exists w. split; [|done]. by exists cw.
Qed.

Lemma claim_inv_run (sched : list nat) (cfg : list caller * state) :
  claim_inv cfg -> claim_inv (run_schedule json_Unmarshal sched cfg).
Proof.
  revert cfg. induction sched as [|i sched IH]; intros cfg Hinv; [done|].
  cbn [run_schedule foldl]. apply IH. by apply claim_inv_step.
Qed.

End ClaimAtomicity.

Section ClaimProgress.
Import types redis storage concurrent.

Variable json_Unmarshal : string -> option Job.


(** Every step of a caller that has not returned takes it further. *)
Lemma caller_step_progress (c : caller) (s : state) :
  Nat.min 2 (S (progress c)) <= progress (caller_step json_Unmarshal c s).1.
Proof.
  destruct c as [queryRules|job|r]; cbn [caller_step progress].
  - destruct (LPop _ s) as [[data|e] s1].
    + destruct (json_Unmarshal data); simpl; lia.
    + destruct e; simpl; lia.
  - destruct (wrap _ _ s) as [[?|e] s2]; simpl; lia.
  - simpl. lia.
Qed.

Lemma sched_step_length (cfg : list caller * state) (i : nat) :
  length (sched_step json_Unmarshal cfg i).1 = length cfg.1.
Proof.
  unfold sched_step. destruct (cfg.1 !! i) as [c|]; [|done].
  destruct (caller_step _ c cfg.2). cbn [fst]. apply length_insert.
Qed.

Lemma run_schedule_length (sched : list nat) (cfg : list caller * state) :
  length (run_schedule json_Unmarshal sched cfg).1 = length cfg.1.
Proof.
  revert cfg. induction sched as [|i sched IH]; intros cfg; [done|].
  cbn [run_schedule foldl]. etrans; [apply IH|apply sched_step_length].
Qed.

Lemma sched_step_progress (cfg : list caller * state) (i j : nat) :
  j < length cfg.1 ->
  (if decide (i = j) then Nat.min 2 (S (progress_at j cfg.1))
   else progress_at j cfg.1)
  <= progress_at j (sched_step json_Unmarshal cfg i).1.
Proof.
  intros Hj. unfold sched_step, progress_at.
  destruct (decide (i = j)) as [->|Hne].
  - destruct (lookup_lt_is_Some_2 _ _ Hj) as [c Hc]. rewrite Hc.
    pose proof (caller_step_progress c cfg.2) as Hp.
    destruct (caller_step _ c cfg.2) as [c' s']. cbn [fst] in *.
    by rewrite list_lookup_insert_eq.
  - destruct (cfg.1 !! i) as [c|]; [|done].
    destruct (caller_step _ c cfg.2) as [c' s']. cbn [fst].
    by rewrite list_lookup_insert_ne.
Qed.

(** A caller scheduled [n] times has made [n] steps, or has returned. *)
Lemma run_schedule_progress (sched : list nat) (cfg : list caller * state)
    (j : nat) :
  j < length cfg.1 ->
  Nat.min 2 (progress_at j cfg.1 + count_occ Nat.eq_dec sched j)
  <= progress_at j (run_schedule json_Unmarshal sched cfg).1.
Proof.
  revert cfg. induction sched as [|i sched IH]; intros cfg Hj.
  - cbn [run_schedule foldl count_occ]. lia.
  - cbn [run_schedule foldl].
    pose proof (sched_step_progress cfg i j Hj) as Hstep.
    specialize (IH (sched_step json_Unmarshal cfg i)).
    rewrite sched_step_length in IH. specialize (IH Hj).
    unfold run_schedule in IH.
    destruct (decide (i = j)) as [->|Hne].
    + rewrite count_occ_cons_eq by done. lia.
    + rewrite count_occ_cons_neq by done. lia.
Qed.

Lemma progress_returned (j : nat) (cs : list caller) :
  2 <= progress_at j cs -> exists r, cs !! j = Some (Returned r).
Proof.
  unfold progress_at. destruct (cs !! j) as [[?|?|r]|]; simpl; try lia.
  by exists r.
Qed.

End ClaimProgress.

(** Counting the elements of a list that satisfy a test which singles out,
    or leaves out, one position. *)
Section Counting.
Context {A : Type} (f : A -> bool).

Lemma filter_none (l : list A) :
  (forall i c, l !! i = Some c -> f c = false) -> List.filter f l = [].
Proof.
  induction l as [|c l IH]; intros H; [done|]. simpl.
  rewrite (H 0%nat c eq_refl). apply IH. intros i c'. apply (H (S i)).
Qed.

Lemma filter_all (l : list A) :
  (forall i c, l !! i = Some c -> f c = true) -> List.filter f l = l.
Proof.
  induction l as [|c l IH]; intros H; [done|]. simpl.
  rewrite (H 0%nat c eq_refl). f_equal. apply IH. intros i c'. apply (H (S i)).
Qed.

Lemma count_only_one (l : list A) (w : nat) :
  w < length l ->
  (forall i c, l !! i = Some c -> f c = bool_decide (i = w)) ->
  length (List.filter f l) = 1%nat.
Proof.
  revert w. induction l as [|c l IH]; intros w Hw H; simpl in Hw; [lia|].
  simpl. rewrite (H 0%nat c eq_refl). destruct w as [|w].
  - rewrite bool_decide_eq_true_2 by done. simpl. f_equal.
    rewrite filter_none; [done|]. intros i c' Hi.
    rewrite (H (S i) c' Hi). by apply bool_decide_eq_false_2.
  - rewrite bool_decide_eq_false_2 by done.
    apply (IH w); [lia|]. intros i c' Hi. rewrite (H (S i) c' Hi).
    apply bool_decide_ext. lia.
Qed.

Lemma count_all_but_one (l : list A) (w : nat) :
  w < length l ->
  (forall i c, l !! i = Some c -> f c = negb (bool_decide (i = w))) ->
  length (List.filter f l) = (length l - 1)%nat.
Proof.
  revert w. induction l as [|c l IH]; intros w Hw H; simpl in Hw; [lia|].
  simpl. rewrite (H 0%nat c eq_refl). destruct w as [|w].
  - rewrite bool_decide_eq_true_2 by done. simpl.
    rewrite filter_all; [lia|]. intros i c' Hi.
    rewrite (H (S i) c' Hi). by rewrite bool_decide_eq_false_2.
  - rewrite bool_decide_eq_false_2 by done. simpl.
    rewrite (IH w); [lia| lia |]. intros i c' Hi. rewrite (H (S i) c' Hi).
    f_equal. apply bool_decide_ext. lia.
Qed.

End Counting.

Section ClaimClaims.
Import types redis storage concurrent.

Variable json_Unmarshal : string -> option Job.


Lemma waiting_tests (key_rules : list string) (c : caller) :
  waiting key_rules c ->
  holds_job c = false /\ got_job c = false /\ got_no_job c = false.
Proof. by intros (r & -> & _). Qed.

(** C1.  A capability key holds exactly one queued job, and [N] callers claim
    on that key concurrently, their LPOP and HSET commands interleaved in any
    order by the schedule.  Whatever the schedule, at most one caller ever
    has the job in hand; and once every caller has been scheduled for its
    two commands, all have returned, exactly one of them with the job and
    the [N - 1] others with "no job". *)
Theorem C1_claim_at_most_once (s : state) (key_rules : list string)
    (data : string) (job : Job) (callers_rules : list (list string)) :
  up s = true -> layout (db s) ->
  queue_at ("jobs:" +:+ NormalizeQueryRules key_rules) (db s) = [data] ->
  json_Unmarshal data = Some job ->
  Forall (fun queryRules =>
            NormalizeQueryRules queryRules = NormalizeQueryRules key_rules)
    callers_rules ->
  let N := length callers_rules in
  let start := (Calling <$> callers_rules, s) in
  (forall sched,
     length (List.filter holds_job (run_schedule json_Unmarshal sched start).1) <= 1)
  /\ (forall sched,
        0 < N ->
        (forall i, i < N -> 2 <= count_occ Nat.eq_dec sched i) ->
        let final := (run_schedule json_Unmarshal sched start).1 in
        length final = N
        /\ (forall i, i < N -> exists r, final !! i = Some (Returned r))
        /\ (exists w, final !! w = Some (Returned (Ok (Some job))))
        /\ length (List.filter got_job final) = 1%nat
        /\ length (List.filter got_no_job final) = (N - 1)%nat).
Proof.
  intros Hup Hl Hq Hdec Hrules N start.
  assert (Hinv0 : claim_inv key_rules data job start).
  { split; [done|]. split; [done|]. left. split; [done|]. unfold start. cbn [fst].
    rewrite Forall_fmap. eapply Forall_impl; [exact Hrules|].
    intros r Hr. by exists r. }
  assert (Hinv : forall sched,
            claim_inv key_rules data job (run_schedule json_Unmarshal sched start)).
  { intros sched. by apply claim_inv_run. }
  assert (Hlen : forall sched,
            length (run_schedule json_Unmarshal sched start).1 = N).
  { intros sched. rewrite run_schedule_length. unfold start. cbn [fst].
    by rewrite length_fmap. }
  split.
  - intros sched. destruct (Hinv sched) as (_ & _ & [[_ Hall]|[_ Hw]]).
    + rewrite (filter_none holds_job); [simpl; lia|].
      intros i c Hi. rewrite Forall_forall in Hall.
      apply (waiting_tests key_rules), Hall. by eapply list_elem_of_lookup_2.
    + destruct Hw as (w & (cw & Hcw & Hwin) & Hothers).
      rewrite (count_only_one holds_job _ w); [done|by eapply lookup_lt_Some|].
      intros i c Hi. destruct (decide (i = w)) as [->|Hne].
      * rewrite bool_decide_eq_true_2 by done.
        assert (c = cw) as -> by congruence. by destruct Hwin as [-> | ->].
      * rewrite bool_decide_eq_false_2 by done.
        destruct (Hothers i c Hne Hi) as [Hc| ->]; [|done].
        by apply (waiting_tests key_rules).
  - intros sched HN Hfair final.
    assert (Hret : forall i, i < N -> exists r, final !! i = Some (Returned r)).
    { intros i Hi. apply progress_returned.
      pose proof (run_schedule_progress json_Unmarshal sched start i) as Hp.
      unfold start at 1 in Hp. cbn [fst] in Hp. rewrite length_fmap in Hp.
      specialize (Hp Hi). specialize (Hfair i Hi). unfold final. lia. }
    split; [apply Hlen|]. split; [exact Hret|].
    destruct (Hinv sched) as (_ & _ & [[_ Hall]|[_ Hw]]).
    { (* every caller has moved, so the job is no longer queued *)
      destruct (Hret 0%nat HN) as [r Hr]. rewrite Forall_forall in Hall.
      destruct (Hall (Returned r)) as (? & ? & _); [|discriminate].
      by eapply list_elem_of_lookup_2. }
    destruct Hw as (w & (cw & Hcw & Hwin) & Hothers). fold final in Hcw, Hothers.
    assert (HwN : w < N).
    { rewrite <- (Hlen sched). by eapply lookup_lt_Some. }
    assert (Hcw' : final !! w = Some (Returned (Ok (Some job)))).
    { destruct (Hret w HwN) as [r Hr]. destruct Hwin as [-> | ->]; congruence. }
    assert (Hlose : forall i c, i <> w -> final !! i = Some c -> c = Returned (Ok None)).
    { intros i c Hne Hi. destruct (Hothers i c Hne Hi) as [(q & -> & _)| ->]; [|done].
      destruct (Hret i) as [r Hr]; [|congruence].
      rewrite <- (Hlen sched). by eapply lookup_lt_Some. }
    split; [by exists w|]. split.
    + apply (count_only_one got_job _ w); [unfold final; by rewrite (Hlen sched)|].
      intros i c Hi. destruct (decide (i = w)) as [->|Hne].
      * rewrite bool_decide_eq_true_2 by done.
        assert (c = Returned (Ok (Some job))) as -> by congruence. done.
      * rewrite bool_decide_eq_false_2 by done. by rewrite (Hlose i c Hne Hi).
    + rewrite <- (Hlen sched). fold final.
      apply (count_all_but_one got_no_job _ w); [unfold final; by rewrite (Hlen sched)|].
      intros i c Hi. destruct (decide (i = w)) as [->|Hne].
      * rewrite bool_decide_eq_true_2 by done.
        assert (c = Returned (Ok (Some job))) as -> by congruence. done.
      * rewrite bool_decide_eq_false_2 by done. by rewrite (Hlose i c Hne Hi).
Qed.

(** One thread of [caller_step] run to its end is [ClaimJob]. *)
Lemma caller_steps_ClaimJob (queryRules : list string) (s : state) :
  let '(c1, s1) := caller_step json_Unmarshal (Calling queryRules) s in
  let '(c2, s2) := caller_step json_Unmarshal c1 s1 in
  (c2, s2)
  = (Returned (ClaimJob json_Unmarshal queryRules s).1,
     (ClaimJob json_Unmarshal queryRules s).2).
Proof.
  unfold ClaimJob. cbn [caller_step].
  destruct (LPop _ s) as [[d|e] s1].
  - destruct (json_Unmarshal d) as [job|]; [|reflexivity].
    cbn [caller_step]. unfold bind, ret.
    by destruct (wrap _ _ s1) as [[?|?] ?].
  - by destruct e.
Qed.

End ClaimClaims.

(** Three workers claim on the key of J1, their commands interleaved. *)
Lemma C1_claim_at_most_once_witness :
  let s := (storage.AddJob example.Marshal example.Format example.J1 redis.empty).2 in
  let start :=
    (concurrent.Calling <$>
       [["queue=default"; "arch=amd64"]; ["arch=amd64"; "queue=default"];
        ["queue=default"; "arch=amd64"]], s) in
  let final :=
    (concurrent.run_schedule example.Unmarshal [2; 0; 1; 0; 1; 2]%nat start).1 in
  length (List.filter concurrent.got_job final) = 1%nat
  /\ length (List.filter concurrent.got_no_job final) = 2%nat.
Proof.
  cbv zeta.
  pose proof (C1_claim_at_most_once example.Unmarshal
    (storage.AddJob example.Marshal example.Format example.J1 redis.empty).2
    ["queue=default"; "arch=amd64"]
    "j1|default|queue=default,arch=amd64" example.J1
    [["queue=default"; "arch=amd64"]; ["arch=amd64"; "queue=default"];
     ["queue=default"; "arch=amd64"]]) as H.
  cbv zeta in H.
  destruct H as [_ H].
  - reflexivity.
  - rewrite (AddJob_ok example.Marshal example.Format example.J1
               "j1|default|queue=default,arch=amd64" redis.empty);
      [ apply layout_added, layout_empty | reflexivity | apply layout_empty | reflexivity ].
  - reflexivity.
  - reflexivity.
  - repeat constructor.
  - destruct (H [2; 0; 1; 0; 1; 2]%nat) as (_ & _ & _ & H1 & H2).
    + simpl. lia.
    + intros i Hi. simpl in Hi.
      destruct i as [|[|[|i]]]; [vm_compute; lia ..|lia].
    + split; [exact H1 | exact H2].
Defined.

(** ** The status of a job over store operations *)

Section Lifecycle.
Import types redis storage lifecycle.

Variable json_Marshal : Job -> option string.
Variable json_Unmarshal : string -> option Job.
Variable Format_RFC3339 : Time -> string.

Local Abbreviation run_op := (lifecycle.run_op json_Marshal json_Unmarshal Format_RFC3339).
Local Abbreviation run_ops := (lifecycle.run_ops json_Marshal json_Unmarshal Format_RFC3339).
Local Abbreviation allowed := (lifecycle.allowed json_Marshal json_Unmarshal).
Local Abbreviation allowed_ops :=
  (lifecycle.allowed_ops json_Marshal json_Unmarshal Format_RFC3339).
Local Abbreviation queued := (lifecycle.queued json_Unmarshal).
Local Abbreviation well_formed := (lifecycle.well_formed json_Unmarshal).
Local Abbreviation addedF := (added Format_RFC3339).

Lemma meta_key_inj (u u' : string) : "job:" +:+ u = "job:" +:+ u' -> u = u'.
Proof. intros H. by injection H. Qed.

(** The status after each of the three writes. *)
Lemma status_of_added (u : string) (job : Job) (data : string)
    (d : gmap string entry) :
  status_of u (addedF job data d)
  = if decide (u = UUID job) then Some "reserved" else status_of u d.
Proof.
  unfold status_of, added. rewrite lookup_insert. case_decide as Hk.
  - apply meta_key_inj in Hk. subst u. rewrite decide_True by done.
    unfold hset_fields, reserved_fields. cbn [foldl fst snd].
    apply lookup_insert_eq.
  - rewrite decide_False by congruence.
    by rewrite lookup_insert_ne by apply queue_key_ne_meta_key.
Qed.

Lemma status_of_popped (u normalized : string) (d : gmap string entry) :
  status_of u (popped ("jobs:" +:+ normalized) d) = status_of u d.
Proof.
  unfold status_of. by rewrite lookup_popped_ne by apply queue_key_ne_meta_key.
Qed.

Lemma status_of_claimed (u normalized : string) (job : Job)
    (d : gmap string entry) :
  status_of u (claimed ("jobs:" +:+ normalized) job d)
  = if decide (u = UUID job) then Some "claimed" else status_of u d.
Proof.
  unfold claimed. unfold status_of at 1. rewrite lookup_insert. case_decide as Hk.
  - apply meta_key_inj in Hk. subst u. rewrite decide_True by done.
    apply lookup_insert_eq.
  - rewrite decide_False by congruence. apply status_of_popped.
Qed.

Lemma status_of_completed (u uuid : string) (d : gmap string entry) :
  status_of u (completed uuid d)
  = if decide (u = uuid) then Some "complete" else status_of u d.
Proof.
  unfold completed. unfold status_of at 1. rewrite lookup_insert. case_decide as Hk.
  - apply meta_key_inj in Hk. subst u. rewrite decide_True by done.
    apply lookup_insert_eq.
  - by rewrite decide_False by congruence.
Qed.

(** The queues after a pop and after a completion. *)
Lemma queue_at_popped_any (k key : string) (d : gmap string entry) :
  queue_at k (popped key d)
  = if decide (k = key) then tail (queue_at k d) else queue_at k d.
Proof.
  case_decide as Hk.
  - subst k. destruct (queue_at key d) as [|x rest] eqn:Hq.
    + unfold popped. rewrite Hq. unfold queue_at. by rewrite lookup_delete_eq.
    + by rewrite (queue_at_popped _ _ _ _ Hq).
  - unfold queue_at. by rewrite lookup_popped_ne.
Qed.

Lemma queue_at_completed (k uuid : string) (d : gmap string entry) :
  layout d -> queue_at k (completed uuid d) = queue_at k d.
Proof. intros Hl. unfold completed. by apply queue_at_insert_hash. Qed.

(** [ClaimJob] on a payload that does not decode: the payload is gone and
    the call fails. *)
Lemma ClaimJob_undecodable (queryRules : list string) (data : string)
    (rest : list string) (s : state) :
  up s = true ->
  queue_at ("jobs:" +:+ NormalizeQueryRules queryRules) (db s) = data :: rest ->
  json_Unmarshal data = None ->
  ClaimJob json_Unmarshal queryRules s
  = (Err (Errorf "unmarshaling job" json_Error),
     mkState (popped ("jobs:" +:+ NormalizeQueryRules queryRules) (db s)) (up s)
       (issued s ++ [CmdLPop ("jobs:" +:+ NormalizeQueryRules queryRules)])).
Proof.
  intros Hup Hq HU. unfold ClaimJob, LPop. rewrite call_up by done.
  rewrite (lpop_head _ _ _ _ Hq). cbn [fst snd]. by rewrite HU.
Qed.

(** An unreachable server: no operation changes the key space. *)
Lemma run_op_down (o : op) (s : state) :
  up s = false -> db (run_op o s) = db s /\ up (run_op o s) = false.
Proof.
  intros Hup. destruct o as [job|queryRules|uuid]; cbn [lifecycle.run_op].
  - unfold AddJob. destruct (json_Marshal job) as [data|]; [|done].
    unfold bind, wrap, RPush. by rewrite call_down.
  - unfold ClaimJob, LPop. by rewrite call_down.
  - unfold CompleteJob, bind, wrap, HSet. by rewrite call_down.
Qed.

(** What one operation does to the key space of a reachable server. *)
Lemma run_op_up (o : op) (s : state) :
  up s = true -> layout (db s) ->
  up (run_op o s) = true
  /\ (db (run_op o s) = db s
      \/ (exists job data,
            o = OpAddJob job /\ json_Marshal job = Some data
            /\ db (run_op o s) = addedF job data (db s))
      \/ (exists queryRules data rest,
            o = OpClaimJob queryRules
            /\ queue_at ("jobs:" +:+ NormalizeQueryRules queryRules) (db s) = data :: rest
            /\ json_Unmarshal data = None
            /\ db (run_op o s)
               = popped ("jobs:" +:+ NormalizeQueryRules queryRules) (db s))
      \/ (exists queryRules data rest job,
            o = OpClaimJob queryRules
            /\ queue_at ("jobs:" +:+ NormalizeQueryRules queryRules) (db s) = data :: rest
            /\ json_Unmarshal data = Some job
            /\ db (run_op o s)
               = claimed ("jobs:" +:+ NormalizeQueryRules queryRules) job (db s))
      \/ (exists uuid,
            o = OpCompleteJob uuid /\ db (run_op o s) = completed uuid (db s))).
Proof.
  intros Hup Hl. destruct o as [job|queryRules|uuid]; cbn [lifecycle.run_op].
  - destruct (json_Marshal job) as [data|] eqn:HM.
    + rewrite (AddJob_ok _ _ job data s) by done. cbn [snd up db].
      split; [done|]. right; left. by exists job, data.
    + unfold AddJob. rewrite HM. cbn. split; [done|]. by left.
  - destruct (queue_at ("jobs:" +:+ NormalizeQueryRules queryRules) (db s))
      as [|data rest] eqn:Hq.
    + rewrite ClaimJob_no_job by (done || apply layout_no_hash_at_queue, Hl).
      cbn [snd up db]. split; [done|]. by left.
    + destruct (json_Unmarshal data) as [job|] eqn:HU.
      * rewrite (ClaimJob_head _ _ data rest job s) by done. cbn [snd up db].
        split; [done|]. do 3 right; left. by exists queryRules, data, rest, job.
      * rewrite (ClaimJob_undecodable _ data rest s) by done. cbn [snd up db].
        split; [done|]. do 2 right; left. by exists queryRules, data, rest.
  - rewrite CompleteJob_ok by (done || apply layout_no_list_at_meta, Hl).
    cbn [snd up db]. split; [done|]. do 4 right. by exists uuid.
Qed.

(** Where a queued payload was before each change of the key space. *)
Lemma queued_added (job : Job) (data k : string) (i : nat) (u : string)
    (d : gmap string entry) :
  layout d -> queued (addedF job data d) k i u ->
  queued d k i u
  \/ (k = "jobs:" +:+ NormalizeQueryRules (AgentQueryRules job)
      /\ i = length (queue_at k d)
      /\ exists job', json_Unmarshal data = Some job' /\ UUID job' = u).
Proof.
  intros Hl (data' & job' & Hi & HU & Hu). rewrite queue_at_added in Hi by done.
  case_decide as Hk; [|left; by exists data', job'].
  apply lookup_app_Some in Hi as [Hi|[Hlen Hi]]; [left; by exists data', job'|].
  apply list_lookup_singleton_Some in Hi as [Hi <-].
  right. split; [done|]. split; [lia|]. by exists job'.
Qed.

Lemma queued_popped (key k : string) (i : nat) (u : string)
    (d : gmap string entry) :
  queued (popped key d) k i u ->
  queued d k (if decide (k = key) then S i else i) u.
Proof.
  intros (data' & job' & Hi & HU & Hu). rewrite queue_at_popped_any in Hi.
  exists data', job'. split; [|done].
  case_decide; [|done]. by rewrite lookup_tail in Hi.
Qed.

Lemma queued_claimed (key k : string) (job : Job) (i : nat) (u : string)
    (d : gmap string entry) :
  layout d -> queued (claimed key job d) k i u ->
  queued d k (if decide (k = key) then S i else i) u.
Proof.
  intros Hl (data' & job' & Hi & HU & Hu). apply queued_popped.
  rewrite queue_at_claimed in Hi by done. by exists data', job'.
Qed.

Lemma queued_completed (uuid k : string) (i : nat) (u : string)
    (d : gmap string entry) :
  layout d -> queued (completed uuid d) k i u -> queued d k i u.
Proof.
  intros Hl (data' & job' & Hi & HU & Hu).
  rewrite queue_at_completed in Hi by done. by exists data', job'.
Qed.

Lemma rank_closed (status : string) :
  is_Some (rank status)
  <-> status = "reserved" \/ status = "claimed" \/ status = "complete".
Proof.
  unfold rank. split.
  - intros [r Hr]. repeat case_decide; auto; discriminate.
  - intros [->|[->| ->]]; by eexists.
Qed.

Lemma rank_le_2 (status : string) (r : nat) : rank status = Some r -> r <= 2.
Proof. unfold rank. repeat case_decide; intros [= <-]; lia. Qed.

Lemma shifted_inj (k key : string) (i i' : nat) :
  (if decide (k = key) then S i else i) = (if decide (k = key) then S i' else i') ->
  i = i'.
Proof. case_decide; lia. Qed.

(** An allowed operation keeps the index well formed. *)
Lemma well_formed_step (o : op) (s : state) :
  well_formed (db s) -> allowed o s -> well_formed (db (run_op o s)).
Proof.
  intros Hwf Hallowed. destruct (up s) eqn:Hup.
  2:{ by rewrite (proj1 (run_op_down o s Hup)). }
  destruct Hwf as (Hl & Hclosed & Hres & Huniq).
  destruct (run_op_up o s Hup Hl) as [_ Hcases].
  destruct Hcases as
    [->|[(job & data & -> & HM & ->)
        |[(qr & data & rest & -> & Hq & HU & ->)
         |[(qr & data & rest & job & -> & Hq & HU & ->)
          |(uuid & -> & ->)]]]].
  - done.
  - (* AddJob *)
    destruct Hallowed as [Hfresh Hround].
    assert (Hnew : forall u job', json_Unmarshal data = Some job' ->
                                  UUID job' = u -> u = UUID job).
    { intros u job' HU <-. by apply (Hround data). }
    split; [by apply layout_added|]. split; [|split].
    + intros u status. rewrite status_of_added. case_decide; [|apply Hclosed].
      intros [= <-]. by eexists.
    + intros k i u Hk. apply queued_added in Hk; [|done].
      destruct Hk as [Hold|(_ & _ & job' & HU & Hu)].
      * rewrite status_of_added. case_decide; [done|]. by apply (Hres k i).
      * rewrite status_of_added. by rewrite decide_True by eauto.
    + intros k i k' i' u Hk Hk'.
      apply queued_added in Hk; [|done]. apply queued_added in Hk'; [|done].
      destruct Hk as [Hold|(-> & -> & job1 & HU1 & Hu1)];
        destruct Hk' as [Hold'|(-> & -> & job2 & HU2 & Hu2)]; try done.
      * by apply (Huniq k i k' i' u).
      * apply Hres in Hold. rewrite (Hnew u job2) in Hold by done. congruence.
      * apply Hres in Hold'. rewrite (Hnew u job1) in Hold' by done. congruence.
  - (* ClaimJob on a payload that does not decode *)
    split; [by apply layout_popped|]. split; [|split].
    + intros u status. rewrite status_of_popped. apply Hclosed.
    + intros k i u Hk%queued_popped. rewrite status_of_popped. by eapply Hres.
    + intros k i k' i' u Hk%queued_popped Hk'%queued_popped.
      destruct (Huniq _ _ _ _ _ Hk Hk') as [-> Hi]. split; [done|].
      by eapply shifted_inj.
  - (* ClaimJob *)
    assert (Hhead : queued (db s) ("jobs:" +:+ NormalizeQueryRules qr) 0 (UUID job)).
    { exists data, job. by rewrite Hq. }
    split; [by apply layout_claimed|]. split; [|split].
    + intros u status. rewrite status_of_claimed. case_decide; [|apply Hclosed].
      intros [= <-]. by eexists.
    + intros k i u Hk. apply queued_claimed in Hk; [|done].
      rewrite status_of_claimed.
      destruct (decide (u = UUID job)) as [->|Hu]; [|by eapply Hres].
      destruct (Huniq _ _ _ _ _ Hk Hhead) as [-> Hi].
      rewrite decide_True in Hi by done. discriminate.
    + intros k i k' i' u Hk Hk'.
      apply queued_claimed in Hk; [|done]. apply queued_claimed in Hk'; [|done].
      destruct (Huniq _ _ _ _ _ Hk Hk') as [-> Hi]. split; [done|].
      by eapply shifted_inj.
  - (* CompleteJob *)
    cbn [lifecycle.allowed] in Hallowed.
    split; [by apply layout_completed|]. split; [|split].
    + intros u status. rewrite status_of_completed. case_decide; [|apply Hclosed].
      intros [= <-]. by eexists.
    + intros k i u Hk. apply queued_completed in Hk; [|done].
      rewrite status_of_completed. case_decide as Hu; [|by eapply Hres].
      subst u. apply Hres in Hk. congruence.
    + intros k i k' i' u Hk Hk'.
      apply queued_completed in Hk; [|done]. apply queued_completed in Hk'; [|done].
      by eapply Huniq.
Qed.

Lemma never_regresses_refl (u : string) (d : gmap string entry) :
  never_regresses u d d.
Proof. intros status r Hs Hr. exists status, r. by repeat split. Qed.

Lemma never_regresses_trans (u : string) (d1 d2 d3 : gmap string entry) :
  never_regresses u d1 d2 -> never_regresses u d2 d3 -> never_regresses u d1 d3.
Proof.
  intros H12 H23 status r Hs Hr.
  destruct (H12 status r Hs Hr) as (st2 & r2 & Hs2 & Hr2 & Hle).
  destruct (H23 st2 r2 Hs2 Hr2) as (st3 & r3 & Hs3 & Hr3 & Hle').
  exists st3, r3. repeat split; try done. lia.
Qed.

(** An allowed operation on a well-formed index lowers no status. *)
Lemma never_regresses_step (o : op) (s : state) (u : string) :
  well_formed (db s) -> allowed o s ->
  never_regresses u (db s) (db (run_op o s)).
Proof.
  intros Hwf Hallowed. destruct (up s) eqn:Hup.
  2:{ rewrite (proj1 (run_op_down o s Hup)). apply never_regresses_refl. }
  destruct Hwf as (Hl & Hclosed & Hres & Huniq).
  destruct (run_op_up o s Hup Hl) as [_ Hcases].
  destruct Hcases as
    [->|[(job & data & -> & HM & ->)
        |[(qr & data & rest & -> & Hq & HU & ->)
         |[(qr & data & rest & job & -> & Hq & HU & ->)
          |(uuid & -> & ->)]]]];
    intros status r Hs Hr.
  - by exists status, r.
  - destruct Hallowed as [Hfresh _]. rewrite status_of_added.
    case_decide as Hu; [congruence|]. by exists status, r.
  - rewrite status_of_popped. by exists status, r.
  - rewrite status_of_claimed. case_decide as Hu; [|by exists status, r].
    subst u.
    assert (status_of (UUID job) (db s) = Some "reserved") as Hreserved.
    { apply (Hres ("jobs:" +:+ NormalizeQueryRules qr) 0%nat).
      exists data, job. by rewrite Hq. }
    assert (status = "reserved") as -> by congruence.
    exists "claimed", 1%nat. repeat split. injection Hr as <-. lia.
  - rewrite status_of_completed. case_decide as Hu; [|by exists status, r].
    exists "complete", 2%nat. repeat split. by eapply rank_le_2.
Qed.

Lemma run_ops_app (ops1 ops2 : list op) (s : state) :
  run_ops (ops1 ++ ops2) s = run_ops ops2 (run_ops ops1 s).
Proof. apply foldl_app. Qed.

Lemma allowed_ops_app (ops1 ops2 : list op) (s : state) :
  allowed_ops (ops1 ++ ops2) s
  <-> allowed_ops ops1 s /\ allowed_ops ops2 (run_ops ops1 s).
Proof.
  revert s. induction ops1 as [|o ops1 IH]; intros s; simpl; [tauto|].
  rewrite IH. tauto.
Qed.

Lemma well_formed_run (ops : list op) (s : state) :
  well_formed (db s) -> allowed_ops ops s -> well_formed (db (run_ops ops s)).
Proof.
  revert s. induction ops as [|o ops IH]; intros s Hwf Hall; [done|].
  destruct Hall as [Ho Hall]. apply IH; [by apply well_formed_step|done].
Qed.

Lemma never_regresses_run (ops : list op) (s : state) (u : string) :
  well_formed (db s) -> allowed_ops ops s ->
  never_regresses u (db s) (db (run_ops ops s)).
Proof.
  revert s. induction ops as [|o ops IH]; intros s Hwf Hall.
  - apply never_regresses_refl.
  - destruct Hall as [Ho Hall].
    eapply never_regresses_trans; [by apply never_regresses_step|].
    apply IH; [by apply well_formed_step|done].
Qed.

(** Every operation, allowed or not, keeps the layout of the index. *)
Lemma layout_run_op (o : op) (s : state) :
  layout (db s) -> layout (db (run_op o s)).
Proof.
  intros Hl. destruct (up s) eqn:Hup.
  2:{ by rewrite (proj1 (run_op_down o s Hup)). }
  destruct (run_op_up o s Hup Hl) as [_ Hcases].
  destruct Hcases as
    [->|[(job & data & -> & HM & ->)
        |[(qr & data & rest & -> & Hq & HU & ->)
         |[(qr & data & rest & job & -> & Hq & HU & ->)
          |(uuid & -> & ->)]]]].
  - done.
  - by apply layout_added.
  - by apply layout_popped.
  - by apply layout_claimed.
  - by apply layout_completed.
Qed.

Lemma layout_run_ops (ops : list op) (s : state) :
  layout (db s) -> layout (db (run_ops ops s)).
Proof.
  revert s. induction ops as [|o ops IH]; intros s Hl; [done|].
  apply IH. by apply layout_run_op.
Qed.

Lemma well_formed_empty : well_formed ∅.
Proof.
  split; [apply layout_empty|]. split; [|split].
  - intros u status. unfold status_of. by rewrite lookup_empty.
  - intros k i u (data & job & Hi & _). unfold queue_at in Hi.
    by rewrite lookup_empty in Hi.
  - intros k i k' i' u (data & job & Hi & _). unfold queue_at in Hi.
    by rewrite lookup_empty in Hi.
Qed.

(** Time between the operations. *)

Local Abbreviation run_step := (lifecycle.run_step json_Marshal json_Unmarshal Format_RFC3339).
Local Abbreviation run_steps := (lifecycle.run_steps json_Marshal json_Unmarshal Format_RFC3339).
Local Abbreviation allowed_step := (lifecycle.allowed_step json_Marshal json_Unmarshal).
Local Abbreviation allowed_steps :=
  (lifecycle.allowed_steps json_Marshal json_Unmarshal Format_RFC3339).

(** Time in which no record expires changes the times to live only. *)
Lemma lookup_elapse_no_expiry (dt : Z) (s : state) (key : string) :
  no_expiry dt (db s) ->
  db (elapse dt s) !! key
  = (fun e => mkEntry (val e) ((fun t => (t - dt)%Z) <$> ttl e)) <$> db s !! key.
Proof.
  intros Hno. unfold elapse. cbn [db]. rewrite lookup_omap.
  destruct (db s !! key) as [e|] eqn:He; [|done]. cbn. unfold age.
  destruct (ttl e) as [t|] eqn:Ht; [|by destruct e; cbn in *; subst].
  specialize (Hno key e t He Ht). apply Z.ltb_lt in Hno. by rewrite Hno.
Qed.

(** [no_expiry] on a given key space, by running through its records. *)
Lemma no_expiry_records (dt : Z) (d : gmap string entry) :
  forallb (fun kv => match ttl kv.2 with
                     | Some t => (dt <? t)%Z
                     | None => true
                     end) (map_to_list d) = true ->
  no_expiry dt d.
Proof.
  intros Hall key e t He Ht. rewrite forallb_forall in Hall.
  specialize (Hall (key, e)). cbn [snd] in Hall. rewrite Ht in Hall.
  apply Z.ltb_lt, Hall, list_elem_of_In. by apply elem_of_map_to_list.
Qed.

Lemma status_of_wait (dt : Z) (s : state) (u : string) :
  no_expiry dt (db s) -> status_of u (db (elapse dt s)) = status_of u (db s).
Proof.
  intros Hno. unfold status_of. rewrite lookup_elapse_no_expiry by done.
  by destruct (db s !! ("job:" +:+ u)) as [[[l|h] t]|].
Qed.

Lemma queue_at_wait (dt : Z) (s : state) (key : string) :
  no_expiry dt (db s) -> queue_at key (db (elapse dt s)) = queue_at key (db s).
Proof.
  intros Hno. unfold queue_at. rewrite lookup_elapse_no_expiry by done.
  by destruct (db s !! key) as [[[l|h] t]|].
Qed.

Lemma queued_wait (dt : Z) (s : state) (key : string) (i : nat) (u : string) :
  no_expiry dt (db s) ->
  queued (db (elapse dt s)) key i u <-> queued (db s) key i u.
Proof. intros Hno. unfold lifecycle.queued. by rewrite queue_at_wait. Qed.

(** An allowed step keeps the index well formed, and lowers no status. *)
Lemma well_formed_run_step (st : step) (s : state) :
  well_formed (db s) -> allowed_step st s -> well_formed (db (run_step st s)).
Proof.
  destruct st as [o|dt]; cbn [lifecycle.allowed_step lifecycle.run_step].
  - apply well_formed_step.
  - intros (Hl & Hclosed & Hres & Huniq) Hno.
    split; [by apply layout_elapse|]. split; [|split].
    + intros u status. rewrite status_of_wait by done. apply Hclosed.
    + intros k i u Hk%queued_wait; [|done]. rewrite status_of_wait by done.
      by eapply Hres.
    + intros k i k' i' u Hk%queued_wait Hk'%queued_wait; [|done..].
      by eapply Huniq.
Qed.

Lemma never_regresses_run_step (st : step) (s : state) (u : string) :
  well_formed (db s) -> allowed_step st s ->
  never_regresses u (db s) (db (run_step st s)).
Proof.
  destruct st as [o|dt]; cbn [lifecycle.allowed_step lifecycle.run_step].
  - apply never_regresses_step.
  - intros _ Hno status r Hs Hr. exists status, r.
    rewrite status_of_wait by done. by repeat split.
Qed.

Lemma run_steps_app (steps1 steps2 : list step) (s : state) :
  run_steps (steps1 ++ steps2) s = run_steps steps2 (run_steps steps1 s).
Proof. apply foldl_app. Qed.

Lemma allowed_steps_app (steps1 steps2 : list step) (s : state) :
  allowed_steps (steps1 ++ steps2) s
  <-> allowed_steps steps1 s /\ allowed_steps steps2 (run_steps steps1 s).
Proof.
  revert s. induction steps1 as [|st steps1 IH]; intros s; simpl; [tauto|].
  rewrite IH. tauto.
Qed.

Lemma well_formed_run_steps (steps : list step) (s : state) :
  well_formed (db s) -> allowed_steps steps s ->
  well_formed (db (run_steps steps s)).
Proof.
  revert s. induction steps as [|st steps IH]; intros s Hwf Hall; [done|].
  destruct Hall as [Hst Hall]. apply IH; [by apply well_formed_run_step|done].
Qed.

Lemma never_regresses_run_steps (steps : list step) (s : state) (u : string) :
  well_formed (db s) -> allowed_steps steps s ->
  never_regresses u (db s) (db (run_steps steps s)).
Proof.
  revert s. induction steps as [|st steps IH]; intros s Hwf Hall.
  - apply never_regresses_refl.
  - destruct Hall as [Hst Hall].
    eapply never_regresses_trans; [by apply never_regresses_run_step|].
    apply IH; [by apply well_formed_run_step|done].
Qed.

End Lifecycle.

Section LifecycleClaims.
Import types redis storage lifecycle.

Variable json_Marshal : Job -> option string.
Variable json_Unmarshal : string -> option Job.
Variable Format_RFC3339 : Time -> string.



End LifecycleClaims.


(** Without the condition on time the status moves back.  J1 is inserted;
    J2, with the same key, is inserted most of an hour later and refreshes
    the time to live of the queue; after most of another hour the metadata
    of J1 has expired while J1 is still queued.  Every operation that
    follows is allowed: J1 is inserted again, its first copy is claimed and
    J1 is completed, and the two claims that follow hand out J2 and the
    other copy of J1, whose claim sets the status back from complete to
    claimed. *)
Lemma C5_status_expiry_example :
  let run := lifecycle.run_steps example.Marshal example.Unmarshal example.Format in
  let rules := ["queue=default"; "arch=amd64"] in
  let inserts := [lifecycle.Do (lifecycle.OpAddJob example.J1);
                  lifecycle.Wait (time_Hour - 1);
                  lifecycle.Do (lifecycle.OpAddJob example.J2)] in
  let aged := run (inserts ++ [lifecycle.Wait (time_Hour - 1)]) redis.empty in
  let ops := [lifecycle.Do (lifecycle.OpAddJob example.J1);
              lifecycle.Do (lifecycle.OpClaimJob rules);
              lifecycle.Do (lifecycle.OpCompleteJob "j1")] in
  let claims := [lifecycle.Do (lifecycle.OpClaimJob rules);
                 lifecycle.Do (lifecycle.OpClaimJob rules)] in
  lifecycle.allowed_steps example.Marshal example.Unmarshal example.Format
    inserts redis.empty
  /\ ~ lifecycle.no_expiry (time_Hour - 1) (redis.db (run inserts redis.empty))
  /\ lifecycle.allowed_steps example.Marshal example.Unmarshal example.Format
       (ops ++ claims) aged
  /\ lifecycle.status_of "j1" (redis.db (run ops aged)) = Some "complete"
  /\ lifecycle.status_of "j1" (redis.db (run (ops ++ claims) aged)) = Some "claimed".
Proof.
  cbv zeta. split; [|split; [|split; [|split]]].
  - repeat split.
    + intros data job' [= <-] HU. vm_compute in HU. by injection HU as <-.
    + apply no_expiry_records. vm_compute. reflexivity.
    + intros data job' [= <-] HU. vm_compute in HU. by injection HU as <-.
  - intros Hno. specialize (Hno ("job:" +:+ "j1")).
    destruct (redis.db _ !! ("job:" +:+ "j1")) as [[v [t|]]|] eqn:He;
      vm_compute in He; try discriminate.
    injection He as _ <-.
    specialize (Hno _ _ eq_refl eq_refl). vm_compute in Hno. discriminate.
  - repeat split.
    + intros data job' [= <-] HU. vm_compute in HU. by injection HU as <-.
    + vm_compute. discriminate.
  - vm_compute. reflexivity.
  - vm_compute. reflexivity.
Qed.

Lemma ClaimJob_after_expiry_witness :
  (storage.ClaimJob example.Unmarshal (types.AgentQueryRules example.J1)
     (redis.elapse time_Hour
        (storage.AddJob example.Marshal example.Format example.J1 redis.empty).2)).1
  = Ok None.
Proof.
  apply (ClaimJob_after_expiry example.Marshal example.Unmarshal example.Format
           redis.empty example.J1 "j1|default|queue=default,arch=amd64" time_Hour).
  - reflexivity.
  - apply layout_empty.
  - reflexivity.
  - vm_compute. discriminate.
Defined.

(** * Further properties of the code *)

(** ** The normaliser as a key *)

Section NormaliserKey.
Import GoStrings types.

(** Rules without the separator read back sorted. *)
Lemma ParseQueryRules_NormalizeQueryRules (x : list string) :
  Forall (fun r => ContainsByte r "," = false) x -> x <> [""] ->
  ParseQueryRules (NormalizeQueryRules x) = sort_Strings x.
Proof.
  intros Hcomma Hne. unfold NormalizeQueryRules, ParseQueryRules.
  destruct x as [|r x']; [reflexivity|].
  set (x := r :: x') in *.
  destruct (decide (length x = 0%nat)) as [Hlen|_]; [discriminate|].
  assert (Hperm := sort_Strings_Permutation x).
  assert (Hnil : sort_Strings x <> []).
  { intros Hs. rewrite Hs in Hperm. apply Permutation_nil_l in Hperm. discriminate. }
  destruct (decide (Join (sort_Strings x) "," = "")) as [Hj|_].
  - apply Join_eq_empty in Hj as [Hs|Hs]; [done|].
    rewrite Hs in Hperm. apply Permutation_singleton_l in Hperm. congruence.
  - apply Split_Join; [done|]. by rewrite Hperm.
Qed.

(** The key tells the rule sets apart: two lists of comma-free rules with
    the same key are permutations of each other. *)
Theorem NormalizeQueryRules_same_key (x y : list string) :
  Forall (fun r => ContainsByte r "," = false) x ->
  Forall (fun r => ContainsByte r "," = false) y ->
  x <> [""] -> y <> [""] ->
  NormalizeQueryRules x = NormalizeQueryRules y ->
  x ≡ₚ y.
Proof.
  intros Hx Hy Hnx Hny Heq.
  rewrite <- (sort_Strings_Permutation x), <- (sort_Strings_Permutation y).
  rewrite <- (ParseQueryRules_NormalizeQueryRules x) by done.
  rewrite <- (ParseQueryRules_NormalizeQueryRules y) by done.
  by rewrite Heq.
Qed.

(** A key is its own normal form: parsing a key made of comma-free rules and
    normalising the result gives the key back. *)
Theorem NormalizeQueryRules_ParseQueryRules (x : list string) :
  Forall (fun r => ContainsByte r "," = false) x ->
  NormalizeQueryRules (ParseQueryRules (NormalizeQueryRules x))
  = NormalizeQueryRules x.
Proof.
  intros Hx. destruct (decide (x = [""])) as [->|Hne]; [reflexivity|].
  rewrite ParseQueryRules_NormalizeQueryRules by done.
  apply NormalizeQueryRules_perm, sort_Strings_Permutation.
Qed.

End NormaliserKey.

Lemma NormalizeQueryRules_same_key_witness :
  ["queue=default"; "arch=amd64"] ≡ₚ ["arch=amd64"; "queue=default"].
Proof.
  apply (NormalizeQueryRules_same_key
           ["queue=default"; "arch=amd64"] ["arch=amd64"; "queue=default"]);
    first [ reflexivity | discriminate | repeat constructor ].
Defined.

Lemma NormalizeQueryRules_ParseQueryRules_witness :
  types.NormalizeQueryRules
    (types.ParseQueryRules (types.NormalizeQueryRules ["queue=default"; "arch=amd64"]))
  = types.NormalizeQueryRules ["queue=default"; "arch=amd64"].
Proof.
  apply (NormalizeQueryRules_ParseQueryRules ["queue=default"; "arch=amd64"]).
  repeat constructor.
Defined.

(** ** From the query parameter to the claim *)

Section WireFormat.
Import GoStrings types redis storage server.

Variable json_Unmarshal : string -> option Job.

(** What [handleGetJob] answers to the result of [ClaimJob]. *)
Definition claim_response (r : result (option Job)) : response :=
  match r with
  | Err _ => mkResponse StatusInternalServerError (Text "internal server error")
  | Ok None => mkResponse StatusNoContent NoBody
  | Ok (Some job) => mkResponse StatusOK (JobJSON job)
  end.

Lemma ClaimJob_perm (rules rules' : list string) (s : state) :
  rules ≡ₚ rules' ->
  ClaimJob json_Unmarshal rules s = ClaimJob json_Unmarshal rules' s.
Proof.
  intros Hp. unfold ClaimJob. by rewrite (NormalizeQueryRules_perm _ _ Hp).
Qed.

Lemma map_fixed {A} (f : A -> A) (l : list A) :
  Forall (fun a => f a = a) l -> map f l = l.
Proof. induction 1 as [|a l Ha _ IH]; simpl; congruence. Qed.

Lemma Join_not_empty_perm (rules : list string) :
  NormalizeQueryRules rules <> "" -> rules <> [] /\ rules <> [""].
Proof. intros H. split; intros ->; by apply H. Qed.

(** The handler reads a key back as the rules in ascending order. *)
Lemma Split_normalized (rules : list string) :
  Forall (fun r => ContainsByte r "," = false) rules ->
  Forall (fun r => TrimSpace r = r) rules ->
  NormalizeQueryRules rules <> "" ->
  map TrimSpace (Split (NormalizeQueryRules rules) ",") = sort_Strings rules.
Proof.
  intros Hcomma Htrim Hne.
  destruct (Join_not_empty_perm rules Hne) as [Hnil Hone].
  pose proof (ParseQueryRules_NormalizeQueryRules rules Hcomma Hone) as Hparse.
  unfold ParseQueryRules in Hparse. rewrite decide_False in Hparse by done.
  rewrite Hparse. apply map_fixed.
  by rewrite sort_Strings_Permutation.
Qed.

(** A query that is not empty is split, trimmed and claimed. *)
Lemma handleGetJob_claims (queryParam : string) (s : state) :
  queryParam <> "" ->
  handleGetJob json_Unmarshal queryParam s
  = (claim_response
       (ClaimJob json_Unmarshal (map TrimSpace (Split queryParam ",")) s).1,
     (ClaimJob json_Unmarshal (map TrimSpace (Split queryParam ",")) s).2).
Proof.
  intros Hne. unfold handleGetJob. rewrite decide_False by done.
  by destruct (ClaimJob json_Unmarshal _ s) as [[[job|]|e] s'].
Qed.


End WireFormat.


(** ** The metadata record over a job's life, and over time *)

Section Metadata.
Import types redis storage.

Variable json_Marshal : Job -> option string.
Variable json_Unmarshal : string -> option Job.
Variable Format_RFC3339 : Time -> string.

Local Abbreviation AddJob := (storage.AddJob json_Marshal Format_RFC3339).
Local Abbreviation ClaimJob := (storage.ClaimJob json_Unmarshal).
Local Abbreviation added := (storage.added Format_RFC3339).
Local Abbreviation reserved_fields := (storage.reserved_fields Format_RFC3339).

Lemma lookup_added_meta (job : Job) (data : string) (d : gmap string entry) :
  added job data d !! ("job:" +:+ UUID job)
  = Some (mkEntry (VHash (hset_fields (reserved_fields job)
                            (hash_at ("job:" +:+ UUID job) d)))
                  (Some (1 * time_Hour)%Z)).
Proof. unfold storage.added. apply lookup_insert_eq. Qed.

Lemma lookup_added_queue (job : Job) (data : string) (d : gmap string entry) :
  added job data d !! ("jobs:" +:+ NormalizeQueryRules (AgentQueryRules job))
  = Some (mkEntry (VList (queue_at ("jobs:" +:+ NormalizeQueryRules (AgentQueryRules job)) d
                          ++ [data]))
                  (Some (1 * time_Hour)%Z)).
Proof.
  unfold storage.added.
  rewrite lookup_insert_ne by (apply not_eq_sym, queue_key_ne_meta_key).
  apply lookup_insert_eq.
Qed.

Lemma lookup_added_other_meta (job : Job) (data uuid : string)
    (d : gmap string entry) :
  uuid <> UUID job ->
  added job data d !! ("job:" +:+ uuid) = d !! ("job:" +:+ uuid).
Proof.
  intros Hne. unfold storage.added.
  rewrite lookup_insert_ne by (intros H; by apply meta_key_inj in H).
  by rewrite lookup_insert_ne by apply queue_key_ne_meta_key.
Qed.

(** What the fields [AddJob] writes read as. *)
Lemma reserved_fields_lookup (job : Job) (h : gmap string string) :
  let h' := hset_fields (reserved_fields job) h in
  h' !! "queue_key" = Some (QueueKey job)
  /\ h' !! "query_rules" = Some (NormalizeQueryRules (AgentQueryRules job))
  /\ h' !! "reserved_at" = Some (Format_RFC3339 (ReservedAt job))
  /\ h' !! "status" = Some "reserved".
Proof.
  cbv zeta. unfold hset_fields, storage.reserved_fields. cbn [foldl fst snd].
  repeat split.
  - do 3 (rewrite lookup_insert_ne by discriminate). apply lookup_insert_eq.
  - do 2 (rewrite lookup_insert_ne by discriminate). apply lookup_insert_eq.
  - rewrite lookup_insert_ne by discriminate. apply lookup_insert_eq.
  - apply lookup_insert_eq.
Qed.

Lemma elapse_alive (dt t : Z) (key : string) (v : value) (s : state) :
  db s !! key = Some (mkEntry v (Some t)) -> (dt < t)%Z ->
  db (elapse dt s) !! key = Some (mkEntry v (Some (t - dt)%Z)).
Proof.
  intros H Hlt. simpl. rewrite lookup_omap, H. simpl. unfold age. simpl.
  destruct (Z.ltb_spec dt t); [done|lia].
Qed.

Lemma elapse_absent (dt : Z) (key : string) (s : state) :
  db s !! key = None -> db (elapse dt s) !! key = None.
Proof. intros H. simpl. by rewrite lookup_omap, H. Qed.

Lemma hash_at_popped_meta (uuid normalized : string) (d : gmap string entry) :
  hash_at ("job:" +:+ uuid) (popped ("jobs:" +:+ normalized) d)
  = hash_at ("job:" +:+ uuid) d.
Proof.
  unfold hash_at. by rewrite lookup_popped_ne by apply queue_key_ne_meta_key.
Qed.

Lemma ttl_at_popped_meta (uuid normalized : string) (d : gmap string entry) :
  ttl_at ("job:" +:+ uuid) (popped ("jobs:" +:+ normalized) d)
  = ttl_at ("job:" +:+ uuid) d.
Proof.
  unfold ttl_at. by rewrite lookup_popped_ne by apply queue_key_ne_meta_key.
Qed.

Lemma popped_last (key data : string) (d : gmap string entry) :
  queue_at key d = [data] -> popped key d !! key = None.
Proof. intros Hq. unfold popped. rewrite Hq. apply lookup_delete_eq. Qed.

(** The life of one job.  On a reachable store where its capability key
    holds no job, a job is inserted, claimed with its own rules and
    completed: the claim returns it, and its metadata record ends with
    status [complete], still holds the queue key, the normalised rules and
    the reservation time that [AddJob] wrote, and still has the time to live
    set at the insert; its queue is gone. *)
Theorem job_life (s : state) (job job' : Job) (data : string) :
  up s = true -> layout (db s) ->
  queue_at ("jobs:" +:+ NormalizeQueryRules (AgentQueryRules job)) (db s) = [] ->
  json_Marshal job = Some data ->
  json_Unmarshal data = Some job' -> UUID job' = UUID job ->
  let s1 := (AddJob job s).2 in
  let s2 := (ClaimJob (AgentQueryRules job) s1).2 in
  let s3 := (CompleteJob (UUID job) s2).2 in
  (AddJob job s).1 = Ok tt
  /\ (ClaimJob (AgentQueryRules job) s1).1 = Ok (Some job')
  /\ (CompleteJob (UUID job) s2).1 = Ok tt
  /\ db s3 !! ("jobs:" +:+ NormalizeQueryRules (AgentQueryRules job)) = None
  /\ exists h,
       db s3 !! ("job:" +:+ UUID job)
       = Some (mkEntry (VHash h) (Some (1 * time_Hour)%Z))
       /\ h !! "status" = Some "complete"
       /\ h !! "queue_key" = Some (QueueKey job)
       /\ h !! "query_rules" = Some (NormalizeQueryRules (AgentQueryRules job))
       /\ h !! "reserved_at" = Some (Format_RFC3339 (ReservedAt job)).
Proof.
  intros Hup Hl Hq HM HU Huuid. cbv zeta.
  set (K := "jobs:" +:+ NormalizeQueryRules (AgentQueryRules job)) in *.
  set (meta := "job:" +:+ UUID job).
  rewrite (AddJob_ok _ _ job data s) by done. cbn [fst snd].
  set (s1 := mkState (added job data (db s)) _ _).
  assert (Hl1 : layout (db s1)) by (by apply layout_added).
  assert (Hq1 : queue_at K (db s1) = [data]).
  { unfold s1. cbn [db]. rewrite queue_at_added by done.
    fold K. rewrite decide_True by done. by rewrite Hq. }
  rewrite (ClaimJob_head _ (AgentQueryRules job) data [] job' s1) by done.
  cbn [fst snd]. fold K. rewrite Huuid. fold meta.
  set (s2 := mkState (claimed K job' (db s1)) _ _).
  assert (Hl2 : layout (db s2)) by (by apply layout_claimed).
  rewrite CompleteJob_ok by (done || apply layout_no_list_at_meta, Hl2).
  cbn [fst snd db]. repeat split.
  - unfold completed. fold meta.
    rewrite lookup_insert_ne by (apply not_eq_sym, queue_key_ne_meta_key).
    unfold s2. cbn [db]. unfold claimed. rewrite Huuid. fold meta.
    rewrite lookup_insert_ne by (apply not_eq_sym, queue_key_ne_meta_key).
    by apply (popped_last K data).
  - assert (Hm1 : db s1 !! meta
             = Some (mkEntry (VHash (hset_fields (reserved_fields job)
                                       (hash_at meta (db s))))
                             (Some (1 * time_Hour)%Z)))
      by apply lookup_added_meta.
    assert (Hm2 : db s2 !! meta
             = Some (mkEntry (VHash (<["status" := "claimed"]>
                                       (hset_fields (reserved_fields job)
                                          (hash_at meta (db s)))))
                             (Some (1 * time_Hour)%Z))).
    { unfold s2. cbn [db]. unfold claimed. rewrite Huuid. fold meta.
      rewrite lookup_insert_eq. unfold K, meta.
      rewrite hash_at_popped_meta, ttl_at_popped_meta.
      unfold hash_at, ttl_at. fold meta. by rewrite Hm1. }
    eexists. split.
    + unfold completed. fold meta. rewrite lookup_insert_eq.
      unfold hash_at, ttl_at. rewrite Hm2. reflexivity.
    + destruct (reserved_fields_lookup job (hash_at meta (db s)))
        as (Hqk & Hqr & Hra & _).
      cbv zeta in Hqk, Hqr, Hra.
      repeat split.
      * apply lookup_insert_eq.
      * by do 2 (rewrite lookup_insert_ne by discriminate).
      * by do 2 (rewrite lookup_insert_ne by discriminate).
      * by do 2 (rewrite lookup_insert_ne by discriminate).
Qed.

(** An insert keeps the whole queue alive, not the metadata of the jobs
    already in it.  Job [A] is inserted; after a delay [dt1] job [B] is
    inserted under the same key; after a further delay [dt2] a worker
    claims.  When each delay is under an hour but together they reach it,
    the metadata record of [A] has expired while [A] is still queued ahead
    of [B]; the claim returns [A] and writes a record for it that holds only
    [status = claimed] and has no time to live. *)
Theorem stale_metadata_after_refresh (s : state) (A A' B : Job)
    (dataA dataB : string) (dt1 dt2 : Z) :
  up s = true -> layout (db s) ->
  NormalizeQueryRules (AgentQueryRules B) = NormalizeQueryRules (AgentQueryRules A) ->
  UUID A <> UUID B ->
  queue_at ("jobs:" +:+ NormalizeQueryRules (AgentQueryRules A)) (db s) = [] ->
  json_Marshal A = Some dataA -> json_Marshal B = Some dataB ->
  json_Unmarshal dataA = Some A' -> UUID A' = UUID A ->
  (dt1 < 1 * time_Hour)%Z -> (dt2 < 1 * time_Hour)%Z ->
  (1 * time_Hour <= dt1 + dt2)%Z ->
  let s1 := elapse dt1 (AddJob A s).2 in
  let s2 := elapse dt2 (AddJob B s1).2 in
  db s2 !! ("job:" +:+ UUID A) = None
  /\ queue_at ("jobs:" +:+ NormalizeQueryRules (AgentQueryRules A)) (db s2)
     = [dataA; dataB]
  /\ (ClaimJob (AgentQueryRules A) s2).1 = Ok (Some A')
  /\ forall dt,
       db (elapse dt (ClaimJob (AgentQueryRules A) s2).2) !! ("job:" +:+ UUID A)
       = Some (mkEntry (VHash {["status" := "claimed"]}) None).
Proof.
  intros Hup Hl HkB Hne Hq HMA HMB HUA Huuid Hdt1 Hdt2 Hsum. cbv zeta.
  set (K := "jobs:" +:+ NormalizeQueryRules (AgentQueryRules A)) in *.
  set (meta := "job:" +:+ UUID A).
  rewrite (AddJob_ok _ _ A dataA s) by done. cbn [snd].
  set (sA := mkState (added A dataA (db s)) _ _).
  assert (HmA : db sA !! meta = Some (mkEntry
            (VHash (hset_fields (reserved_fields A) (hash_at meta (db s))))
            (Some (1 * time_Hour)%Z))) by apply lookup_added_meta.
  assert (HqA : db sA !! K = Some (mkEntry (VList [dataA]) (Some (1 * time_Hour)%Z))).
  { unfold sA. cbn [db]. unfold K. rewrite lookup_added_queue. fold K.
    by rewrite Hq. }
  set (s1 := elapse dt1 sA).
  assert (Hl1 : layout (db s1)) by (by apply layout_elapse, layout_added).
  assert (Hm1 : db s1 !! meta = Some (mkEntry
            (VHash (hset_fields (reserved_fields A) (hash_at meta (db s))))
            (Some (1 * time_Hour - dt1)%Z))) by (by apply elapse_alive).
  assert (Hq1 : queue_at K (db s1) = [dataA]).
  { unfold queue_at. unfold s1. by erewrite elapse_alive by (exact HqA || exact Hdt1). }
  rewrite (AddJob_ok _ _ B dataB s1) by done. cbn [snd].
  set (sB := mkState (added B dataB (db s1)) _ _).
  assert (HmB : db sB !! meta = Some (mkEntry
            (VHash (hset_fields (reserved_fields A) (hash_at meta (db s))))
            (Some (1 * time_Hour - dt1)%Z))).
  { unfold sB. cbn [db]. unfold meta. rewrite lookup_added_other_meta by done.
    exact Hm1. }
  assert (HqB : db sB !! K
                = Some (mkEntry (VList [dataA; dataB]) (Some (1 * time_Hour)%Z))).
  { unfold sB. cbn [db]. unfold K. rewrite <- HkB. rewrite lookup_added_queue.
    rewrite HkB. fold K. by rewrite Hq1. }
  set (s2 := elapse dt2 sB).
  assert (Hl2 : layout (db s2)) by (by apply layout_elapse, layout_added).
  assert (Hm2 : db s2 !! meta = None).
  { apply (elapse_expired dt2 (1 * time_Hour - dt1) meta _ sB HmB). lia. }
  assert (Hq2 : queue_at K (db s2) = [dataA; dataB]).
  { unfold queue_at. unfold s2. by erewrite elapse_alive by (exact HqB || exact Hdt2). }
  split; [exact Hm2|]. split; [exact Hq2|].
  rewrite (ClaimJob_head _ (AgentQueryRules A) dataA [dataB] A' s2) by done.
  cbn [fst snd]. split; [done|]. intros dt.
  apply elapse_persistent. cbn [db]. unfold claimed. rewrite Huuid. fold meta K.
  rewrite lookup_insert_eq. unfold K, meta.
  rewrite hash_at_popped_meta, ttl_at_popped_meta. fold meta.
  unfold hash_at, ttl_at. rewrite Hm2. by rewrite insert_empty.
Qed.

(** [CompleteJob] writes one field of one record: every queue, every other
    key, the other fields of the record and its time to live are as
    before. *)
Theorem CompleteJob_frame (s : state) (uuid : string) :
  up s = true -> layout (db s) ->
  let s' := (CompleteJob uuid s).2 in
  (forall key, key <> "job:" +:+ uuid -> db s' !! key = db s !! key)
  /\ (forall key, queue_at key (db s') = queue_at key (db s))
  /\ (forall field, field <> "status" ->
        hash_at ("job:" +:+ uuid) (db s') !! field
        = hash_at ("job:" +:+ uuid) (db s) !! field)
  /\ ttl_at ("job:" +:+ uuid) (db s') = ttl_at ("job:" +:+ uuid) (db s).
Proof.
  intros Hup Hl. cbv zeta.
  rewrite CompleteJob_ok by (done || apply layout_no_list_at_meta, Hl).
  cbn [snd db]. repeat split.
  - intros key Hne. unfold completed. by rewrite lookup_insert_ne.
  - intros key. by apply queue_at_completed.
  - intros field Hne. unfold completed. unfold hash_at at 1.
    rewrite lookup_insert_eq. by rewrite lookup_insert_ne.
  - unfold completed. unfold ttl_at at 1. by rewrite lookup_insert_eq.
Qed.

End Metadata.

(** ** Queue lengths *)

Section Stats.
Import types redis storage stats.

Lemma prefix_jobs (key : string) :
  String.prefix "jobs:" key = true <-> exists normalized, key = "jobs:" +:+ normalized.
Proof.
  split.
  - intros H.
    do 5 (destruct key as [|? key]; [discriminate|];
          cbn [String.prefix] in H;
          match type of H with
          | context [ascii_dec ?a ?b] => destruct (ascii_dec a b); [subst|discriminate]
          end).
    by exists key.
  - intros [normalized ->].
    change ("jobs:" +:+ normalized)
      with (String "j" (String "o" (String "b" (String "s" (String ":" normalized))))).
    cbn [String.prefix].
    repeat (match goal with
            | |- context [ascii_dec ?a ?b] => destruct (ascii_dec a b); [|done]
            end).
    by destruct normalized.
Qed.

Lemma slice_from_jobs (normalized : string) :
  slice_from 5 ("jobs:" +:+ normalized) = Some normalized.
Proof. reflexivity. Qed.

Lemma jobs_key_inj (n n' : string) : "jobs:" +:+ n = "jobs:" +:+ n' -> n = n'.
Proof. intros H. by injection H. Qed.

Lemma query_up {A} (run : gmap string entry -> result A) (s : state) :
  up s = true -> query run s = (run (db s), s).
Proof. intros Hup. unfold query. by rewrite Hup. Qed.

(** The keys KEYS lists: those that exist and have the prefix. *)
Lemma elem_of_keys (prefix key : string) (d : gmap string entry) :
  key ∈ List.filter (String.prefix prefix) (map_to_list d).*1
  <-> String.prefix prefix key = true /\ is_Some (d !! key).
Proof.
  rewrite list_elem_of_In, filter_In, <- list_elem_of_In, list_elem_of_fmap.
  split.
  - intros [([k e] & -> & He%elem_of_map_to_list) Hp]. by eauto.
  - intros [Hp [e He]]. split; [|done]. exists (key, e). split; [done|].
    by apply elem_of_map_to_list.
Qed.

(** What LLEN measures. *)
Definition measured (key : string) (d : gmap string entry) : option Z :=
  match llen key d with
  | Ok len => Some len
  | Err _ => None
  end.

(** The loop of [GetAllStats] over keys that all start with [jobs:]: no
    panic, the store as it was, and an entry for each listed key that LLEN
    can measure. *)
Lemma GetAllStats_loop (keys : list string) (stats0 : gmap string Z) (s : state) :
  up s = true ->
  Forall (fun key => exists normalized, key = "jobs:" +:+ normalized) keys ->
  exists stats,
    foldl GetAllStats_step (Some stats0, s) keys = (Some stats, s)
    /\ forall n,
         stats !! n
         = if decide ("jobs:" +:+ n ∈ keys)
           then match measured ("jobs:" +:+ n) (db s) with
                | Some len => Some len
                | None => stats0 !! n
                end
           else stats0 !! n.
Proof.
  intros Hup. revert stats0.
  induction keys as [|key keys IH]; intros stats0 Hkeys.
  - exists stats0. split; [done|]. intros n. rewrite decide_False; [done|].
    apply not_elem_of_nil.
  - inversion Hkeys as [|? ? [k ->] Hrest]; subst.
    cbn [foldl GetAllStats_step]. unfold LLen. rewrite query_up by done.
    destruct (llen ("jobs:" +:+ k) (db s)) as [len|e] eqn:Hlen.
    + rewrite slice_from_jobs.
      destruct (IH (<[k := len]> stats0) Hrest) as (stats & Hfold & Hlook).
      exists stats. split; [done|]. intros n. rewrite Hlook.
      destruct (decide ("jobs:" +:+ n ∈ keys)) as [Hin|Hnin].
      * rewrite decide_True by (by right).
        destruct (measured ("jobs:" +:+ n) (db s)) as [z|] eqn:Hm; [done|].
        rewrite lookup_insert_ne; [done|]. intros ->.
        unfold measured in Hm. by rewrite Hlen in Hm.
      * destruct (decide (k = n)) as [->|Hkn].
        -- rewrite decide_True by (by left). unfold measured. rewrite Hlen.
           apply lookup_insert_eq.
        -- rewrite decide_False.
           ++ by rewrite lookup_insert_ne.
           ++ intros [Heq|Hin]%elem_of_cons; [|done].
              by apply jobs_key_inj in Heq.
    + destruct (IH stats0 Hrest) as (stats & Hfold & Hlook).
      exists stats. split; [done|]. intros n. rewrite Hlook.
      destruct (decide ("jobs:" +:+ n ∈ keys)) as [Hin|Hnin].
      * by rewrite decide_True by (by right).
      * destruct (decide (k = n)) as [->|Hkn].
        -- rewrite decide_True by (by left). unfold measured. by rewrite Hlen.
        -- rewrite decide_False; [done|].
           intros [Heq|Hin]%elem_of_cons; [|done].
           by apply jobs_key_inj in Heq.
Qed.

Lemma GetAllStats_up (s : state) :
  up s = true ->
  exists stats,
    GetAllStats s = (Some (Ok stats), s)
    /\ forall n, stats !! n = queue_len n (db s).
Proof.
  intros Hup. unfold GetAllStats, Keys. rewrite query_up by done. unfold keys.
  set (ks := List.filter (String.prefix "jobs:") (map_to_list (db s)).*1).
  destruct (GetAllStats_loop ks ∅ s Hup) as (stats & Hfold & Hlook).
  { apply Forall_forall. intros key [Hp _]%elem_of_keys. by apply prefix_jobs. }
  rewrite Hfold. exists stats. split; [done|]. intros n. rewrite Hlook.
  unfold queue_len, measured, llen.
  destruct (decide ("jobs:" +:+ n ∈ ks)) as [[_ [e He]]%elem_of_keys|Hnin].
  - rewrite He. by destruct e as [[l|h] t].
  - rewrite lookup_empty.
    destruct (db s !! ("jobs:" +:+ n)) as [e|] eqn:He; [|done].
    destruct Hnin. apply elem_of_keys. split; [|by eexists].
    apply prefix_jobs. by eexists.
Qed.

(** [GetAllStats] on a reachable store never panics, leaves the store as it
    is, and returns a map with, for each capability key that holds a list,
    the length of that list, and nothing else; [GetQueueStats] returns the
    same number for such a key, and 0 for a key that does not exist. *)
Theorem GetAllStats_lengths (s : state) :
  up s = true ->
  (exists stats,
     GetAllStats s = (Some (Ok stats), s)
     /\ forall n, stats !! n = queue_len n (db s))
  /\ (forall n len, queue_len n (db s) = Some len -> GetQueueStats n s = (Ok len, s))
  /\ (forall n, db s !! ("jobs:" +:+ n) = None -> GetQueueStats n s = (Ok 0%Z, s)).
Proof.
  intros Hup. split; [|split].
  - by apply GetAllStats_up.
  - intros n len Hlen. unfold GetQueueStats, LLen. rewrite query_up by done.
    unfold queue_len in Hlen. unfold llen.
    destruct (db s !! ("jobs:" +:+ n)) as [[[l|h] t]|]; congruence.
  - intros n Habs. unfold GetQueueStats, LLen. rewrite query_up by done.
    unfold llen. by rewrite Habs.
Qed.

(** [int64] arithmetic. *)
Lemma int64_small (z : Z) : (- 2 ^ 63 <= z < 2 ^ 63)%Z -> int64 z = z.
Proof. intros Hz. unfold int64. rewrite Z.mod_small; lia. Qed.

Lemma int64_add_l (a b : Z) : int64 (int64 a + b) = int64 (a + b).
Proof.
  unfold int64. f_equal.
  replace ((a + 2 ^ 63) mod 2 ^ 64 - 2 ^ 63 + b + 2 ^ 63)%Z
    with ((a + 2 ^ 63) mod 2 ^ 64 + b)%Z by lia.
  rewrite Zplus_mod_idemp_l. f_equal. lia.
Qed.

Lemma sum_of_insert_fresh (stats : gmap string Z) (n : string) (count : Z) :
  stats !! n = None -> sum_of (<[n := count]> stats) = (sum_of stats + count)%Z.
Proof.
  intros Hn. unfold sum_of. rewrite map_fold_insert_L; [done| |done].
  intros. lia.
Qed.

Lemma sum_of_delete (stats : gmap string Z) (n : string) (count : Z) :
  stats !! n = Some count -> sum_of (delete n stats) = (sum_of stats - count)%Z.
Proof.
  intros Hn. unfold sum_of.
  rewrite (map_fold_delete_L _ _ n count stats); [lia| |done].
  intros. lia.
Qed.

Lemma sum_of_insert (stats : gmap string Z) (n : string) (old count : Z) :
  stats !! n = Some old ->
  sum_of (<[n := count]> stats) = (sum_of stats - old + count)%Z.
Proof.
  intros Hn. rewrite <- insert_delete_eq.
  rewrite sum_of_insert_fresh by apply lookup_delete_eq.
  by rewrite (sum_of_delete _ _ old).
Qed.

(** The total [handleStats] reports is the sum of the counts, as an
    [int64]. *)
Lemma total_of_sum (stats : gmap string Z) : total_of stats = int64 (sum_of stats).
Proof.
  induction stats as [|n count stats Hn IH] using map_ind.
  - reflexivity.
  - rewrite sum_of_insert_fresh by done. unfold total_of.
    rewrite map_fold_insert_L; [|intros; rewrite !int64_add_l; f_equal; lia|done].
    fold (total_of stats). rewrite IH. apply int64_add_l.
Qed.

Lemma handleStats_up (s : state) :
  up s = true ->
  exists queues,
    handleStats s = (Some (server.StatusOK, StatsJSON queues (total_of queues)), s)
    /\ forall n, queues !! n = queue_len n (db s).
Proof.
  intros Hup. destruct (GetAllStats_up s Hup) as (stats & HG & Hlook).
  exists stats. split; [|done]. unfold handleStats. by rewrite HG.
Qed.

Lemma queue_len_queue_at (n : string) (d : gmap string entry) :
  layout d ->
  default 0%Z (queue_len n d) = Z.of_nat (length (queue_at ("jobs:" +:+ n) d)).
Proof.
  intros Hl. unfold queue_len, queue_at.
  destruct (d !! ("jobs:" +:+ n)) as [[[l|h] t]|] eqn:Hk; try done.
Qed.

Lemma queue_len_insert_meta (n uuid : string) (e : entry) (d : gmap string entry) :
  queue_len n (<["job:" +:+ uuid := e]> d) = queue_len n d.
Proof.
  unfold queue_len. by rewrite lookup_insert_ne by (apply not_eq_sym, queue_key_ne_meta_key).
Qed.

Section WithCodec.

Variable json_Marshal : Job -> option string.
Variable json_Unmarshal : string -> option Job.
Variable Format_RFC3339 : Time -> string.

Lemma queue_len_added (m : string) (job : Job) (data : string)
    (d : gmap string entry) :
  queue_len m (added Format_RFC3339 job data d)
  = if decide (m = NormalizeQueryRules (AgentQueryRules job))
    then Some (Z.of_nat (length (queue_at ("jobs:" +:+ m) d)) + 1)%Z
    else queue_len m d.
Proof.
  unfold added. rewrite queue_len_insert_meta. unfold queue_len.
  case_decide as Hm.
  - subst m. rewrite lookup_insert_eq. rewrite length_app. simpl. f_equal. lia.
  - by rewrite lookup_insert_ne by (intros H; by apply jobs_key_inj in H).
Qed.

Lemma queue_len_claimed (m n data : string) (rest : list string) (job : Job)
    (d : gmap string entry) :
  queue_at ("jobs:" +:+ n) d = data :: rest ->
  queue_len m (claimed ("jobs:" +:+ n) job d)
  = if decide (m = n)
    then match rest with
         | [] => None
         | _ :: _ => Some (Z.of_nat (length rest))
         end
    else queue_len m d.
Proof.
  intros Hq. unfold claimed. rewrite queue_len_insert_meta.
  unfold queue_len, popped. rewrite Hq. case_decide as Hm.
  - subst m. destruct rest as [|y rest].
    + by rewrite lookup_delete_eq.
    + by rewrite lookup_insert_eq.
  - destruct rest as [|y rest].
    + by rewrite lookup_delete_ne by (intros H; by apply jobs_key_inj in H).
    + by rewrite lookup_insert_ne by (intros H; by apply jobs_key_inj in H).
Qed.

(** An insert shows in the statistics: on a reachable store, after a
    successful [AddJob] the count of the job's capability key is one more
    (one, if the key was not listed) and so is the total; the other counts
    are as before. *)
Theorem handleStats_after_AddJob (s : state) (job : Job) (data : string) :
  up s = true -> layout (db s) -> json_Marshal job = Some data ->
  let n := NormalizeQueryRules (AgentQueryRules job) in
  let s' := (AddJob json_Marshal Format_RFC3339 job s).2 in
  exists queues,
    handleStats s = (Some (server.StatusOK, StatsJSON queues (total_of queues)), s)
    /\ handleStats s'
       = (Some (server.StatusOK,
                StatsJSON (<[n := (default 0 (queues !! n) + 1)%Z]> queues)
                          (int64 (total_of queues + 1))), s').
Proof.
  intros Hup Hl HM. cbv zeta.
  destruct (handleStats_up s Hup) as (queues & Hs & Hlook).
  exists queues. split; [done|].
  rewrite (AddJob_ok _ _ job data s) by done. cbn [snd].
  set (s' := mkState _ _ _).
  destruct (handleStats_up s') as (queues' & Hs' & Hlook'); [done|].
  rewrite Hs'.
  set (n := NormalizeQueryRules (AgentQueryRules job)).
  assert (Hq : queues' = <[n := (default 0 (queues !! n) + 1)%Z]> queues).
  { apply map_eq. intros m. rewrite Hlook'. unfold s'. cbn [db].
    rewrite queue_len_added. fold n. rewrite lookup_insert.
    destruct (decide (m = n)) as [->|Hm].
    - rewrite decide_True by done. rewrite Hlook.
      by rewrite queue_len_queue_at.
    - rewrite decide_False by done. by rewrite Hlook. }
  rewrite Hq.
  assert (Htotal : total_of (<[n := (default 0 (queues !! n) + 1)%Z]> queues)
                   = int64 (total_of queues + 1)).
  { rewrite !total_of_sum, int64_add_l.
    destruct (queues !! n) as [old|] eqn:Hn; simpl.
    - rewrite (sum_of_insert _ _ old) by done. apply (f_equal int64). lia.
    - rewrite sum_of_insert_fresh by done. apply (f_equal int64). lia. }
  by rewrite Htotal.
Qed.

(** [ClaimJob] returns a job only from the head of a queue that has one. *)
Lemma ClaimJob_returns_job (queryRules : list string) (job : Job) (s : state) :
  up s = true -> layout (db s) ->
  (ClaimJob json_Unmarshal queryRules s).1 = Ok (Some job) ->
  exists data rest,
    queue_at ("jobs:" +:+ NormalizeQueryRules queryRules) (db s) = data :: rest
    /\ json_Unmarshal data = Some job.
Proof.
  intros Hup Hl Hr.
  destruct (queue_at ("jobs:" +:+ NormalizeQueryRules queryRules) (db s))
    as [|data rest] eqn:Hq.
  - rewrite ClaimJob_no_job in Hr
      by (done || apply layout_no_hash_at_queue, Hl). discriminate.
  - exists data, rest. split; [done|].
    destruct (json_Unmarshal data) as [job'|] eqn:HU.
    + rewrite (ClaimJob_head _ _ data rest job' s) in Hr by done.
      cbn [fst] in Hr. congruence.
    + rewrite (ClaimJob_undecodable _ _ data rest s) in Hr by done.
      discriminate.
Qed.

(** A claim shows in the statistics: on a reachable store, after [ClaimJob]
    has returned a job the count of the capability key is one less, the key
    is no longer listed when that was its last job, and the total is one
    less; the other counts are as before. *)
Theorem handleStats_after_ClaimJob (s : state) (queryRules : list string)
    (job : Job) :
  up s = true -> layout (db s) ->
  (ClaimJob json_Unmarshal queryRules s).1 = Ok (Some job) ->
  let n := NormalizeQueryRules queryRules in
  let s' := (ClaimJob json_Unmarshal queryRules s).2 in
  exists queues count,
    handleStats s = (Some (server.StatusOK, StatsJSON queues (total_of queues)), s)
    /\ queues !! n = Some count /\ (1 <= count)%Z
    /\ handleStats s'
       = (Some (server.StatusOK,
                StatsJSON (if decide (count = 1%Z) then delete n queues
                           else <[n := (count - 1)%Z]> queues)
                          (int64 (total_of queues - 1))), s').
Proof.
  intros Hup Hl Hr. cbv zeta.
  destruct (ClaimJob_returns_job _ _ _ Hup Hl Hr) as (data & rest & Hq & HU).
  destruct (handleStats_up s Hup) as (queues & Hs & Hlook).
  set (n := NormalizeQueryRules queryRules) in *.
  assert (Hn : queues !! n = Some (Z.of_nat (length (data :: rest)))).
  { rewrite Hlook. unfold queue_len. unfold queue_at in Hq.
    destruct (db s !! ("jobs:" +:+ n)) as [[[l|h] t]|]; try discriminate.
    by rewrite Hq. }
  exists queues, (Z.of_nat (length (data :: rest))).
  split; [done|]. split; [done|]. split; [simpl; lia|].
  rewrite (ClaimJob_head _ queryRules data rest job s) by done. cbn [snd].
  fold n. set (s' := mkState _ _ _).
  destruct (handleStats_up s') as (queues' & Hs' & Hlook'); [done|].
  rewrite Hs'.
  assert (Hq' : queues' = if decide (Z.of_nat (length (data :: rest)) = 1%Z)
                          then delete n queues
                          else <[n := (Z.of_nat (length (data :: rest)) - 1)%Z]> queues).
  { apply map_eq. intros m. rewrite Hlook'. unfold s'. cbn [db].
    rewrite (queue_len_claimed m n data rest job (db s) Hq).
    destruct rest as [|y rest].
    - destruct (decide (Z.of_nat (length [data]) = 1%Z)) as [_|Hc]; [|done].
      rewrite lookup_delete.
      destruct (decide (m = n)) as [->|Hm].
      + by rewrite decide_True.
      + rewrite decide_False by done. by rewrite Hlook.
    - destruct (decide (Z.of_nat (length (data :: y :: rest)) = 1%Z)) as [Hc|_];
        [simpl in Hc; lia|].
      rewrite lookup_insert.
      destruct (decide (m = n)) as [->|Hm].
      + rewrite decide_True by done. f_equal. simpl. lia.
      + rewrite decide_False by done. by rewrite Hlook. }
  rewrite Hq'.
  assert (Htotal :
            total_of (if decide (Z.of_nat (length (data :: rest)) = 1%Z)
                      then delete n queues
                      else <[n := (Z.of_nat (length (data :: rest)) - 1)%Z]> queues)
            = int64 (total_of queues - 1)).
  { rewrite !total_of_sum.
    replace (int64 (sum_of queues) - 1)%Z with (int64 (sum_of queues) + -1)%Z by lia.
    rewrite int64_add_l.
    case_decide as Hc.
    - rewrite (sum_of_delete _ _ _ Hn). apply (f_equal int64). lia.
    - rewrite (sum_of_insert _ _ _ _ Hn). apply (f_equal int64). lia. }
  by rewrite Htotal.
Qed.

End WithCodec.

End Stats.

(** ** The reservation monitor *)

Section MonitorFacts.
Import types redis storage monitor.

Variable json_Marshal : Job -> option string.
Variable Format_RFC3339 : Time -> string.
Variable W : Type.
Variable ListScheduledJobs :
  stacksapi.ListScheduledJobsRequest -> W ->
  result stacksapi.ListScheduledJobsResponse * W.
Variable BatchReserveJobs :
  stacksapi.BatchReserveJobsRequest -> W -> result (list string) * W.
Variable time_Now : W -> Time * W.

Local Abbreviation AddJob := (storage.AddJob json_Marshal Format_RFC3339).
Local Abbreviation reserveJobs_step :=
  (monitor.reserveJobs_step json_Marshal Format_RFC3339 W time_Now).
Local Abbreviation reserveJobs :=
  (monitor.reserveJobs json_Marshal Format_RFC3339 W BatchReserveJobs time_Now).
Local Abbreviation pollQueue_pages :=
  (monitor.pollQueue_pages json_Marshal Format_RFC3339 W ListScheduledJobs
     BatchReserveJobs time_Now).
Local Abbreviation pollQueue :=
  (monitor.pollQueue json_Marshal Format_RFC3339 W ListScheduledJobs
     BatchReserveJobs time_Now).
Local Abbreviation pollQueues :=
  (monitor.pollQueues json_Marshal Format_RFC3339 W ListScheduledJobs
     BatchReserveJobs time_Now).

(** The payload an insert of [job] adds to the queue [key]. *)
Definition payload_for (key : string) (job : Job) : option string :=
  if decide (key = "jobs:" +:+ NormalizeQueryRules (AgentQueryRules job))
  then json_Marshal job else None.

(** The jobs the loop of [reserveJobs] builds, each with the time the clock
    shows at its turn. *)
Fixpoint stamped (queueKey : string) (reserved : list string)
    (jobs : list stacksapi.ScheduledJob) (w : W) : list Job :=
  match jobs with
  | [] => []
  | job :: jobs' =>
      if decide (stacksapi.ID job ∈ reserved) then
        ourJob queueKey job (time_Now w).1
        :: stamped queueKey reserved jobs' (time_Now w).2
      else stamped queueKey reserved jobs' w
  end.

Lemma AddJob_marshal_fails (job : Job) (s : state) :
  json_Marshal job = None ->
  AddJob job s = (Err (Errorf "marshaling job" json_Error), s).
Proof. intros HM. unfold storage.AddJob. by rewrite HM. Qed.

Lemma AddJob_down (job : Job) (s : state) :
  up s = false -> db (AddJob job s).2 = db s /\ up (AddJob job s).2 = false.
Proof.
  intros Hup. unfold storage.AddJob.
  destruct (json_Marshal job) as [data|]; [|done].
  unfold bind, wrap, RPush. by rewrite call_down.
Qed.

(** One insert on a reachable store: the payload goes to the tail of the
    job's queue, if the job encodes; nothing else is queued or removed. *)
Lemma AddJob_queues (job : Job) (s : state) :
  up s = true -> layout (db s) ->
  up (AddJob job s).2 = true
  /\ layout (db (AddJob job s).2)
  /\ forall key,
       queue_at key (db (AddJob job s).2)
       = queue_at key (db s) ++ option_list (payload_for key job).
Proof.
  intros Hup Hl. destruct (json_Marshal job) as [data|] eqn:HM.
  - rewrite (AddJob_ok _ _ job data s) by done. cbn [snd up db].
    split; [done|]. split; [by apply layout_added|].
    intros key. rewrite queue_at_added by done. unfold payload_for.
    case_decide; [by rewrite HM|]. by rewrite app_nil_r.
  - rewrite AddJob_marshal_fails by done. cbn [snd].
    split; [done|]. split; [done|].
    intros key. unfold payload_for. rewrite HM.
    case_decide; by rewrite app_nil_r.
Qed.

Lemma omap_payload_cons (key : string) (job : Job) (jobs : list Job) :
  omap (payload_for key) (job :: jobs)
  = option_list (payload_for key job) ++ omap (payload_for key) jobs.
Proof. cbn [omap list_omap]. by destruct (payload_for key job). Qed.

Lemma reserveJobs_step_granted (queueKey : string) (reserved : list string)
    (job : stacksapi.ScheduledJob) (w : W) (s : state) :
  stacksapi.ID job ∈ reserved ->
  reserveJobs_step queueKey (list_to_set reserved) (w, s) job
  = ((time_Now w).2, (AddJob (ourJob queueKey job (time_Now w).1) s).2).
Proof.
  intros Hin. unfold monitor.reserveJobs_step.
  rewrite decide_True by (by apply elem_of_list_to_set).
  cbn [fst snd]. by destruct (time_Now w).
Qed.

Lemma reserveJobs_step_skipped (queueKey : string) (reserved : list string)
    (job : stacksapi.ScheduledJob) (ws : W * state) :
  stacksapi.ID job ∉ reserved ->
  reserveJobs_step queueKey (list_to_set reserved) ws job = ws.
Proof.
  intros Hnin. unfold monitor.reserveJobs_step.
  by rewrite decide_False by (by rewrite elem_of_list_to_set).
Qed.

(** The insert loop of [reserveJobs]. *)
Lemma reserveJobs_loop (queueKey : string) (reserved : list string)
    (jobs : list stacksapi.ScheduledJob) (w : W) (s : state) :
  up s = true -> layout (db s) ->
  let ws' := foldl (reserveJobs_step queueKey (list_to_set reserved)) (w, s) jobs in
  up ws'.2 = true
  /\ layout (db ws'.2)
  /\ forall key,
       queue_at key (db ws'.2)
       = queue_at key (db s)
         ++ omap (payload_for key) (stamped queueKey reserved jobs w).
Proof.
  cbv zeta. revert w s. induction jobs as [|job jobs IH]; intros w s Hup Hl.
  - cbn [foldl snd stamped omap list_omap]. repeat split; try done.
    intros key. by rewrite app_nil_r.
  - cbn [foldl stamped].
    destruct (decide (stacksapi.ID job ∈ reserved)) as [Hin|Hnin].
    + rewrite reserveJobs_step_granted by done.
      destruct (AddJob_queues (ourJob queueKey job (time_Now w).1) s Hup Hl)
        as (Hup' & Hl' & Hq').
      destruct (IH (time_Now w).2 _ Hup' Hl') as (Hup'' & Hl'' & Hq'').
      split; [done|]. split; [done|]. intros key.
      rewrite Hq'', Hq', omap_payload_cons. by rewrite app_assoc.
    + rewrite reserveJobs_step_skipped by done. by apply IH.
Qed.

(** The jobs built are the granted ones, in the order of the listing. *)
Lemma stamped_granted (queueKey : string) (reserved : list string)
    (jobs : list stacksapi.ScheduledJob) (w : W) :
  Forall2 (fun job listed => job = ourJob queueKey listed (ReservedAt job))
    (stamped queueKey reserved jobs w)
    (List.filter (fun listed => bool_decide (stacksapi.ID listed ∈ reserved)) jobs).
Proof.
  revert w. induction jobs as [|job jobs IH]; intros w; cbn [stamped List.filter].
  - constructor.
  - destruct (decide (stacksapi.ID job ∈ reserved)) as [Hin|Hnin].
    + rewrite bool_decide_eq_true_2 by done. constructor; [done|apply IH].
    + rewrite bool_decide_eq_false_2 by done. apply IH.
Qed.

(** [reserveJobs] inserts the granted jobs and only them.  On a reachable
    store, when the batch reservation of a non-empty page answers with the
    ids it granted, the call succeeds; the jobs it inserts are built from
    the listed jobs whose id was granted, in the order of the listing, under
    the polled queue key; and each capability key's queue is its old content
    followed by the payloads of those of them that belong to it. *)
Theorem reserveJobs_inserts_granted (stackKey queueKey : string)
    (jobs : list stacksapi.ScheduledJob) (reserved : list string)
    (w w1 : W) (s : state) :
  up s = true -> layout (db s) -> jobs <> [] ->
  BatchReserveJobs
    (stacksapi.mkReserveRequest stackKey (map stacksapi.ID jobs) 300) w
  = (Ok reserved, w1) ->
  let out := reserveJobs stackKey queueKey jobs (w, s) in
  out.1 = Ok tt
  /\ up out.2.2 = true /\ layout (db out.2.2)
  /\ exists inserted,
       Forall2 (fun job listed => job = ourJob queueKey listed (ReservedAt job))
         inserted
         (List.filter (fun listed => bool_decide (stacksapi.ID listed ∈ reserved)) jobs)
       /\ forall key,
            queue_at key (db out.2.2)
            = queue_at key (db s) ++ omap (payload_for key) inserted.
Proof.
  intros Hup Hl Hne Hbatch. cbv zeta. unfold monitor.reserveJobs.
  rewrite decide_False by (by destruct jobs).
  cbn [fst snd]. rewrite Hbatch. cbn [fst snd].
  destruct (reserveJobs_loop queueKey reserved jobs w1 s Hup Hl) as (Hup' & Hl' & Hq').
  split; [done|]. split; [done|]. split; [done|].
  exists (stamped queueKey reserved jobs w1). split; [apply stamped_granted|done].
Qed.

(** The store after a step of the monitor, against the store before: as
    reachable as before, laid out as the index is, and every queue begins
    with what it held. *)
Definition grows (s s' : state) : Prop :=
  up s' = up s
  /\ layout (db s')
  /\ forall key, queue_at key (db s) `prefix_of` queue_at key (db s').

Lemma grows_refl (s : state) : layout (db s) -> grows s s.
Proof. intros Hl. split; [done|]. split; [done|]. intros key. reflexivity. Qed.

Lemma grows_trans (s1 s2 s3 : state) : grows s1 s2 -> grows s2 s3 -> grows s1 s3.
Proof.
  intros (Hup1 & Hl1 & Hq1) (Hup2 & Hl2 & Hq2).
  split; [congruence|]. split; [done|].
  intros key. etrans; [apply Hq1 | apply Hq2].
Qed.

Lemma AddJob_grows (job : Job) (s : state) :
  layout (db s) -> grows s (AddJob job s).2.
Proof.
  intros Hl. destruct (up s) eqn:Hup.
  - destruct (AddJob_queues job s Hup Hl) as (Hup' & Hl' & Hq').
    split; [congruence|]. split; [done|].
    intros key. rewrite Hq'. by apply prefix_app_r.
  - destruct (AddJob_down job s Hup) as [Hdb Hup'].
    split; [congruence|]. rewrite Hdb. split; [done|]. intros key. reflexivity.
Qed.

Lemma reserveJobs_step_grows (queueKey : string) (reservedMap : gset string)
    (ws : W * state) (job : stacksapi.ScheduledJob) :
  layout (db ws.2) -> grows ws.2 (reserveJobs_step queueKey reservedMap ws job).2.
Proof.
  intros Hl. unfold monitor.reserveJobs_step. case_decide; [|by apply grows_refl].
  destruct (time_Now ws.1) as [now w']. cbn [snd]. by apply AddJob_grows.
Qed.

Lemma reserveJobs_grows (stackKey queueKey : string)
    (jobs : list stacksapi.ScheduledJob) (ws : W * state) :
  layout (db ws.2) -> grows ws.2 (reserveJobs stackKey queueKey jobs ws).2.2.
Proof.
  intros Hl. unfold monitor.reserveJobs. case_decide; [by apply grows_refl|].
  destruct (BatchReserveJobs _ ws.1) as [[reserved|e] w']; cbn [snd];
    [|by apply grows_refl].
  set (reservedMap := list_to_set reserved : gset string).
  assert (Hloop : forall (jobs' : list stacksapi.ScheduledJob) (ws0 : W * state),
             layout (db ws0.2) ->
             grows ws0.2 (foldl (reserveJobs_step queueKey reservedMap) ws0 jobs').2).
  { induction jobs' as [|job jobs' IH]; intros ws0 Hl0; [by apply grows_refl|].
    cbn [foldl].
    pose proof (reserveJobs_step_grows queueKey reservedMap ws0 job Hl0) as Hstep.
    eapply grows_trans; [exact Hstep|]. apply IH. apply Hstep. }
  apply (Hloop jobs (w', ws.2)). exact Hl.
Qed.

Lemma pollQueue_pages_grows (fuel : nat) (stackKey queueKey cursor : string)
    (ws : W * state) :
  layout (db ws.2) ->
  grows ws.2 (pollQueue_pages fuel stackKey queueKey cursor ws).2.2.
Proof.
  revert cursor ws. induction fuel as [|fuel IH]; intros cursor ws Hl;
    cbn [monitor.pollQueue_pages]; [by apply grows_refl|].
  destruct (ListScheduledJobs _ ws.1) as [[resp|e] w']; cbn [snd];
    [|by apply grows_refl].
  destruct (stacksapi.Paused resp); cbn [snd]; [by apply grows_refl|].
  set (ws' := if decide (0 < length (stacksapi.Jobs resp))%nat
              then (reserveJobs stackKey queueKey (stacksapi.Jobs resp) (w', ws.2)).2
              else (w', ws.2)).
  assert (Hws' : grows ws.2 ws'.2).
  { unfold ws'. case_decide; [|by apply grows_refl].
    by apply (reserveJobs_grows stackKey queueKey _ (w', ws.2)). }
  destruct (negb (stacksapi.HasNextPage resp)); cbn [snd]; [done|].
  eapply grows_trans; [exact Hws'|]. apply IH. apply Hws'.
Qed.

(** The monitor only appends.  Whatever the authority answers and however
    many pages it serves, a round of [pollQueues] leaves the store laid out
    as the index is, and every queue begins with the jobs it held before, in
    the same order: the monitor removes and reorders nothing. *)
Theorem pollQueues_only_appends (fuel : nat) (stackKey : string)
    (queues : list string) (w : W) (s : state) :
  layout (db s) ->
  let s' := (pollQueues fuel stackKey queues (w, s)).2.2 in
  up s' = up s
  /\ layout (db s')
  /\ forall key, queue_at key (db s) `prefix_of` queue_at key (db s').
Proof.
  cbv zeta. intros Hl. change s with (w, s).2 at 2 4. change s with (w, s).2 in Hl.
  generalize dependent (w, s). clear w s.
  induction queues as [|queueKey queues IH]; intros ws Hl;
    cbn [monitor.pollQueues]; [by apply grows_refl|].
  unfold monitor.pollQueue.
  pose proof (pollQueue_pages_grows fuel stackKey queueKey "" ws Hl) as Hg.
  destruct (pollQueue_pages fuel stackKey queueKey "" ws) as [[r|] ws'];
    cbn [snd] in *; [|done].
  eapply grows_trans; [exact Hg|]. apply IH. apply Hg.
Qed.

(** The errors of the monitor.  [pollQueue] returns no other error than a
    failed listing: a failed reservation or insert is logged and the paging
    goes on.  [pollQueues] returns no error at all.  And when the authority
    serves each queue in one page, every round comes to its end. *)
Theorem pollQueues_errors (fuel : nat) (stackKey : string) :
  (forall queueKey ws e,
     (pollQueue fuel stackKey queueKey ws).1 = Some (Err e) ->
     exists cause, e = Errorf "listing scheduled jobs" cause)
  /\ (forall queues ws r,
        (pollQueues fuel stackKey queues ws).1 = Some r -> r = Ok tt)
  /\ ((forall req w resp w',
         ListScheduledJobs req w = (Ok resp, w') ->
         stacksapi.HasNextPage resp = false) ->
      forall queues ws,
        (pollQueues (S fuel) stackKey queues ws).1 = Some (Ok tt)).
Proof.
  split; [|split].
  - intros queueKey. unfold monitor.pollQueue.
    assert (Hpages : forall cursor ws e,
               (pollQueue_pages fuel stackKey queueKey cursor ws).1 = Some (Err e) ->
               exists cause, e = Errorf "listing scheduled jobs" cause);
      [|apply Hpages].
    induction fuel as [|fuel' IH]; intros cursor ws e;
      cbn [monitor.pollQueue_pages]; [discriminate|].
    destruct (ListScheduledJobs _ ws.1) as [[resp|e'] w']; cbn [fst].
    + destruct (stacksapi.Paused resp); [discriminate|].
      destruct (negb (stacksapi.HasNextPage resp)); [discriminate|]. apply IH.
    + intros [= <-]. by eexists.
  - induction queues as [|queueKey queues IH]; intros ws r;
      cbn [monitor.pollQueues].
    + by intros [= <-].
    + destruct (pollQueue fuel stackKey queueKey ws) as [[r'|] ws'];
        [apply IH|discriminate].
  - intros Hone. induction queues as [|queueKey queues IH]; intros ws;
      cbn [monitor.pollQueues]; [done|].
    assert (Hsome : exists r ws',
               pollQueue (S fuel) stackKey queueKey ws = (Some r, ws')).
    { unfold monitor.pollQueue. cbn [monitor.pollQueue_pages].
      destruct (ListScheduledJobs _ ws.1) as [[resp|e'] w'] eqn:Hlist;
        [|by eexists _, _].
      destruct (stacksapi.Paused resp); [by eexists _, _|].
      rewrite (Hone _ _ _ _ Hlist). cbn [negb]. by eexists _, _. }
    destruct Hsome as (r & ws' & ->). apply IH.
Qed.

End MonitorFacts.

(** ** The query on its way from the worker to the handler *)

Section QueryOnItsWay.
Import GoStrings types.

Lemma append_assoc (s t u : string) : (s +:+ t) +:+ u = s +:+ t +:+ u.
Proof. induction s as [|c s IH]; [done|]. rewrite !app_String. by rewrite IH. Qed.

Lemma ContainsByte_app (s t : string) (c : ascii) :
  ContainsByte (s +:+ t) c = ContainsByte s c || ContainsByte t c.
Proof.
  induction s as [|d s IH]; [by rewrite app_empty_l|].
  rewrite app_String. simpl. by rewrite IH, orb_assoc.
Qed.

Lemma SplitN2_no_sep (s : string) (sep : ascii) :
  ContainsByte s sep = false -> SplitN2 s sep = [s].
Proof.
  induction s as [|c s IH]; simpl; [reflexivity|].
  intros [Hc Hs]%orb_false_elim. by rewrite Hc, (IH Hs).
Qed.

Lemma SplitN2_app_sep (s t : string) (sep : ascii) :
  ContainsByte s sep = false ->
  SplitN2 (s +:+ String sep t) sep = [s; t].
Proof.
  induction s as [|c s IH]; intros H.
  - rewrite app_empty_l. simpl. by rewrite Ascii.eqb_refl.
  - simpl in H. apply orb_false_elim in H as [Hc Hs].
    rewrite app_String. simpl. by rewrite Hc, (IH Hs).
Qed.

Lemma all_plain_app (s t : string) :
  url.all_plain (s +:+ t) = url.all_plain s && url.all_plain t.
Proof.
  induction s as [|c s IH]; [by rewrite app_empty_l|].
  rewrite app_String. simpl. by rewrite IH, andb_assoc.
Qed.

(** A key made of plain rules is plain. *)
Lemma all_plain_Join (l : list string) :
  Forall (fun rule => url.all_plain rule = true) l ->
  url.all_plain (Join l ",") = true.
Proof.
  induction l as [|x [|y rest] IH]; intros Hall; [done| |].
  - by inversion Hall.
  - inversion Hall as [|? ? Hx Hrest]; subst.
    change (Join (x :: y :: rest) ",") with (x +:+ "," +:+ Join (y :: rest) ",").
    rewrite !all_plain_app, Hx, (IH Hrest). reflexivity.
Qed.

Lemma all_plain_NormalizeQueryRules (rules : list string) :
  Forall (fun rule => url.all_plain rule = true) rules ->
  url.all_plain (NormalizeQueryRules rules) = true.
Proof.
  intros Hall. unfold NormalizeQueryRules. case_decide; [done|].
  apply all_plain_Join. by rewrite sort_Strings_Permutation.
Qed.

(** What a plain string does not hold. *)
Lemma all_plain_special (s : string) (c : ascii) :
  url.all_plain s = true -> url.plain c = false -> ContainsByte s c = false.
Proof.
  intros Hs Hc. induction s as [|d s IH]; [done|].
  simpl in *. apply andb_prop in Hs as [Hd Hs]. rewrite (IH Hs), orb_false_r.
  destruct (Ascii.eqb_spec d c) as [->|]; [congruence|done].
Qed.

(** A plain string decodes to itself. *)
Lemma QueryUnescape_plain (s : string) :
  url.all_plain s = true -> url.QueryUnescape s = Some s.
Proof.
  induction s as [|c s IH]; [done|]. intros Hs.
  cbn [url.all_plain] in Hs. apply andb_prop in Hs as [Hc Hs].
  specialize (IH Hs).
  assert (Hpercent : c <> "%"%char) by (intros ->; discriminate).
  assert (Hplus : c <> "+"%char) by (intros ->; discriminate).
  assert (Hstep : url.QueryUnescape (String c s)
                  = option_map (String c) (url.QueryUnescape s)).
  { destruct c as [[] [] [] [] [] [] [] []]; try reflexivity; by destruct s. }
  by rewrite Hstep, IH.
Qed.

(** The handler of a request to [apiServer/jobs?query=<key>] reads the key,
    when the key is plain and the server's address holds no [?] and no
    [#]. *)
Lemma Query_Get_plain (apiServer key : string) :
  ContainsByte apiServer "?" = false -> ContainsByte apiServer "#" = false ->
  url.all_plain key = true ->
  url.Query_Get (apiServer +:+ "/jobs?query=" +:+ key) "query" = key.
Proof.
  intros Hq Hf Hkey. unfold url.Query_Get, url.RawQuery.
  assert (Hnofrag : ContainsByte (apiServer +:+ "/jobs?query=" +:+ key) "#" = false).
  { rewrite !ContainsByte_app, Hf, (all_plain_special key "#" Hkey) by done.
    reflexivity. }
  rewrite (SplitN2_no_sep _ _ Hnofrag).
  change (apiServer +:+ "/jobs?query=" +:+ key)
    with (apiServer +:+ "/jobs" +:+ String "?" ("query=" +:+ key)).
  rewrite <- append_assoc.
  rewrite SplitN2_app_sep
    by (by rewrite ContainsByte_app, Hq).
  unfold url.ParseQuery.
  assert (Hplain : url.all_plain ("query=" +:+ key) = true)
    by (by rewrite all_plain_app, Hkey).
  rewrite Split_no_sep by (by apply all_plain_special).
  cbn [omap list_omap]. unfold url.ParseQuery_pair.
  rewrite (all_plain_special _ ";" Hplain) by done.
  rewrite decide_False by discriminate.
  change ("query=" +:+ key) with ("query" +:+ String "=" key).
  rewrite SplitN2_app_sep by reflexivity.
  rewrite (QueryUnescape_plain key Hkey).
  reflexivity.
Qed.

Lemma plain_not_space (c : ascii) : url.plain c = true -> asciiSpace c = false.
Proof.
  intros Hc. destruct (asciiSpace c) eqn:Hs; [|done].
  destruct c as [[] [] [] [] [] [] [] []]; try discriminate Hs; discriminate Hc.
Qed.

Lemma plain_ne (c d : ascii) :
  url.plain c = true -> url.plain d = false -> Ascii.eqb c d = false.
Proof. intros Hc Hd. destruct (Ascii.eqb_spec c d) as [->|]; [congruence|done]. Qed.

Lemma leadingSpace_plain (s : string) :
  url.all_plain s = true -> leadingSpace s = None.
Proof.
  destruct s as [|c1 [|c2 [|c3 r3]]]; [done|..]; cbn [url.all_plain];
    intros Hs; repeat (apply andb_prop in Hs as [? Hs]); unfold leadingSpace;
    rewrite (plain_not_space c1) by done;
    rewrite ?(plain_ne c1 "194"), ?(plain_ne c1 "225"), ?(plain_ne c1 "226"),
      ?(plain_ne c1 "227") by done; reflexivity.
Qed.

Lemma trailingSpace_plain (s : string) :
  url.all_plain s = true -> trailingSpace s = None.
Proof.
  destruct s as [|c1 [|c2 [|c3 r3]]]; [done|..]; cbn [url.all_plain];
    intros Hs; repeat (apply andb_prop in Hs as [? Hs]); unfold trailingSpace;
    rewrite (plain_not_space c1) by done;
    rewrite ?(plain_ne c2 "194"), ?(plain_ne c3 "225"), ?(plain_ne c3 "226"),
      ?(plain_ne c3 "227") by done; rewrite ?andb_false_r; reflexivity.
Qed.

Lemma rev_app_rev_app (s a b : string) :
  String.rev_app (String.rev_app s a) b = String.rev_app a (s +:+ b).
Proof.
  revert a. induction s as [|c s IH]; intros a; [done|].
  cbn [String.rev_app]. by rewrite IH.
Qed.

Lemma all_plain_rev_app (s a : string) :
  url.all_plain (String.rev_app s a) = url.all_plain s && url.all_plain a.
Proof.
  revert a. induction s as [|c s IH]; intros a; [done|].
  cbn [String.rev_app]. rewrite IH. cbn [url.all_plain].
  by destruct (url.plain c), (url.all_plain s).
Qed.

(** A plain string has no white space to trim. *)
Lemma TrimSpace_plain (s : string) : url.all_plain s = true -> TrimSpace s = s.
Proof.
  intros Hs. unfold TrimSpace.
  assert (Hleft : trimLeft (String.length s) s = s).
  { destruct (String.length s); [done|]. cbn [trimLeft].
    by rewrite leadingSpace_plain. }
  rewrite Hleft.
  assert (Hrev : url.all_plain (String.rev s) = true).
  { unfold String.rev. by rewrite all_plain_rev_app, Hs. }
  assert (Hright : trimLeftRev (String.length s) (String.rev s) = String.rev s).
  { destruct (String.length s); [done|]. cbn [trimLeftRev].
    by rewrite trailingSpace_plain. }
  rewrite Hright. unfold String.rev. rewrite rev_app_rev_app.
  cbn [String.rev_app]. clear. induction s as [|c s IH]; [done|].
  rewrite app_String. by rewrite IH.
Qed.

End QueryOnItsWay.

(** ** Matching is by the whole rule set *)

Section ExactMatch.
Import GoStrings types redis storage.

Variable json_Marshal : Job -> option string.
Variable json_Unmarshal : string -> option Job.
Variable Format_RFC3339 : Time -> string.

(** A claim leaves the queues of the other keys alone. *)
Lemma ClaimJob_other_queue (queryRules : list string) (key : string) (s : state) :
  layout (db s) ->
  key <> "jobs:" +:+ NormalizeQueryRules queryRules ->
  queue_at key (db (ClaimJob json_Unmarshal queryRules s).2) = queue_at key (db s).
Proof.
  intros Hl Hne. destruct (up s) eqn:Hup.
  - destruct (queue_at ("jobs:" +:+ NormalizeQueryRules queryRules) (db s))
      as [|data rest] eqn:Hq.
    + by rewrite ClaimJob_no_job by (done || apply layout_no_hash_at_queue, Hl).
    + destruct (json_Unmarshal data) as [job|] eqn:HU.
      * rewrite (ClaimJob_head _ _ data rest job s) by done. cbn [snd db].
        rewrite queue_at_claimed by done. rewrite queue_at_popped_any.
        by rewrite decide_False.
      * rewrite (ClaimJob_undecodable _ _ data rest s) by done. cbn [snd db].
        rewrite queue_at_popped_any. by rewrite decide_False.
  - unfold ClaimJob, LPop. by rewrite call_down.
Qed.



End ExactMatch.

(** ** Keys read back *)

Section KeysReadBack.
Import GoStrings types.

Lemma Join_cons_cons (x y : string) (rest : list string) (sep : string) :
  Join (x :: y :: rest) sep = x +:+ sep +:+ Join (y :: rest) sep.
Proof. reflexivity. Qed.

(** [Join] undoes [Split], on every string. *)
Lemma Join_Split (s : string) (sep : ascii) :
  Join (Split s sep) (String sep "") = s.
Proof.
  induction s as [|c s IH]; [reflexivity|]. cbn [Split].
  destruct (Ascii.eqb_spec c sep) as [->|Hne].
  - pose proof (Split_not_nil s sep) as Hnil.
    destruct (Split s sep) as [|h t] eqn:Hs; [done|].
    rewrite Join_cons_cons, IH. reflexivity.
  - pose proof (Split_not_nil s sep) as Hnil.
    destruct (Split s sep) as [|h [|h' t]] eqn:Hs; [done| |].
    + simpl in *. by rewrite IH.
    + rewrite Join_cons_cons in *. rewrite app_String. by rewrite IH.
Qed.

(** Parsing a key loses nothing: the parsed rules joined by commas are the
    key, for every string; and a key whose rules are in ascending order is
    its own normal form. *)
Theorem ParseQueryRules_reads_back (normalized : string) :
  Join (ParseQueryRules normalized) "," = normalized
  /\ (Sorted String.le (ParseQueryRules normalized) ->
      NormalizeQueryRules (ParseQueryRules normalized) = normalized).
Proof.
  assert (Hjoin : Join (ParseQueryRules normalized) "," = normalized).
  { unfold ParseQueryRules. case_decide as Hn; [by subst|]. apply Join_Split. }
  split; [done|]. intros Hsorted. unfold NormalizeQueryRules.
  case_decide as Hlen.
  - apply length_zero_iff_nil in Hlen. rewrite Hlen in Hjoin. by rewrite <- Hjoin.
  - rewrite <- (sort_Strings_unique (ParseQueryRules normalized)
                  (ParseQueryRules normalized)); done.
Qed.

End KeysReadBack.

Lemma ParseQueryRules_reads_back_witness :
  types.NormalizeQueryRules (types.ParseQueryRules "arch=amd64,queue=default")
  = "arch=amd64,queue=default".
Proof.
  apply (proj2 (ParseQueryRules_reads_back "arch=amd64,queue=default")).
  repeat constructor.
Defined.

(** ** The worker's poll loop *)

Section WorkerLoop.
Import types runner.

Variable http_NewRequest : string -> bool.
Variable http_Do : event -> list event -> option http_response.
Variable exec_Run : event -> list event -> bool.
Variable os_Hostname : option string.
Variable json_Decode : string -> option Job.

Local Abbreviation getJob := (runner.getJob http_NewRequest http_Do json_Decode).
Local Abbreviation runAgent := (runner.runAgent exec_Run os_Hostname).
Local Abbreviation completeJob := (runner.completeJob http_NewRequest http_Do).
Local Abbreviation processNextJob :=
  (runner.processNextJob http_NewRequest http_Do exec_Run os_Hostname json_Decode).

Definition is_post (ev : event) : bool :=
  match ev with
  | EvPost _ _ => true
  | _ => false
  end.

Definition is_exec (ev : event) : bool :=
  match ev with
  | EvExec _ _ => true
  | _ => false
  end.

(** The command of the agent for a job. *)
Definition agent_command (r : Runner) (jobUUID : string) : event :=
  EvExec (buildkiteAgentPath r)
    (runAgent_args r jobUUID (default "unknown" os_Hostname)).

Lemma slice_to_length (n : nat) (s : string) :
  is_Some (slice_to n s) <-> n <= String.length s.
Proof.
  revert s. induction n as [|n IH]; intros s.
  - simpl. split; [lia|by eexists].
  - destruct s as [|c s]; simpl.
    + split; [by intros [? ?]|lia].
    + rewrite <- Nat.succ_le_mono, <- IH.
      destruct (slice_to n s); split; intros [? ?]; by eauto.
Qed.

(** The events a call adds. *)
Lemma getJob_events (r : Runner) (past : list event) :
  exists new, (getJob r past).2 = past ++ new
              /\ List.filter is_post new = [] /\ List.filter is_exec new = [].
Proof.
  unfold runner.getJob.
  destruct (http_NewRequest _); cbn [negb]; [|by exists []; rewrite app_nil_r].
  destruct (http_Do _ past) as [resp|]; [|by eexists [_]].
  repeat case_decide; try by eexists [_].
  destruct (json_Decode _); by eexists [_].
Qed.

(** One turn of the worker.  [processNextJob] returns without error exactly
    when it got a job whose id has at least eight bytes and the agent it
    started for the job ended well: what becomes of the completion request
    does not count.  A job with a shorter id makes it panic before the agent
    is started.  And a completion request is sent only in a turn that
    returns without error: after a failed agent run, none is. *)
Theorem processNextJob_outcome (r : Runner) (past : list event) :
  let out := processNextJob r past in
  (out.1 = Returns tt
   <-> exists job,
         (getJob r past).1 = Returns (Some job)
         /\ 8 <= String.length (UUID job)
         /\ exec_Run (agent_command r (UUID job)) (getJob r past).2 = true)
  /\ (out.1 = Panics
      <-> exists job,
            (getJob r past).1 = Returns (Some job)
            /\ String.length (UUID job) < 8)
  /\ exists new,
       out.2 = past ++ new
       /\ (List.filter is_post new <> [] -> out.1 = Returns tt)
       /\ (out.1 = Panics -> List.filter is_exec new = []).
Proof.
  cbv zeta. unfold runner.processNextJob.
  destruct (getJob_events r past) as (new1 & Hpast1 & Hpost1 & Hexec1).
  destruct (getJob r past) as [[[job|]|e|] past1] eqn:Hget; cbn [fst snd] in *.
  2-4: (split; [split; [discriminate|by intros (? & ? & _)]|];
        split; [split; [|by intros (? & ? & _)]|];
        [|exists new1; split; [done|]; split; [by rewrite Hpost1|done]]).
  2-3: discriminate.
  2: { intros _. exfalso. revert Hget. unfold runner.getJob.
       destruct (http_NewRequest _); cbn [negb]; [|discriminate].
       destruct (http_Do _ past) as [resp|]; [|discriminate].
       repeat case_decide; try discriminate.
       destruct (json_Decode _); discriminate. }
  unfold runner.runAgent. fold (agent_command r (UUID job)).
  pose proof (slice_to_length 8 (UUID job)) as Hlen.
  destruct (slice_to 8 (UUID job)) as [prefix|] eqn:Hslice.
  - assert (Hlong : 8 <= String.length (UUID job)) by (apply Hlen; by eexists).
    destruct (exec_Run (agent_command r (UUID job)) past1) eqn:Hrun.
    + assert (Hdone : exists new3,
                 (completeJob r (UUID job) (past1 ++ [agent_command r (UUID job)])).2
                 = (past1 ++ [agent_command r (UUID job)]) ++ new3
                 /\ (completeJob r (UUID job) (past1 ++ [agent_command r (UUID job)])).1
                    <> Panics).
      { unfold runner.completeJob.
        destruct (http_NewRequest _); cbn [negb]; [|by exists []; rewrite app_nil_r].
        destruct (http_Do _ _) as [resp|]; [|by eexists [_]].
        case_decide; by eexists [_]. }
      destruct Hdone as (new3 & Hpast3 & Hnopanic).
      destruct (completeJob r (UUID job) _) as [[[]|e3|] past3]; cbn [fst snd] in *;
        try done.
      * split; [split; [by intros _; exists job|done]|].
        split; [split; [discriminate|intros (j & [= <-] & ?); lia]|].
        exists (new1 ++ [agent_command r (UUID job)] ++ new3).
        split; [by rewrite Hpast3, Hpast1, <- !app_assoc|]. split; [done|discriminate].
      * split; [split; [by intros _; exists job|done]|].
        split; [split; [discriminate|intros (j & [= <-] & ?); lia]|].
        exists (new1 ++ [agent_command r (UUID job)] ++ new3).
        split; [by rewrite Hpast3, Hpast1, <- !app_assoc|]. split; [done|discriminate].
    + split; [split; [discriminate|intros (j & [= <-] & _ & ?); congruence]|].
      split; [split; [discriminate|intros (j & [= <-] & ?); lia]|].
      exists (new1 ++ [agent_command r (UUID job)]).
      split; [by rewrite Hpast1, <- app_assoc|].
      split; [|discriminate].
      rewrite List.filter_app, Hpost1. simpl. done.
  - assert (Hshort : String.length (UUID job) < 8).
    { destruct (le_lt_dec 8 (String.length (UUID job))) as [Hle|]; [|done].
      apply Hlen in Hle as [? ?]. discriminate. }
    split; [split; [discriminate|intros (j & [= <-] & ? & _); lia]|].
    split; [split; [by intros _; exists job|done]|].
    exists new1. split; [done|]. split; [by rewrite Hpost1|done].
Qed.

End WorkerLoop.

(** ** The agent's output *)

Section AgentOutput.
Import GoStrings runner.

(** [p] without its newline bytes. *)
Fixpoint without_newlines (p : string) : string :=
  match p with
  | "" => ""
  | String c p' =>
      if Ascii.eqb c "010" then without_newlines p'
      else String c (without_newlines p')
  end.

Lemma Split_app (p q : string) (sep : ascii) :
  Split (p +:+ String sep q) sep = Split p sep ++ Split q sep.
Proof.
  induction p as [|c p IH].
  - rewrite app_empty_l. simpl. by rewrite Ascii.eqb_refl.
  - rewrite app_String. cbn [Split]. rewrite IH.
    destruct (Ascii.eqb c sep); [reflexivity|].
    pose proof (Split_not_nil p sep) as Hnil.
    by destruct (Split p sep).
Qed.

Lemma Split_pieces (p : string) (sep : ascii) :
  Forall (fun piece => ContainsByte piece sep = false) (Split p sep).
Proof.
  induction p as [|c p IH]; [by repeat constructor|]. cbn [Split].
  destruct (Ascii.eqb c sep) eqn:Hc; [by constructor|].
  destruct (Split p sep) as [|h t]; [by repeat constructor; simpl; rewrite Hc|].
  inversion IH; subst. constructor; [|done]. simpl. by rewrite Hc.
Qed.

Lemma concat_cons (x : string) (l : list string) :
  String.concat "" (x :: l) = x +:+ String.concat "" l.
Proof.
  destruct l as [|y l]; [|reflexivity].
  cbn [String.concat]. induction x as [|c x IH]; [reflexivity|].
  rewrite app_String. by rewrite <- IH.
Qed.

Lemma concat_Split (p : string) :
  String.concat "" (List.filter (fun line => negb (String.eqb line ""))
                      (Split p "010"))
  = without_newlines p.
Proof.
  assert (Hconcat : forall l,
             String.concat "" (List.filter (fun line => negb (String.eqb line "")) l)
             = String.concat "" l).
  { induction l as [|x l IH]; [done|]. rewrite concat_cons. cbn [List.filter].
    destruct x as [|c x]; cbn [String.eqb negb].
    - by rewrite app_empty_l.
    - by rewrite concat_cons, IH. }
  rewrite Hconcat. induction p as [|c p IH]; [reflexivity|].
  cbn [Split without_newlines]. destruct (Ascii.eqb c "010").
  - by rewrite concat_cons, app_empty_l.
  - pose proof (Split_not_nil p "010") as Hnil.
    destruct (Split p "010") as [|h t] eqn:Hs; [done|].
    rewrite concat_cons in *. by rewrite app_String, IH.
Qed.

(** What [Write] logs for a chunk of output: the chunk's bytes other than
    newlines, in order, cut into lines none of which is empty or holds a
    newline; and it reports the whole chunk as written. *)
Theorem prefixedWriter_Write_lines (p : string) :
  let out := prefixedWriter_Write p in
  Forall (fun line => line <> "" /\ ContainsByte line "010" = false) out.1
  /\ String.concat "" out.1 = without_newlines p
  /\ out.2 = String.length p.
Proof.
  cbv zeta. unfold prefixedWriter_Write. cbn [fst snd].
  split; [|split; [apply concat_Split|reflexivity]].
  apply List.Forall_forall. intros line [Hin Hne]%List.filter_In.
  split.
  - intros ->. discriminate.
  - pose proof (Split_pieces p "010") as Hall.
    rewrite List.Forall_forall in Hall. by apply Hall.
Qed.

(** Chunks of output.  Two chunks cut at a newline are logged as the one
    chunk would be.  A line that reaches [Write] in two chunks is logged as
    two lines. *)
Theorem prefixedWriter_Write_chunks (p q : string) :
  (prefixedWriter_Write (p +:+ String "010" q)).1
  = (prefixedWriter_Write p).1 ++ (prefixedWriter_Write q).1
  /\ (p <> "" -> q <> "" ->
      ContainsByte p "010" = false -> ContainsByte q "010" = false ->
      (prefixedWriter_Write (p +:+ q)).1 = [p +:+ q]
      /\ (prefixedWriter_Write p).1 ++ (prefixedWriter_Write q).1 = [p; q]).
Proof.
  unfold prefixedWriter_Write. cbn [fst snd]. split.
  - by rewrite Split_app, List.filter_app.
  - intros Hp Hq Hpn Hqn.
    assert (Hpq : ContainsByte (p +:+ q) "010" = false).
    { clear Hp Hq. induction p as [|c p IH]; [by rewrite app_empty_l|].
      rewrite app_String. simpl in *. apply orb_false_elim in Hpn as [-> Hpn].
      by rewrite IH. }
    rewrite !Split_no_sep by done. cbn [List.filter].
    destruct p as [|c p]; [done|]. destruct q as [|d q]; [done|].
    by rewrite app_String.
Qed.

End AgentOutput.

Lemma prefixedWriter_Write_chunks_witness :
  (runner.prefixedWriter_Write "ab").1 ++ (runner.prefixedWriter_Write "c").1
  = ["ab"; "c"].
Proof.
  apply (proj2 (prefixedWriter_Write_chunks "ab" "c")); done.
Defined.

(** ** The worker's trace *)

Section WorkerTrace.
Import types runner.

Variable http_NewRequest : string -> bool.
Variable http_Do : event -> list event -> option http_response.
Variable exec_Run : event -> list event -> bool.
Variable os_Hostname : option string.
Variable json_Decode : string -> option Job.

Local Abbreviation processNextJob :=
  (runner.processNextJob http_NewRequest http_Do exec_Run os_Hostname json_Decode).
Local Abbreviation Start :=
  (runner.Start http_NewRequest http_Do exec_Run os_Hostname json_Decode).

(** What one turn of the loop can do: nothing, ask for a job, ask and run the
    agent for the job it got, or ask, run and report that job complete. *)
Inductive turn (r : Runner) : list event -> Prop :=
| turn_idle : turn r []
| turn_asked : turn r [EvGet (getJob_url r) (workerID r)]
| turn_ran (job : Job) :
    turn r [EvGet (getJob_url r) (workerID r);
            agent_command os_Hostname r (UUID job)]
| turn_reported (job : Job) :
    turn r [EvGet (getJob_url r) (workerID r);
            agent_command os_Hostname r (UUID job);
            EvPost (completeJob_url r (UUID job)) (workerID r)].

Lemma processNextJob_turn (r : Runner) (past : list event) :
  exists new, (processNextJob r past).2 = past ++ new /\ turn r new.
Proof.
  unfold runner.processNextJob, runner.getJob.
  destruct (http_NewRequest (getJob_url r)); cbn [negb].
  2: { exists []. rewrite app_nil_r. split; [done|constructor]. }
  assert (Hjob : forall job,
             exists new,
               (match runner.runAgent exec_Run os_Hostname r (UUID job)
                        (past ++ [EvGet (getJob_url r) (workerID r)]) with
                | (Fails e, past2) => (Fails e, past2)
                | (Panics, past2) => (Panics, past2)
                | (Returns _, past2) =>
                    match runner.completeJob http_NewRequest http_Do r (UUID job) past2 with
                    | (Panics, past3) => (Panics, past3)
                    | (_, past3) => (Returns tt, past3)
                    end
                end).2 = past ++ new /\ turn r new).
  { intros job. unfold runner.runAgent. fold (agent_command os_Hostname r (UUID job)).
    destruct (slice_to 8 (UUID job)); [|eexists [_]; split; [done|constructor]].
    destruct (exec_Run _ _).
    - unfold runner.completeJob.
      destruct (http_NewRequest (completeJob_url r (UUID job))); cbn [negb].
      + destruct (http_Do _ _) as [resp|]; [case_decide|];
          (eexists [_; _; _]; split;
           [cbn [snd]; by rewrite <- !app_assoc|apply (turn_reported r job)]).
      + eexists [_; _]. split; [cbn [snd]; by rewrite <- !app_assoc|].
        apply (turn_ran r job).
    - eexists [_; _]. split; [cbn [snd]; by rewrite <- !app_assoc|].
      apply (turn_ran r job). }
  destruct (http_Do _ past) as [resp|]; [|eexists [_]; split; [done|constructor]].
  case_decide; [eexists [_]; split; [done|constructor]|].
  case_decide; [eexists [_]; split; [done|constructor]|].
  destruct (json_Decode (Body resp)) as [job|]; [|eexists [_]; split; [done|constructor]].
  apply Hjob.
Qed.


End WorkerTrace.

(** ** The tags of the agent *)

Section AgentTags.
Import GoStrings worker runner.

(** The tags the agent is started with.  The worker's rules come first and
    its extra tags after them, so a [queue] entry among the extra tags whose
    value is not empty overrides every [queue] entry of the rules: the agent
    gets the other entries of both, in order, and then that one [queue]
    entry.  The queue the worker is configured with reaches the agent as
    [--queue] only, not as a tag. *)
Theorem runAgent_args_tags (r : Runner) (jobUUID hostname value : string) :
  last (omap queue_value (tags r)) = Some value -> value <> "" ->
  runAgent_args r jobUUID hostname
  = ["start";
     "--acquire-job"; jobUUID;
     "--token"; buildkiteToken r;
     "--tags"; Join (List.filter other_key (agentQueryRules r)
                     ++ List.filter other_key (tags r)
                     ++ ["queue=" +:+ value]) ",";
     "--name"; "worker-" +:+ hostname]
    ++ (if decide (queue r = "") then [] else ["--queue"; queue r]).
Proof.
  intros Hlast Hvalue. unfold runAgent_args, normalizeTags, normalizeTags_result.
  rewrite normalizeTags_loop. cbn [app].
  rewrite omap_app, last_app, Hlast. cbn [default id].
  rewrite List.filter_app, <- app_assoc.
  destruct (decide (value <> "")) as [_|Hn]; [|done].
  destruct (decide (queue r <> "")) as [Hq|Hq];
    destruct (decide (queue r = "")) as [Hq'|Hq']; done.
Qed.

End AgentTags.

Lemma runAgent_args_tags_witness :
  runner.runAgent_args
    (runner.mkRunner "http://localhost:18888" ["queue=default"; "arch=amd64"]
       ["queue=production"] "" "/usr/local/bin/buildkite-agent" "token" "w1")
    "01234567-89ab" "host"
  = ["start"; "--acquire-job"; "01234567-89ab"; "--token"; "token";
     "--tags"; "arch=amd64,queue=production"; "--name"; "worker-host"].
Proof.
  apply (runAgent_args_tags
           (runner.mkRunner "http://localhost:18888" ["queue=default"; "arch=amd64"]
              ["queue=production"] "" "/usr/local/bin/buildkite-agent" "token" "w1")
           "01234567-89ab" "host" "production").
  - reflexivity.
  - discriminate.
Defined.

(** ** The properties on the small run *)

(** A job is inserted into an empty index, claimed and reported complete. *)
Lemma job_life_witness :
  let s1 := (storage.AddJob example.Marshal example.Format example.J1 redis.empty).2 in
  let s2 := (storage.ClaimJob example.Unmarshal
               (types.AgentQueryRules example.J1) s1).2 in
  (storage.ClaimJob example.Unmarshal (types.AgentQueryRules example.J1) s1).1
  = Ok (Some example.J1)
  /\ (storage.CompleteJob "j1" s2).1 = Ok tt.
Proof.
  cbv zeta.
  destruct (job_life example.Marshal example.Unmarshal example.Format redis.empty
              example.J1 example.J1 "j1|default|queue=default,arch=amd64")
    as (_ & Hclaim & Hcomplete & _).
  - reflexivity.
  - apply layout_empty.
  - reflexivity.
  - reflexivity.
  - reflexivity.
  - reflexivity.
  - split; [exact Hclaim | exact Hcomplete].
Defined.

(** J1 is inserted; after most of an hour J2 is inserted under the same key;
    after most of another hour the metadata of J1 is gone while J1 is still
    queued. *)
Lemma stale_metadata_after_refresh_witness :
  let s1 := redis.elapse (time_Hour - 1)
              (storage.AddJob example.Marshal example.Format example.J1 redis.empty).2 in
  let s2 := redis.elapse (time_Hour - 1)
              (storage.AddJob example.Marshal example.Format example.J2 s1).2 in
  redis.db s2 !! ("job:" +:+ "j1") = None
  /\ (storage.ClaimJob example.Unmarshal (types.AgentQueryRules example.J1) s2).1
     = Ok (Some example.J1).
Proof.
  cbv zeta.
  destruct (stale_metadata_after_refresh example.Marshal example.Unmarshal
              example.Format redis.empty example.J1 example.J1 example.J2
              "j1|default|queue=default,arch=amd64"
              "j2|default|arch=amd64,queue=default"
              (time_Hour - 1) (time_Hour - 1))
    as (Hmeta & _ & Hclaim & _).
  - reflexivity.
  - apply layout_empty.
  - reflexivity.
  - discriminate.
  - reflexivity.
  - reflexivity.
  - reflexivity.
  - reflexivity.
  - reflexivity.
  - unfold time_Hour. lia.
  - unfold time_Hour. lia.
  - unfold time_Hour. lia.
  - split; [exact Hmeta | exact Hclaim].
Defined.

(** Completion of a job that was never inserted leaves the queues alone. *)
Lemma CompleteJob_frame_witness :
  redis.queue_at "jobs:queue=default"
    (redis.db (storage.CompleteJob "j1" redis.empty).2)
  = redis.queue_at "jobs:queue=default" (redis.db redis.empty).
Proof.
  destruct (CompleteJob_frame redis.empty "j1") as (_ & Hqueues & _).
  - reflexivity.
  - apply layout_empty.
  - exact (Hqueues "jobs:queue=default").
Defined.

(** The statistics of the empty index. *)
Lemma GetAllStats_lengths_witness :
  stats.GetQueueStats "queue=default" redis.empty = (Ok 0%Z, redis.empty).
Proof.
  destruct (GetAllStats_lengths redis.empty) as (_ & _ & Hmissing).
  - reflexivity.
  - apply Hmissing. reflexivity.
Defined.

(** The statistics before and after the first insert. *)
Lemma handleStats_after_AddJob_witness :
  let s' := (storage.AddJob example.Marshal example.Format example.J1 redis.empty).2 in
  exists queues,
    stats.handleStats redis.empty
    = (Some (server.StatusOK, stats.StatsJSON queues (stats.total_of queues)),
       redis.empty)
    /\ stats.handleStats s'
       = (Some (server.StatusOK,
                stats.StatsJSON
                  (<[types.NormalizeQueryRules (types.AgentQueryRules example.J1)
                     := (default 0 (queues !! types.NormalizeQueryRules
                                      (types.AgentQueryRules example.J1)) + 1)%Z]>
                     queues)
                  (stats.int64 (stats.total_of queues + 1))), s').
Proof.
  cbv zeta.
  apply (handleStats_after_AddJob example.Marshal example.Format redis.empty
           example.J1 "j1|default|queue=default,arch=amd64").
  - reflexivity.
  - apply layout_empty.
  - reflexivity.
Defined.

(** The statistics before and after the claim of the only job. *)
Lemma handleStats_after_ClaimJob_witness :
  let s := (storage.AddJob example.Marshal example.Format example.J1 redis.empty).2 in
  let s' := (storage.ClaimJob example.Unmarshal ["arch=amd64"; "queue=default"] s).2 in
  exists queues count,
    stats.handleStats s
    = (Some (server.StatusOK, stats.StatsJSON queues (stats.total_of queues)), s)
    /\ queues !! types.NormalizeQueryRules ["arch=amd64"; "queue=default"] = Some count
    /\ (1 <= count)%Z
    /\ stats.handleStats s'
       = (Some (server.StatusOK,
                stats.StatsJSON
                  (if decide (count = 1%Z)
                   then delete (types.NormalizeQueryRules ["arch=amd64"; "queue=default"])
                          queues
                   else <[types.NormalizeQueryRules ["arch=amd64"; "queue=default"]
                          := (count - 1)%Z]> queues)
                  (stats.int64 (stats.total_of queues - 1))), s').
Proof.
  cbv zeta.
  apply (handleStats_after_ClaimJob example.Unmarshal
           (storage.AddJob example.Marshal example.Format example.J1 redis.empty).2
           ["arch=amd64"; "queue=default"] example.J1).
  - reflexivity.
  - rewrite (AddJob_ok example.Marshal example.Format example.J1
               "j1|default|queue=default,arch=amd64" redis.empty).
    + apply layout_added, layout_empty.
    + reflexivity.
    + apply layout_empty.
    + reflexivity.
  - reflexivity.
Defined.

(** The authority grants two of the three jobs it listed. *)
Lemma reserveJobs_inserts_granted_witness :
  let out := monitor.reserveJobs example.Marshal example.Format Z
               scenario.BatchReserveJobs scenario.time_Now
               "custom-scheduler-demo" "default" scenario.listed (0%Z, redis.empty) in
  out.1 = Ok tt
  /\ redis.up out.2.2 = true /\ redis.layout (redis.db out.2.2)
  /\ exists inserted,
       Forall2 (fun job listed =>
                  job = monitor.ourJob "default" listed (types.ReservedAt job))
         inserted
         (List.filter (fun listed => bool_decide (stacksapi.ID listed ∈ ["a"; "c"]))
            scenario.listed)
       /\ forall key,
            redis.queue_at key (redis.db out.2.2)
            = redis.queue_at key (redis.db redis.empty)
              ++ omap (payload_for example.Marshal key) inserted.
Proof.
  cbv zeta.
  apply (reserveJobs_inserts_granted example.Marshal example.Format Z
           scenario.BatchReserveJobs scenario.time_Now
           "custom-scheduler-demo" "default" scenario.listed ["a"; "c"]
           0%Z 0%Z redis.empty).
  - reflexivity.
  - apply layout_empty.
  - discriminate.
  - reflexivity.
Defined.

(** One tick of the monitor on the empty index. *)
Lemma pollQueues_only_appends_witness :
  let s' := (monitor.pollQueues example.Marshal example.Format Z
               scenario.ListScheduledJobs scenario.BatchReserveJobs scenario.time_Now
               1 "custom-scheduler-demo" ["default"] (0%Z, redis.empty)).2.2 in
  redis.up s' = redis.up redis.empty
  /\ redis.layout (redis.db s')
  /\ redis.queue_at "jobs:queue=default" (redis.db redis.empty)
     `prefix_of` redis.queue_at "jobs:queue=default" (redis.db s').
Proof.
  cbv zeta.
  destruct (pollQueues_only_appends example.Marshal example.Format Z
              scenario.ListScheduledJobs scenario.BatchReserveJobs scenario.time_Now
              1 "custom-scheduler-demo" ["default"] 0%Z redis.empty)
    as (Hup & Hlayout & Hqueues).
  - apply layout_empty.
  - split; [exact Hup|]. split; [exact Hlayout|].
    exact (Hqueues "jobs:queue=default").
Defined.

(** An authority whose listings have one page: the tick ends without
    error. *)
Lemma pollQueues_errors_witness :
  (monitor.pollQueues example.Marshal example.Format Z
     scenario.ListScheduledJobs scenario.BatchReserveJobs scenario.time_Now
     1 "custom-scheduler-demo" ["default"; "other"] (0%Z, redis.empty)).1
  = Some (Ok tt).
Proof.
  destruct (pollQueues_errors example.Marshal example.Format Z
              scenario.ListScheduledJobs scenario.BatchReserveJobs scenario.time_Now
              0 "custom-scheduler-demo") as (_ & _ & Hends).
  apply Hends.
  intros req w resp w' [= <- _]. reflexivity.
Defined.



(** A turn of the worker of the scenario: the job's id has thirteen bytes
    and the agent ends well. *)
Lemma processNextJob_outcome_witness :
  (runner.processNextJob scenario.http_NewRequest scenario.http_Do scenario.exec_Run
     (Some "host") example.Unmarshal scenario.theRunner []).1
  = runner.Returns tt.
Proof.
  destruct (processNextJob_outcome scenario.http_NewRequest scenario.http_Do
              scenario.exec_Run (Some "host") example.Unmarshal scenario.theRunner [])
    as ([_ Hreturns] & _).
  apply Hreturns.
  exists (types.mkJob "01234567-89ab" "default" ["arch=amd64"; "queue=default"]
            0%Z 0%Z 0%Z).
  split; [reflexivity|]. split; [|reflexivity].
  vm_compute. lia.
Defined.
